(** * vinted-bot: the filter, de-duplication and scan loop of [bot.py]

    A shallow embedding of [bot.py] (a Vinted -> Telegram polling bot) and
    the properties of its specification.

    - Python [float] is IEEE-754 binary64: Rocq's primitive floats.
    - Python [int] is unbounded: [Z].
    - Python [str] is a sequence of Unicode code points: [list Z].
    - An exception is a value of [exn]; a call that may raise returns
      [result A]; code with effects (the global [SEEN], the network, the
      clock, [seen.json], the console) runs in the monad [M]. *)

From Stdlib Require Import ZArith List Bool PrimFloat SpecFloat FloatOps FloatAxioms.
From Stdlib Require Import Ascii String.
From stdpp Require Import base option list gmap sets sorting pretty.

Local Open Scope Z_scope.

(** ** The Python runtime, as far as [bot.py] uses it *)

Module Py.

(** The exceptions that the modelled calls can raise. All of them derive
    from [Exception], which is what every [except] clause of [bot.py]
    catches. *)
Inductive exn : Type :=
| ZeroDivisionError
| OverflowError
| ValueError
| TypeError
| AttributeError
| OSError
| RequestException.

Definition result (A : Type) : Type := exn + A.

Definition ok {A} (a : A) : result A := inr a.
Definition raise {A} (e : exn) : result A := inl e.

Definition rbind {A B} (r : result A) (k : A -> result B) : result B :=
  match r with
  | inl e => inl e
  | inr a => k a
  end.

(** [try: r  except Exception: d] for a handler that returns a value. *)
Definition try_default {A} (r : result A) (d : A) : A :=
  match r with
  | inl _ => d
  | inr a => a
  end.

(** *** Strings and the Unicode database *)

Definition str : Type := list Z.

(** A literal of the source, written with ASCII characters only. *)
Fixpoint lit (s : string) : str :=
  match s with
  | EmptyString => []
  | String c s' => Z.of_N (N_of_ascii c) :: lit s'
  end.

(** Code points of the digits zero of every decimal-digit block (general
    category Nd) of Unicode 14.0.0, the version of CPython 3.11's
    [unicodedata]; each is followed by the digits one to nine. *)
Definition nd_zeros : list Z :=
  [48; 1632; 1776; 1984; 2406; 2534; 2662; 2790; 2918; 3046; 3174; 3302;
   3430; 3558; 3664; 3792; 3872; 4160; 4240; 6112; 6160; 6470; 6608; 6784;
   6800; 6992; 7088; 7232; 7248; 42528; 43216; 43264; 43472; 43504; 43600;
   44016; 65296; 66720; 68912; 69734; 69872; 69942; 70096; 70384; 70736;
   70864; 71248; 71360; 71472; 71904; 72016; 72784; 73040; 73120; 92768;
   92864; 93008; 120782; 120792; 120802; 120812; 120822; 123200; 123632;
   125264; 130032].

(** Characters with Numeric_Type=Digit that are not decimal (superscripts,
    circled digits, ...), as inclusive ranges. *)
Definition digit_only_ranges : list (Z * Z) :=
  [(178, 179); (185, 185); (4969, 4977); (6618, 6618); (8304, 8304);
   (8308, 8313); (8320, 8329); (9312, 9320); (9332, 9340); (9352, 9360);
   (9450, 9450); (9461, 9469); (9471, 9471); (10102, 10110);
   (10112, 10120); (10122, 10130); (68160, 68163); (69216, 69224);
   (69714, 69722); (127232, 127242)].

(** Whitespace in the sense of [str.isspace] and [str.strip]. *)
Definition space_ranges : list (Z * Z) :=
  [(9, 13); (28, 32); (133, 133); (160, 160); (5760, 5760); (8192, 8202);
   (8232, 8233); (8239, 8239); (8287, 8287); (12288, 12288)].

Definition in_range (c : Z) (r : Z * Z) : bool :=
  (fst r <=? c) && (c <=? snd r).

(** Two ranges without a common character. *)
Definition disjoint (r1 r2 : Z * Z) : bool :=
  (snd r1 <? fst r2) || (snd r2 <? fst r1).

(** The value of a decimal digit: what [\d] matches and what [int] and
    [float] accept as a digit. *)
Definition decimal_value (c : Z) : option Z :=
  match List.find (fun z => in_range c (z, z + 9)) nd_zeros with
  | Some z => Some (c - z)
  | None => None
  end.

Definition isdecimal (c : Z) : bool :=
  match decimal_value c with Some _ => true | None => false end.

Definition isdigit (c : Z) : bool :=
  isdecimal c || existsb (in_range c) digit_only_ranges.

Definition isspace (c : Z) : bool := existsb (in_range c) space_ranges.

Fixpoint drop_while {A} (p : A -> bool) (l : list A) : list A :=
  match l with
  | [] => []
  | x :: l' => if p x then drop_while p l' else l
  end.

Fixpoint take_while {A} (p : A -> bool) (l : list A) : list A :=
  match l with
  | [] => []
  | x :: l' => if p x then x :: take_while p l' else []
  end.

(** [s.strip()] *)
Definition strip (s : str) : str :=
  rev (drop_while isspace (rev (drop_while isspace s))).

(** [s.replace(old, new)] for one-character [old] and [new]. *)
Definition replace (old new : Z) (s : str) : str :=
  map (fun c => if c =? old then new else c) s.

(** Truth value of a string: [not s] holds for the empty string only. *)
Definition str_truthy (s : str) : bool :=
  match s with [] => false | _ => true end.

Definition c_minus : Z := 45.
Definition c_plus : Z := 43.
Definition c_dot : Z := 46.
Definition c_comma : Z := 44.
Definition c_space : Z := 32.
Definition c_underscore : Z := 95.

(** *** Numbers *)

(** The number written by a run of decimal digits, most significant
    first; [None] if a character is not a decimal digit. *)
Fixpoint digits_value (acc : Z) (s : str) : option Z :=
  match s with
  | [] => Some acc
  | c :: s' =>
      match decimal_value c with
      | Some d => digits_value (10 * acc + d) s'
      | None => None
      end
  end.

(** [digitpart ::= digit (["_"] digit)*]: underscores are allowed between
    two digits only. Returns the digits without the underscores. *)
Fixpoint digitpart (prev_digit : bool) (s : str) : option str :=
  match s with
  | [] => if prev_digit then Some [] else None
  | c :: s' =>
      if isdecimal c then option_map (cons c) (digitpart true s')
      else if (c =? c_underscore) && prev_digit then digitpart false s'
      else None
  end.

(** The blanks that [int] skips around a number: the blanks of C (tab to
    carriage return, and the space) and the Unicode spaces beyond ASCII.
    The separators U+001C to U+001F, which [str.isspace] accepts, are not
    among them: [int("7\x1c")] raises [ValueError]. *)
Definition int_blank (c : Z) : bool :=
  in_range c (9, 13) || (c =? c_space) || ((127 <? c) && isspace c).

(** [int(s)] for a string, base ten: surrounding blanks, an optional
    sign, then a digitpart. (The length limit of CPython 3.11 on the
    number of digits is not modelled; both call sites of [bot.py] either
    pass at most five digits or catch the exception.) *)
Definition int_of_str (s : str) : result Z :=
  let s := rev (drop_while int_blank (rev (drop_while int_blank s))) in
  let '(neg, body) :=
    match s with
    | c :: s' =>
        if c =? c_minus then (true, s')
        else if c =? c_plus then (false, s')
        else (false, s)
    | [] => (false, s)
    end in
  match digitpart false body with
  | Some ds =>
      match digits_value 0 ds with
      | Some n => ok (if neg then - n else n)
      | None => raise ValueError
      end
  | None => raise ValueError
  end.

Definition SF64div := SFdiv prec emax.

(** The binary64 value nearest to [n / d] (ties to even), for integers of
    any size; [d] is positive. *)
Definition Z_div_nearest (n d : Z) : float :=
  match n, d with
  | Zpos p, Zpos q => SF2Prim (SF64div (S754_finite false p 0) (S754_finite false q 0))
  | Zneg p, Zpos q => SF2Prim (SF64div (S754_finite true p 0) (S754_finite false q 0))
  | _, _ => 0%float
  end.

(** [float(n)] for an int: the nearest binary64 value, ties to even;
    [OverflowError] when that value is not finite. *)
Definition nearest_float (n : Z) : float :=
  SF2Prim (binary_normalize prec emax n 0 false).

Definition float_of_int (n : Z) : result float :=
  let f := nearest_float n in
  if is_infinity f then raise OverflowError else ok f.

(** [a / b] for floats: Python raises on a zero divisor where IEEE-754
    would return an infinity or a NaN. *)
Definition float_truediv (a b : float) : result float :=
  if PrimFloat.eqb b 0%float then raise ZeroDivisionError
  else ok (PrimFloat.div a b).

(** [int(f)] for a float: truncation toward zero. *)
Definition int_of_float (f : float) : result Z :=
  match Prim2SF f with
  | S754_nan => raise ValueError
  | S754_infinity _ => raise OverflowError
  | S754_zero _ => ok 0
  | S754_finite s m e =>
      let a := if 0 <=? e then Z.pos m * 2 ^ e else Z.pos m / 2 ^ (- e) in
      ok (if s then - a else a)
  end.

(** [f <= n] for a float and an int: Python compares the exact values. *)
Definition float_le_int (f : float) (n : Z) : bool :=
  match Prim2SF f with
  | S754_nan => false
  | S754_infinity s => s
  | S754_zero _ => 0 <=? n
  | S754_finite s m e =>
      let v := if s then Z.neg m else Z.pos m in
      if 0 <=? e then v * 2 ^ e <=? n else v <=? n * 2 ^ (- e)
  end.

(** [float(s)] on the strings that [parse_float] builds, which hold only
    [isdigit] characters, ['.'] and ['-']. On these the grammar of [float]
    is [["-"] (digits ["." [digits]] | "." digits)] with decimal digits;
    every other string raises [ValueError]. The value is the binary64
    nearest to the decimal number; too large a number gives an infinity,
    not an exception. *)
Definition float_of_str (s : str) : result float :=
  let '(neg, body) :=
    match s with
    | c :: s' => if c =? c_minus then (true, s') else (false, s)
    | [] => (false, s)
    end in
  let ip := take_while (fun c => negb (c =? c_dot)) body in
  let rest := drop_while (fun c => negb (c =? c_dot)) body in
  let fp := match rest with [] => [] | _ :: fp => fp end in
  match ip ++ fp with
  | [] => raise ValueError
  | _ :: _ =>
      match digits_value 0 (ip ++ fp) with
      | Some m =>
          let f := Z_div_nearest m (10 ^ Z.of_nat (length fp)) in
          ok (if neg then (if is_zero f then neg_zero else PrimFloat.opp f) else f)
      | None => raise ValueError
      end
  end.

End Py.

(** ** The data of [bot.py] *)

Module Bot.
Import Py.

(** One entry of [SEARCHES]. The ceilings are floats in the source
    ([30.0], [0.06]), so [float(search["max_price"])] is the identity;
    [None] switches a rule off. *)
Record search : Type := {
  name : str;
  query : str;
  max_price : option float;
  max_unit_price : option float;
  min_quantity : option Z
}.

(** The module-level configuration, read from the environment at import. *)
Record config : Type := {
  TELEGRAM_TOKEN : str;
  TELEGRAM_CHAT_ID : str;
  POLL_SECONDS : Z;
  MAX_ITEM_AGE_MIN : Z;
  SEARCHES : list search
}.

Definition BASE : str := lit "https://www.vinted.fr".

(** The binary64 values that the literals [0.06], [0.04], [0.05] and
    [0.024] denote. *)
Definition float_0_06 : float := 0x1.eb851eb851eb8p-5%float.
Definition float_0_04 : float := 0x1.47ae147ae147bp-5%float.
Definition float_0_05 : float := 0x1.999999999999ap-5%float.
Definition float_0_024 : float := 0x1.89374bc6a7efap-6%float.

(** The list [SEARCHES] as the source defines it. *)
Definition default_searches : list search :=
  [ {| name := lit "Pokemon bulk"; query := lit "lot cartes pokemon";
       max_price := None; max_unit_price := Some float_0_06;
       min_quantity := Some 80 |};
    {| name := lit "YuGiOh bulk"; query := lit "lot cartes yugioh";
       max_price := None; max_unit_price := Some float_0_04;
       min_quantity := Some 80 |};
    {| name := lit "Lego vrac"; query := lit "lego vrac lot";
       max_price := Some 30%float; max_unit_price := None;
       min_quantity := None |};
    {| name := lit "Game Boy"; query := lit "game boy console";
       max_price := Some 40%float; max_unit_price := None;
       min_quantity := None |} ].

(** A scalar of the decoded JSON. *)
Inductive scalar : Type :=
| SNone
| SBool (b : bool)
| SInt (n : Z)
| SFloat (f : float)
| SStr (s : str).

(** The ["price"] entry of a raw item: "parfois str ou dict", a scalar or
    an object whose ["amount"] entry is read ([SNone] when it is missing). *)
Inductive price_field : Type :=
| PriceScalar (v : scalar)
| PriceDict (amount : scalar).

(** A raw item of the search endpoint, as [item_info] reads it with
    [item.get]: a missing or null entry is [None] / [SNone]. Listing ids
    are JSON integers; titles, urls and paths are JSON strings. *)
Record item : Type := {
  item_id : option Z;
  item_title : option str;
  item_price : price_field;
  item_url : option str;
  item_path : option str;
  item_created_at_ts : scalar
}.

(** The dict that [item_info] returns. [created_dt] is an aware UTC
    datetime, kept as its whole number of seconds since the epoch. *)
Record info : Type := {
  id : option Z;
  title : str;
  price : float;
  url : str;
  created_dt : option Z
}.

(** ** Utilities *)

Definition scalar_truthy (v : scalar) : bool :=
  match v with
  | SNone => false
  | SBool b => b
  | SInt n => negb (n =? 0)
  | SFloat f => negb (PrimFloat.eqb f 0%float)
  | SStr s => str_truthy s
  end.

(** Truth value of an optional int: [None] and [0] are false. *)
Definition int_truthy (v : option Z) : bool :=
  match v with
  | Some n => negb (n =? 0)
  | None => false
  end.

(** [parse_float]. [bool] is a subclass of [int], so a JSON boolean takes
    the numeric branch. The numeric branch calls [float(val)] outside any
    [try]. *)
Definition parse_float (val : scalar) : result float :=
  match val with
  | SNone => ok 0%float
  | SBool b => float_of_int (if b then 1 else 0)
  | SInt n => float_of_int n
  | SFloat f => ok f
  | SStr s =>
      let s := replace c_comma c_dot (strip s) in
      let s := List.filter (fun ch => isdigit ch || (ch =? c_dot) || (ch =? c_minus)) s in
      ok (try_default (float_of_str s) 0%float)
  end.

(** [num_re = re.compile(r"(\d{1,5})")]. The greedy [\d{1,5}] at the head
    of [s] takes the longest run of at most five decimal digits. *)
Fixpoint match_digits (most : nat) (s : str) : str :=
  match most, s with
  | S k, c :: s' => if isdecimal c then c :: match_digits k s' else []
  | _, _ => []
  end.

Definition num_re_match (s : str) : option str :=
  match match_digits 5 s with
  | [] => None
  | g => Some g
  end.

(** [num_re.search(s)]: the match at the leftmost position that has one;
    the result is group 1. *)
Fixpoint num_re_search (s : str) : option str :=
  match num_re_match s with
  | Some g => Some g
  | None =>
      match s with
      | [] => None
      | _ :: s' => num_re_search s'
      end
  end.

(** [extract_quantity_from_text]. In the source both arguments of
    [replace] are the ordinary space. *)
Definition extract_quantity_from_text (text : str) : option Z :=
  if negb (str_truthy text) then None
  else
    match num_re_search (replace c_space c_space text) with
    | Some g =>
        match int_of_str g with
        | inr n => if (1 <=? n) && (n <=? 5000) then Some n else None
        | inl _ => None
        end
    | None => None
    end.

(** [x or y] on optional strings: the first that is present and not
    empty. *)
Definition str_or (x : option str) (y : str) : str :=
  match x with
  | Some s => if str_truthy s then s else y
  | None => y
  end.

(** [f"{item_id}"] *)
Definition format_id (i : option Z) : str :=
  match i with
  | Some n => lit (pretty n)
  | None => lit "None"
  end.

(** [int(created_ts)] *)
Definition int_of_scalar (v : scalar) : result Z :=
  match v with
  | SNone => raise TypeError
  | SBool b => ok (if b then 1 else 0)
  | SInt n => ok n
  | SFloat f => int_of_float f
  | SStr s => int_of_str s
  end.

Definition TS_MIN : Z := -62135596800.
Definition TS_MAX : Z := 253402300799.

(** [datetime.fromtimestamp(n, tz=timezone.utc)]: years 1 to 9999. *)
Definition fromtimestamp (n : Z) : result Z :=
  if (TS_MIN <=? n) && (n <=? TS_MAX) then ok n else raise ValueError.

(** [item_info] *)
Definition item_info (it : item) : result info :=
  let item_id := item_id it in
  let title := str_or (item_title it) [] in
  let raw_price := item_price it in
  rbind (match raw_price with
         | PriceDict amount => parse_float amount
         | PriceScalar v => parse_float v
         end) (fun price =>
  let url_path :=
    str_or (item_url it) (str_or (item_path it) (lit "/items/" ++ format_id item_id)) in
  let url := BASE ++ url_path in
  let created_ts := item_created_at_ts it in
  let created_dt :=
    if scalar_truthy created_ts then
      match rbind (int_of_scalar created_ts) fromtimestamp with
      | inr dt => Some dt
      | inl _ => None
      end
    else None in
  ok {| id := item_id; title := title; price := price; url := url;
        created_dt := created_dt |}).

(** [timedelta.total_seconds()], for a difference given in microseconds. *)
Definition total_seconds (us : Z) : float := Z_div_nearest us 1000000.

(** [is_recent], as a function of the reading of [datetime.now] in
    microseconds since the epoch and of [MAX_ITEM_AGE_MIN]. A datetime is
    always true, so [not created_dt] holds for [None] only. *)
Definition is_recent_at (max_age_min : Z) (now_us : Z) (created_dt : option Z)
  : result bool :=
  match created_dt with
  | None => ok true
  | Some c =>
      rbind (float_truediv (total_seconds (now_us - c * 1000000)) 60%float)
        (fun age_min => ok (float_le_int age_min max_age_min))
  end.

(** The triple [(ok, qty, unit_price)] that [evaluate_item] returns. *)
Definition verdict : Type := bool * option Z * option float.

(** [qty < m], reached only when [not qty] is false. *)
Definition qty_lt (qty : option Z) (m : Z) : bool :=
  match qty with Some q => q <? m | None => false end.

(** [qty <= 0], reached only when [not qty] is false. *)
Definition qty_le0 (qty : option Z) : bool :=
  match qty with Some q => q <=? 0 | None => false end.

(** [float(qty)] *)
Definition float_of_qty (qty : option Z) : result float :=
  match qty with Some q => float_of_int q | None => raise TypeError end.

(** [evaluate_item] *)
Definition evaluate_item (s : search) (i : info) : result verdict :=
  let title := title i in
  let price := price i in
  let qty := extract_quantity_from_text title in
  if match min_quantity s with
     | Some m => negb (m =? 0) && (negb (int_truthy qty) || qty_lt qty m)
     | None => false
     end
  then ok (false, qty, None)
  else if match max_price s with
          | Some mp => PrimFloat.ltb mp price
          | None => false
          end
  then ok (false, qty, None)
  else
    match max_unit_price s with
    | Some ceiling =>
        if negb (int_truthy qty) || qty_le0 qty then ok (false, qty, None)
        else
          rbind (float_of_qty qty) (fun fq =>
          rbind (float_truediv price fq) (fun unit_price =>
          if PrimFloat.ltb ceiling unit_price
          then ok (false, qty, Some unit_price)
          else ok (true, qty, Some unit_price)))
    | None => ok (true, qty, None)
    end.

(** ** The world around the bot *)

(** The content of [seen.json]. *)
Inductive file : Type :=
| FileAbsent
| FileCorrupt
| FileIds (ids : list Z).

(** What [r.json()] finds in the body of a search response: no JSON, a
    JSON value without [get], or an object with its ["items"] entry
    ([None] when the entry is missing or null). *)
Inductive body : Type :=
| BodyNotJson
| BodyNotObject
| BodyObject (items : option (list item)).

Inductive get_outcome : Type :=
| GetRaises (e : exn)
| GetResponse (status_code : Z) (b : body).

Inductive post_outcome : Type :=
| PostRaises (e : exn)
| PostResponse (status_code : Z).

(** Writing [seen.json]: done, [open] fails (the file is untouched), or
    the dump fails after [open] truncated the file. *)
Inductive write_outcome : Type :=
| WriteDone
| WriteOpenFails (e : exn)
| WriteDumpFails (e : exn).

(** The answers of the outside world, by the number of the interaction. *)
Record environment : Type := {
  on_get : nat -> get_outcome;
  on_post : nat -> post_outcome;
  on_now : nat -> Z;
  on_write : nat -> write_outcome;
  on_uniform : nat -> float
}.

(** The Telegram text of a match is built from these values (the query
    name, the listing, the quantity when it is true, the unit price when
    it is not [None]); its rendering as text is not modelled. *)
Record message : Type := {
  msg_name : str;
  msg_info : info;
  msg_qty : option Z;
  msg_unit_price : option float
}.

Inductive log_line : Type :=
| LogNoTelegram (m : message)
| LogErrTelegramStatus (status_code : Z)
| LogErrTelegram (e : exn)
| LogWarnHttp (status_code : Z) (q : str)
| LogErrSearch (e : exn)
| LogWarnSaveSeen (e : exn)
| LogBanner
| LogErrInitialScan (e : exn)
| LogSent (n : Z)
| LogErrLoop (e : exn).

(** What a run does, in order. [Evaluate] is not an effect of the
    program: it records each call of [evaluate_item]. *)
Inductive event : Type :=
| PrintLine (l : log_line)
| HttpGet (q : str)
| HttpPost (m : message)
| Sleep
| WriteSeen (ids : list Z) (o : write_outcome)
| Evaluate (s : search) (i : info).

Record world : Type := {
  SEEN : gset Z;
  seen_json : file;
  trace : list event;
  clock : nat
}.

(** ** The monad of effects *)

Definition M (A : Type) : Type := world -> result A * world.

Definition ret {A} (a : A) : M A := fun w => (ok a, w).

Definition throw {A} (e : exn) : M A := fun w => (raise e, w).

Definition bind {A B} (c : M A) (k : A -> M B) : M B :=
  fun w =>
    match c w with
    | (inl e, w') => (inl e, w')
    | (inr a, w') => k a w'
    end.

Notation "'let*' x ':=' c 'in' k" := (bind c (fun x => k))
  (at level 10, x pattern, c at level 100, k at level 200, only parsing).
Notation "c '>>' k" := (bind c (fun _ => k))
  (at level 100, k at level 200, right associativity, only parsing).

Definition lift {A} (r : result A) : M A := fun w => (r, w).

(** [try: c  except Exception as e: h e] *)
Definition try_except {A} (c : M A) (h : exn -> M A) : M A :=
  fun w =>
    match c w with
    | (inl e, w') => h e w'
    | (inr a, w') => (inr a, w')
    end.

Definition emit (e : event) : M unit :=
  fun w => (ok tt, {| SEEN := SEEN w; seen_json := seen_json w;
                      trace := trace w ++ [e]; clock := clock w |}).

Definition get_SEEN : M (gset Z) := fun w => (ok (SEEN w), w).

(** [SEEN.add(x)] *)
Definition SEEN_add (x : Z) : M unit :=
  fun w => (ok tt, {| SEEN := {[ x ]} ∪ SEEN w; seen_json := seen_json w;
                      trace := trace w; clock := clock w |}).

Definition read_file : M file := fun w => (ok (seen_json w), w).

Definition write_file (f : file) : M unit :=
  fun w => (ok tt, {| SEEN := SEEN w; seen_json := f;
                      trace := trace w; clock := clock w |}).

(** [for x in l: acc = body acc x], stopped by the first exception. *)
Fixpoint for_each {A B} (body : B -> A -> M B) (acc : B) (l : list A) : M B :=
  match l with
  | [] => ret acc
  | x :: l' => let* acc' := body acc x in for_each body acc' l'
  end.

Section Program.

Variable cfg : config.
Variable env : environment.

(** One interaction with the outside world. *)
Definition ask {A} (f : environment -> nat -> A) : M A :=
  fun w => (ok (f env (clock w)),
            {| SEEN := SEEN w; seen_json := seen_json w;
               trace := trace w; clock := S (clock w) |}).

(** ** Persistence of the seen ids *)

(** [load_seen] *)
Definition load_seen : M (gset Z) :=
  try_except
    (let* f := read_file in
     match f with
     | FileAbsent => throw OSError
     | FileCorrupt => throw ValueError
     | FileIds ids => ret (list_to_set ids)
     end)
    (fun _ => ret ∅).

(** [save_seen] *)
Definition save_seen (seen_ids : gset Z) : M unit :=
  try_except
    (let* o := ask on_write in
     let ids := merge_sort Z.le (elements seen_ids) in
     emit (WriteSeen ids o) >>
     match o with
     | WriteDone => write_file (FileIds ids)
     | WriteOpenFails e => throw e
     | WriteDumpFails e => write_file FileCorrupt >> throw e
     end)
    (fun e => emit (PrintLine (LogWarnSaveSeen e))).

(** ** Network *)

(** [send_telegram] *)
Definition send_telegram (msg : message) : M unit :=
  if negb (str_truthy (TELEGRAM_TOKEN cfg)) || negb (str_truthy (TELEGRAM_CHAT_ID cfg))
  then emit (PrintLine (LogNoTelegram msg))
  else
    try_except
      (emit (HttpPost msg) >>
       let* r := ask on_post in
       match r with
       | PostRaises e => throw e
       | PostResponse status_code =>
           if 300 <=? status_code
           then emit (PrintLine (LogErrTelegramStatus status_code))
           else ret tt
       end)
      (fun e => emit (PrintLine (LogErrTelegram e))).

(** [search_vinted]. [j.get("items", []) or []] is the list of the
    ["items"] entry, or the empty list. *)
Definition search_vinted (query : str) : M (list item) :=
  try_except
    (emit (HttpGet query) >>
     let* r := ask on_get in
     match r with
     | GetRaises e => throw e
     | GetResponse status_code b =>
         if negb (status_code =? 200)
         then emit (PrintLine (LogWarnHttp status_code query)) >> ret []
         else
           match b with
           | BodyNotJson => throw ValueError
           | BodyNotObject => throw AttributeError
           | BodyObject items => ret (default [] items)
           end
     end)
    (fun e => emit (PrintLine (LogErrSearch e)) >> ret []).

(** ** The scan *)

(** [is_recent]: the clock is read only when the creation time is known. *)
Definition is_recent (created_dt : option Z) : M bool :=
  match created_dt with
  | None => ret true
  | Some _ =>
      let* now := ask on_now in
      lift (is_recent_at (MAX_ITEM_AGE_MIN cfg) now created_dt)
  end.

(** The body of [for it in items], with the counter [sent_count]. *)
Definition scan_item (s : search) (sent_count : Z) (it : item) : M Z :=
  let* i := lift (item_info it) in
  match id i with
  | None => ret sent_count
  | Some item_id =>
      if item_id =? 0 then ret sent_count
      else
        let* seen := get_SEEN in
        if decide (item_id ∈ seen) then ret sent_count
        else
          let* recent := is_recent (created_dt i) in
          if negb recent then SEEN_add item_id >> ret sent_count
          else
            emit (Evaluate s i) >>
            let* (matched, qty, unit_price) := lift (evaluate_item s i) in
            if matched : bool then
              SEEN_add item_id >>
              send_telegram {| msg_name := name s; msg_info := i;
                               msg_qty := if int_truthy qty then qty else None;
                               msg_unit_price := unit_price |} >>
              ret (sent_count + 1)
            else SEEN_add item_id >> ret sent_count
  end.

(** The body of [for search in SEARCHES]. The pause lasts between 0.4 and
    1.2 seconds, so [time.sleep] cannot reject it. *)
Definition scan_search (sent_count : Z) (s : search) : M Z :=
  let* items := search_vinted (query s) in
  emit Sleep >>
  for_each (scan_item s) sent_count items.

(** [scan_once] *)
Definition scan_once : M Z :=
  let* sent_count := for_each scan_search 0 (SEARCHES cfg) in
  (if negb (sent_count =? 0)
   then let* seen := get_SEEN in save_seen seen
   else ret tt) >>
  ret sent_count.

(** ** The main loop *)

(** 2^63, the first number of nanoseconds that a signed 64-bit integer
    cannot hold. *)
Definition NS_LIMIT : float := 9223372036854775808%float.

(** What [time.sleep(d)] raises for a float [d], as CPython 3.11 has it:
    [ValueError] for a NaN; then [d] is multiplied by 1e9 and rounded
    away from zero, which changes no comparison with an integer, and
    [OverflowError] is raised outside [-2^63, 2^63]; at 2^63 itself the
    conversion to a 64-bit integer wraps to a negative number, and a
    negative number of nanoseconds raises [ValueError]. *)
Definition sleep_error (d : float) : option exn :=
  if is_nan d then Some ValueError
  else
    let ns := PrimFloat.mul d 1000000000%float in
    if PrimFloat.ltb ns (PrimFloat.opp NS_LIMIT) || PrimFloat.ltb NS_LIMIT ns
    then Some OverflowError
    else if PrimFloat.ltb ns 0%float || PrimFloat.eqb ns NS_LIMIT
    then Some ValueError
    else None.

(** [time.sleep(d)] *)
Definition sleep (d : float) : M unit :=
  match sleep_error d with
  | Some e => throw e
  | None => emit Sleep
  end.

(** [time.sleep(POLL_SECONDS + random.uniform(-5, 8))] *)
Definition sleep_poll : M unit :=
  let* jitter := ask on_uniform in
  let* p := lift (float_of_int (POLL_SECONDS cfg)) in
  sleep (PrimFloat.add p jitter).

(** The part of [main] before [while True]. *)
Definition main_start : M unit :=
  emit (PrintLine LogBanner) >>
  try_except (scan_once >> ret tt)
             (fun e => emit (PrintLine (LogErrInitialScan e))).

(** The body of [while True]. *)
Definition main_iteration : M unit :=
  try_except
    (let* sent := scan_once in
     (if negb (sent =? 0) then emit (PrintLine (LogSent sent)) else ret tt) >>
     sleep_poll)
    (fun e => emit (PrintLine (LogErrLoop e)) >> emit Sleep).

(** The first [n] rounds of [while True]. *)
Fixpoint main_loop (n : nat) : M unit :=
  match n with
  | O => ret tt
  | S n' => main_iteration >> main_loop n'
  end.

(** [main], cut after [n] rounds of its loop. *)
Definition main (n : nat) : M unit := main_start >> main_loop n.

(** The program from its start: the module body sets [SEEN = load_seen()]
    and then [main] runs. *)
Definition program (n : nat) : M unit :=
  let* seen := load_seen in
  (fun w => (ok tt, {| SEEN := seen; seen_json := seen_json w;
                       trace := trace w; clock := clock w |})) >>
  main n.

End Program.

Arguments item_info : simpl never.
Arguments evaluate_item : simpl never.
Arguments is_recent_at : simpl never.
Arguments send_telegram : simpl never.
Arguments search_vinted : simpl never.
Arguments save_seen : simpl never.
Arguments scan_item : simpl never.
Arguments scan_search : simpl never.
Arguments scan_once : simpl never.

(** The state of a fresh process beside the file [f]. *)
Definition boot (f : file) : world :=
  {| SEEN := ∅; seen_json := f; trace := []; clock := O |}.

End Bot.

(** ** Rounding to a binary floating-point format

    The notions in which the results of [SFdiv] and [binary_normalize],
    the correctly rounded division and conversion of the Standard
    Library's specification of IEEE-754 arithmetic, are stated. *)

Module Ieee.

(** The record [mrs] of [SpecFloat]'s shifts holds the integer part of
    [N / D], and its two bits tell where [N / D] lies between that
    integer and the next. *)
Definition located (N D : Z) (mrs : shr_record) : Prop :=
  0 < D /\ 0 <= shr_m mrs /\
  D * shr_m mrs <= N < D * (shr_m mrs + 1) /\
  (shr_r mrs = true <-> D <= 2 * (N - D * shr_m mrs)) /\
  (shr_s mrs = true <-> N <> D * shr_m mrs /\ 2 * (N - D * shr_m mrs) <> D).

(** [R] is the number [N / D * 2 ^ ex] rounded to the format of
    precision [prec] and largest exponent [emax], to nearest with ties
    to even: [m'] is the integer part of the number in units of
    [2 ^ e'] and [Mr] its rounding, and [(M, E)] is [(Mr, e')] written
    with at most [prec] digits. *)
Definition rounded (prec emax : Z) (s : bool) (N D ex : Z) (R : spec_float) : Prop :=
  exists m' Mr e' M E,
    ex <= e' /\ SpecFloat.emin prec emax <= e' /\
    (let D' := 2 ^ (e' - ex) * D in
     D' * m' <= N < D' * (m' + 1) /\
     2 * (D' * Mr) - D' <= 2 * N <= 2 * (D' * Mr) + D' /\
     (2 * (N - D' * m') = D' -> Z.even Mr = true)) /\
    0 <= m' < 2 ^ prec /\
    (SpecFloat.emin prec emax < e' -> 2 ^ (prec - 1) <= m') /\
    (Mr = m' \/ Mr = m' + 1) /\
    ((Mr < 2 ^ prec /\ M = Mr /\ E = e') \/
     (Mr = 2 ^ prec /\ M = 2 ^ (prec - 1) /\ E = e' + 1)) /\
    R = (if M =? 0 then S754_zero s
         else if E <=? emax - prec then S754_finite s (Z.to_pos M) E
         else S754_infinity s) /\
    SpecFloat.valid_binary prec emax R = true.

(** Zeros and finite numbers. *)
Definition SF_finite (R : spec_float) : bool :=
  match R with
  | S754_zero _ | S754_finite _ _ _ => true
  | _ => false
  end.

(** The least number that rounds to an infinity: half a unit in the last
    place above the largest finite number. *)
Definition OVF (prec emax : Z) : Z := (2 * 2 ^ prec - 1) * 2 ^ (emax - prec - 1).

(** For binary64 this is 2^1024 - 2^970, about 1.797693e308. *)
Definition FLOAT_LIMIT : Z := 2 ^ 1024 - 2 ^ 970.

End Ieee.

(** ** Definitions that follow the words of the specification *)

Module Spec.
Import Py Bot.

(** "The first run of 1-5 digits" of a text: skip to the first digit, then
    keep the digits that follow it, five at most. *)
Definition first_digit_run (text : str) : option str :=
  match drop_while (fun c => negb (isdecimal c)) text with
  | [] => None
  | run => Some (firstn 5 (take_while isdecimal run))
  end.

(** A text of digits only, and a text "with no digit run". *)
Definition all_decimal (s : str) : Prop := Forall (fun c => isdecimal c = true) s.
Definition no_decimal (s : str) : Prop := Forall (fun c => isdecimal c = false) s.

(** "The resulting integer lies in [1, 5000]". *)
Definition quantity_in_range (n : Z) : bool := (1 <=? n) && (n <=? 5000).

(** *** FilterEngine

    A rule, taken alone, says whether a listing passes it and gives the
    unit price that it computed, if any. *)
Definition rule : Type := search -> info -> bool * option float.

(** "If minQuantity is set: reject unless a quantity was extracted and it
    is >= minQuantity", where a minimum of zero counts as not set. *)
Definition rule_min_quantity : rule := fun s i =>
  match min_quantity s with
  | Some m =>
      if m =? 0 then (true, None)
      else
        match extract_quantity_from_text (title i) with
        | Some q => (m <=? q, None)
        | None => (false, None)
        end
  | None => (true, None)
  end.

(** "If maxTotalPrice is set: reject if listing price exceeds it." *)
Definition rule_max_total_price : rule := fun s i =>
  match max_price s with
  | Some ceiling => (negb (PrimFloat.ltb ceiling (price i)), None)
  | None => (true, None)
  end.

(** "If maxUnitPrice is set: require a strictly positive extracted
    quantity (reject otherwise); compute unitPrice = price / quantity;
    reject if unitPrice exceeds the ceiling." *)
Definition rule_max_unit_price : rule := fun s i =>
  match max_unit_price s with
  | Some ceiling =>
      match extract_quantity_from_text (title i) with
      | Some q =>
          if 0 <? q then
            let unit_price := PrimFloat.div (price i) (nearest_float q) in
            (negb (PrimFloat.ltb ceiling unit_price), Some unit_price)
          else (false, None)
      | None => (false, None)
      end
  | None => (true, None)
  end.

(** Rules applied in order, "short-circuiting on the first failing rule":
    the rules after a failing one are not consulted. [computed] is the
    unit price computed so far. *)
Fixpoint first_failure (rules : list rule) (s : search) (i : info)
    (computed : option float) : bool * option float :=
  match rules with
  | [] => (true, computed)
  | r :: rest =>
      let '(pass, u) := r s i in
      let computed' := match u with Some _ => u | None => computed end in
      if pass then first_failure rest s i computed' else (false, computed')
  end.

(** "Rule evaluation order": minQuantity, maxTotalPrice, maxUnitPrice. *)
Definition evaluate_in_order (s : search) (i : info) : verdict :=
  let '(matched, unit_price) :=
    first_failure [rule_min_quantity; rule_max_total_price; rule_max_unit_price]
                  s i None in
  (matched, extract_quantity_from_text (title i), unit_price).

(** The float of a quantity is finite and not zero. *)
Definition quantity_float_ok (q : Z) : bool :=
  negb (is_infinity (nearest_float q)) && negb (PrimFloat.eqb (nearest_float q) 0%float).

(** "Finite float". *)
Definition finite (f : float) : bool := PrimFloat.is_finite f.

(** "A listing older than the configured maximum age": the time from
    its creation, at [created] seconds after the epoch, to the reading
    [now_us] of the clock in microseconds exceeds [max_age_min]
    minutes. *)
Definition older_than (max_age_min now_us created : Z) : Prop :=
  max_age_min * 60000000 < now_us - created * 1000000.

(** "Then parse": the decimal number that a text of digits, dots and
    minus signs writes, if it writes one: an optional minus sign, then
    decimal digits with at most one dot among them and at least one
    digit. [Some (neg, m, k)] stands for the number [m / 10 ^ k],
    negated when [neg] holds. *)
Definition decimal_of (s : str) : option (bool * Z * Z) :=
  let '(neg, body) :=
    match s with
    | c :: s' => if c =? c_minus then (true, s') else (false, s)
    | [] => (false, s)
    end in
  let ip := take_while (fun c => negb (c =? c_dot)) body in
  let rest := drop_while (fun c => negb (c =? c_dot)) body in
  let fp := match rest with [] => [] | _ :: fp => fp end in
  match ip ++ fp with
  | [] => None
  | _ :: _ =>
      match digits_value 0 (ip ++ fp) with
      | Some m => Some (neg, m, Z.of_nat (length fp))
      | None => None
      end
  end.

(** The float [f] with the sign of the text: a negated zero is the
    negative zero. *)
Definition with_sign (neg : bool) (f : float) : float :=
  if neg then (if is_zero f then neg_zero else PrimFloat.opp f) else f.

(** *** What a trace shows *)

(** The listing id that an event passes to [evaluate_item]. *)
Definition evaluated (e : event) : option Z :=
  match e with
  | Evaluate _ i => id i
  | _ => None
  end.

(** The listing id for which an event is a notification: the call of the
    Telegram endpoint, or the console line that replaces it when the
    credentials are missing. *)
Definition notified (e : event) : option Z :=
  match e with
  | HttpPost m => id (msg_info m)
  | PrintLine (LogNoTelegram m) => id (msg_info m)
  | _ => None
  end.

(** An attempt to write [seen.json]. *)
Definition is_write (e : event) : bool :=
  match e with
  | WriteSeen _ _ => true
  | _ => false
  end.

(** A notification: the call of the Telegram endpoint or its console
    replacement. *)
Definition is_notification (e : event) : bool :=
  match e with
  | HttpPost _ => true
  | PrintLine (LogNoTelegram _) => true
  | _ => false
  end.

Definition evaluated_ids (tr : list event) : list Z := omap evaluated tr.
Definition notified_ids (tr : list event) : list Z := omap notified tr.
Definition writes (tr : list event) : list event := List.filter is_write tr.
Definition notifications (tr : list event) : list event :=
  List.filter is_notification tr.

(** An event that is neither an evaluation, nor a notification, nor a
    write of [seen.json]. *)
Definition silent (e : event) : bool :=
  match e with
  | PrintLine (LogNoTelegram _) => false
  | PrintLine _ => true
  | HttpGet _ => true
  | Sleep => true
  | _ => false
  end.

(** [w'] is [w] after the events [new], with the same seen-set and the
    same [seen.json]. *)
Definition after (w : world) (new : list event) (w' : world) : Prop :=
  SEEN w' = SEEN w /\ seen_json w' = seen_json w /\ trace w' = trace w ++ new.

(** [sorted(list(seen_ids))] *)
Definition sorted_ids (seen_ids : gset Z) : list Z :=
  merge_sort Z.le (elements seen_ids).

(** Both Telegram credentials are present. *)
Definition configured (cfg : config) : bool :=
  str_truthy (TELEGRAM_TOKEN cfg) && str_truthy (TELEGRAM_CHAT_ID cfg).

(** The listings and the console line that a reply to the search leads
    to. *)
Definition search_reply (q : str) (o : get_outcome) : list item * list event :=
  match o with
  | GetRaises e => ([], [PrintLine (LogErrSearch e)])
  | GetResponse c b =>
      if negb (c =? 200) then ([], [PrintLine (LogWarnHttp c q)])
      else
        match b with
        | BodyNotJson => ([], [PrintLine (LogErrSearch ValueError)])
        | BodyNotObject => ([], [PrintLine (LogErrSearch AttributeError)])
        | BodyObject items => (default [] items, [])
        end
  end.

(** What [send_telegram msg] adds to the trace. *)
Inductive telegram_trace (msg : message) : list event -> Prop :=
| telegram_not_configured :
    telegram_trace msg [PrintLine (LogNoTelegram msg)]
| telegram_posted :
    telegram_trace msg [HttpPost msg]
| telegram_post_failed l :
    (exists e, l = LogErrTelegram e) \/ (exists c, l = LogErrTelegramStatus c /\ 300 <= c) ->
    telegram_trace msg [HttpPost msg; PrintLine l].

(** What one round of [for it in items] does to the state. *)
Inductive item_outcome : Type :=
| Skipped
| Failed (e : exn)
| Stale (x : Z)
| Rejected (x : Z) (i : info)
| Matched (x : Z) (i : info) (tele : list event).

Definition item_step (s : search) (it : item) (sent_count : Z) (w : world)
    (r : result Z) (w' : world) (o : item_outcome) : Prop :=
  seen_json w' = seen_json w /\
  match o with
  | Skipped =>
      r = ok sent_count /\ SEEN w' = SEEN w /\ trace w' = trace w
  | Failed e =>
      r = raise e /\ SEEN w' = SEEN w /\ trace w' = trace w /\
      item_info it = raise e
  | Stale x =>
      r = ok sent_count /\ (x ∉ SEEN w) /\ SEEN w' = {[ x ]} ∪ SEEN w /\
      trace w' = trace w
  | Rejected x i =>
      r = ok sent_count /\ (x ∉ SEEN w) /\ id i = Some x /\
      SEEN w' = {[ x ]} ∪ SEEN w /\
      trace w' = trace w ++ [Evaluate s i]
  | Matched x i tele =>
      r = ok (sent_count + 1) /\ (x ∉ SEEN w) /\ id i = Some x /\
      SEEN w' = {[ x ]} ∪ SEEN w /\
      trace w' = trace w ++ Evaluate s i :: tele /\
      exists msg, msg_info msg = i /\ telegram_trace msg tele
  end.

(** The new events [new] of a piece of a run from [w] to [w'] respect the
    seen-set: an id is passed to [evaluate_item] only if it was not in
    [SEEN], it is in [SEEN] afterwards, no id is evaluated twice, and a
    notification is for an id evaluated in the same piece, once. *)
Definition respects_seen (w w' : world) (new : list event) : Prop :=
  trace w' = trace w ++ new /\
  SEEN w ⊆ SEEN w' /\
  (forall x, x ∈ evaluated_ids new -> (x ∉ SEEN w) /\ x ∈ SEEN w') /\
  NoDup (evaluated_ids new) /\
  (forall x, x ∈ notified_ids new -> x ∈ evaluated_ids new) /\
  NoDup (notified_ids new).

Definition advance (w w' : world) : Prop := exists new, respects_seen w w' new.

(** [advance], with the first clause read from the side of the seen-set:
    from [w] to [w'], no id of [SEEN w] is evaluated or notified, every
    evaluated id is in [SEEN w'], and no id is evaluated or notified
    twice. *)
Definition never_again (w w' : world) : Prop :=
  exists new,
    trace w' = trace w ++ new /\
    SEEN w ⊆ SEEN w' /\
    (forall x, x ∈ SEEN w -> (x ∉ evaluated_ids new) /\ (x ∉ notified_ids new)) /\
    (forall x, x ∈ evaluated_ids new -> x ∈ SEEN w') /\
    NoDup (evaluated_ids new) /\ NoDup (notified_ids new).

(** A computation that advances the world from every state, whatever it
    returns or raises. *)
Definition advances {A} (c : M A) : Prop := forall w, advance w (snd (c w)).

(** The part of a scan before [save_seen]: besides, [seen.json] is not
    touched, and a normal result is the counter plus the number of
    notifications. *)
Definition scan_progress (sent_count : Z) (w : world) (r : result Z) (w' : world)
  : Prop :=
  exists new,
    respects_seen w w' new /\
    seen_json w' = seen_json w /\
    writes new = [] /\
    forall sent', r = ok sent' ->
      sent' = sent_count + Z.of_nat (length (notifications new)).

End Spec.

(** ** Notions for the further properties of the code *)

Module Cover.
Import Py Bot Spec.

(** The id under which [scan_once] records a raw listing: the ["id"]
    entry, unless it is missing, null or zero. *)
Definition recorded_id (it : item) : option Z :=
  match item_id it with
  | Some x => if x =? 0 then None else Some x
  | None => None
  end.

Definition recorded_ids (items : list item) : gset Z :=
  list_to_set (omap recorded_id items).

(** The characters of a price that can reach [float]: digits, the dot,
    the comma (which becomes a dot) and the minus sign. *)
Definition significant (c : Z) : bool :=
  isdigit c || (c =? c_dot) || (c =? c_comma) || (c =? c_minus).

(** What [str.replace(",", ".")] does to one character. *)
Definition comma_to_dot (c : Z) : Z := if c =? c_comma then c_dot else c.

(** A string without its leading minus sign, and the digits that [float]
    then reads: the string without its first dot. *)
Definition unsigned (s : str) : str :=
  match s with
  | c :: s' => if c =? c_minus then s' else s
  | [] => s
  end.

Definition digits_of (body : str) : str :=
  take_while (fun c => negb (c =? c_dot)) body ++
  match drop_while (fun c => negb (c =? c_dot)) body with
  | [] => []
  | _ :: fp => fp
  end.

(** The string that [parse_float] hands to [float]. *)
Definition kept (s : str) : str :=
  List.filter (fun ch => isdigit ch || (ch =? c_dot) || (ch =? c_minus))
    (replace c_comma c_dot (strip s)).

(** The message that [scan_once] builds for the listing [i] of the
    query [s] from the verdict of [evaluate_item]. *)
Definition match_message (s : search) (i : info) (v : verdict) : message :=
  let '(_, qty, unit_price) := v in
  {| msg_name := name s; msg_info := i;
     msg_qty := if int_truthy qty then qty else None;
     msg_unit_price := unit_price |}.

(** A trace in which every notification directly follows the evaluation
    that matched its listing, and every matching evaluation is followed by
    its notification. *)
Inductive notified_matches : list event -> Prop :=
| nm_nil : notified_matches []
| nm_other e tr :
    is_notification e = false -> (forall s i, e <> Evaluate s i) ->
    notified_matches tr -> notified_matches (e :: tr)
| nm_rejected s i q u tr :
    evaluate_item s i = ok (false, q, u) ->
    notified_matches tr -> notified_matches (Evaluate s i :: tr)
| nm_matched s i q u tele tr :
    evaluate_item s i = ok (true, q, u) ->
    telegram_trace (match_message s i (true, q, u)) tele ->
    notified_matches tr -> notified_matches (Evaluate s i :: tele ++ tr).

(** The message of a notification. *)
Definition notification_message (e : event) : option message :=
  match e with
  | HttpPost m => Some m
  | PrintLine (LogNoTelegram m) => Some m
  | _ => None
  end.

(** A computation whose new events always have the shape [P]. *)
Definition emits (P : list event -> Prop) {A} (c : M A) : Prop :=
  forall w, exists new, trace (snd (c w)) = trace w ++ new /\ P new.

(** The queries of the search requests of a trace, in order. *)
Definition searched (tr : list event) : list str :=
  omap (fun e => match e with HttpGet q => Some q | _ => None end) tr.

(** The evaluations of a trace that match. *)
Definition is_match (e : event) : bool :=
  match e with
  | Evaluate s i =>
      match evaluate_item s i with
      | inr (true, _, _) => true
      | _ => false
      end
  | _ => false
  end.

(** Every search request of the trace is followed by a pause before the
    next request and before the end of the trace. [pending] tells
    whether a request is waiting for its pause. *)
Fixpoint paced (pending : bool) (tr : list event) : bool :=
  match tr with
  | [] => negb pending
  | HttpGet _ :: tr' => negb pending && paced true tr'
  | Sleep :: tr' => paced false tr'
  | _ :: tr' => paced pending tr'
  end.

Definition well_paced (tr : list event) : Prop := paced false tr = true.

(** A request to the messaging endpoint. *)
Definition is_post (e : event) : bool :=
  match e with HttpPost _ => true | _ => false end.

Definition no_post (tr : list event) : Prop :=
  Forall (fun e => is_post e = false) tr.

(** A query with one of its rules switched off or changed. *)
Definition with_min_quantity (m : option Z) (s : search) : search :=
  {| name := name s; query := query s; max_price := max_price s;
     max_unit_price := max_unit_price s; min_quantity := m |}.

Definition with_max_price (c : option float) (s : search) : search :=
  {| name := name s; query := query s; max_price := c;
     max_unit_price := max_unit_price s; min_quantity := min_quantity s |}.

Definition with_max_unit_price (c : option float) (s : search) : search :=
  {| name := name s; query := query s; max_price := max_price s;
     max_unit_price := c; min_quantity := min_quantity s |}.

(** Every search of the environment returns listings that [item_info]
    can normalise. *)
Definition listings_normalise (env : environment) : Prop :=
  forall k c items it,
    on_get env k = GetResponse c (BodyObject (Some items)) ->
    it ∈ items -> exists i, item_info it = ok i.

End Cover.

(** ** The scenario of the specification *)

Module Scenario.
Import Py Bot.

(** One query, "Pokemon bulk" of the source; no Telegram credentials. *)
Definition cfg : config :=
  {| TELEGRAM_TOKEN := []; TELEGRAM_CHAT_ID := [];
     POLL_SECONDS := 90; MAX_ITEM_AGE_MIN := 60;
     SEARCHES :=
       [ {| name := lit "Pokemon bulk"; query := lit "lot cartes pokemon";
            max_price := None; max_unit_price := Some float_0_06;
            min_quantity := Some 80 |} ] |}.

(** The same with credentials. *)
Definition cfg_telegram : config :=
  {| TELEGRAM_TOKEN := lit "1234567890:ABCdef"; TELEGRAM_CHAT_ID := lit "123456789";
     POLL_SECONDS := 90; MAX_ITEM_AGE_MIN := 60;
     SEARCHES := SEARCHES cfg |}.

(** A listing priced 2.40 with the title "lot 100 cartes pokemon",
    created at [ts]. *)
Definition listing (ts : scalar) : item :=
  {| item_id := Some 7; item_title := Some (lit "lot 100 cartes pokemon");
     item_price := PriceScalar (SStr (lit "2.40"));
     item_url := None; item_path := None; item_created_at_ts := ts |}.

(** A listing that no rule accepts. *)
Definition dear_listing : item :=
  {| item_id := Some 8; item_title := Some (lit "lot 100 cartes pokemon");
     item_price := PriceScalar (SFloat 50%float);
     item_url := None; item_path := None; item_created_at_ts := SNone |}.

(** Every search returns [items]; it is [now] seconds after the epoch;
    the messaging endpoint answers 200 and the file can be written. *)
Definition env (items : list item) (now : Z) : environment :=
  {| on_get := fun _ => GetResponse 200 (BodyObject (Some items));
     on_post := fun _ => PostResponse 200;
     on_now := fun _ => now * 1000000;
     on_write := fun _ => WriteDone;
     on_uniform := fun _ => 1%float |}.

(** Nothing works: the network raises and the disk is full. *)
Definition hostile : environment :=
  {| on_get := fun _ => GetRaises RequestException;
     on_post := fun _ => PostRaises RequestException;
     on_now := fun _ => 0;
     on_write := fun _ => WriteDumpFails OSError;
     on_uniform := fun _ => (-100)%float |}.

End Scenario.

(** * Properties *)

(** ** The Unicode tables *)

Module UnicodeFacts.
Import Py.

Lemma in_range_disjoint c r1 r2 :
  in_range c r1 = true -> disjoint r1 r2 = true -> in_range c r2 = false.
Proof.
  unfold in_range, disjoint. intros H1 H2.
  apply andb_true_iff in H1 as [Ha Hb].
  apply orb_true_iff in H2.
  apply andb_false_iff. lia.
Qed.

Lemma existsb_disjoint c r rs :
  in_range c r = true -> forallb (disjoint r) rs = true ->
  existsb (in_range c) rs = false.
Proof.
  intros Hc. induction rs as [|r' rs IH]; simpl; [reflexivity|].
  intros H. apply andb_true_iff in H as [Hd Hrs].
  rewrite (in_range_disjoint c r r' Hc Hd). simpl. auto.
Qed.

(** A decimal digit lies in one of the blocks of ten. *)
Lemma decimal_value_block c d :
  decimal_value c = Some d ->
  exists z, In z nd_zeros /\ in_range c (z, z + 9) = true /\ d = c - z.
Proof.
  unfold decimal_value.
  destruct (List.find _ nd_zeros) as [z|] eqn:Hf; [|discriminate].
  intros [= <-]. apply find_some in Hf as [Hin Hr]. eauto.
Qed.

Lemma isdecimal_block c :
  isdecimal c = true ->
  exists z, In z nd_zeros /\ in_range c (z, z + 9) = true.
Proof.
  unfold isdecimal. destruct (decimal_value c) as [d|] eqn:Hd; [|discriminate].
  intros _. apply decimal_value_block in Hd as (z & ? & ? & ?). eauto.
Qed.

(** A decimal digit is none of the characters of [rs], when no block of
    digits meets a range of [rs]. *)
Lemma isdecimal_outside rs c :
  forallb (fun z => forallb (disjoint (z, z + 9)) rs) nd_zeros = true ->
  isdecimal c = true -> existsb (in_range c) rs = false.
Proof.
  intros Hall Hc. apply isdecimal_block in Hc as (z & Hin & Hr).
  rewrite forallb_forall in Hall.
  eapply existsb_disjoint; [exact Hr|]. apply Hall. exact Hin.
Qed.

Lemma isdecimal_not_space c : isdecimal c = true -> isspace c = false.
Proof. exact (isdecimal_outside space_ranges c eq_refl). Qed.

(** A decimal digit is not a sign, a dot or an underscore. *)
Lemma isdecimal_not_punct c :
  isdecimal c = true ->
  c <> c_minus /\ c <> c_plus /\ c <> c_dot /\ c <> c_underscore.
Proof.
  intros Hc.
  pose proof (isdecimal_outside [(43, 43); (45, 46); (95, 95)] c) as H.
  specialize (H eq_refl Hc).
  unfold c_minus, c_plus, c_dot, c_underscore.
  simpl in H. unfold in_range in H. simpl in H.
  repeat (apply orb_false_iff in H as [? H]).
  repeat match goal with
         | X : (_ && _)%bool = false |- _ => apply andb_false_iff in X
         end.
  lia.
Qed.

End UnicodeFacts.

(** ** Correct rounding

    [SFdiv] and [binary_normalize] of the Standard Library's
    specification of IEEE-754 arithmetic, on which [Z_div_nearest],
    [nearest_float] and the division of floats rest, round the exact
    result to nearest. *)

Module RoundFacts.
Import Ieee.

Lemma digits2_pos_bounds p :
  2 ^ (Z.pos (digits2_pos p) - 1) <= Z.pos p < 2 ^ Z.pos (digits2_pos p).
Proof.
  induction p as [p IH|p IH|]; cbn [digits2_pos].
  - rewrite Pos2Z.inj_succ, (Pos2Z.inj_xI p).
    replace (Z.succ (Z.pos (digits2_pos p)) - 1) with (Z.succ (Z.pos (digits2_pos p) - 1)) by lia.
    rewrite !Z.pow_succ_r by lia. lia.
  - rewrite Pos2Z.inj_succ, (Pos2Z.inj_xO p).
    replace (Z.succ (Z.pos (digits2_pos p)) - 1) with (Z.succ (Z.pos (digits2_pos p) - 1)) by lia.
    rewrite !Z.pow_succ_r by lia. lia.
  - cbn. lia.
Qed.

Lemma Zdigits2_nonneg m : 0 <= Zdigits2 m.
Proof. destruct m; cbn; lia. Qed.

Lemma Zdigits2_bounds m :
  0 < m -> 2 ^ (Zdigits2 m - 1) <= m < 2 ^ Zdigits2 m.
Proof. destruct m as [|p|p]; try lia. intros _. apply digits2_pos_bounds. Qed.

Lemma Zdigits2_pos m : 0 < m -> 0 < Zdigits2 m.
Proof. destruct m; cbn; lia. Qed.

Lemma Zdigits2_le m d : 0 <= m -> 0 <= d -> m < 2 ^ d -> Zdigits2 m <= d.
Proof.
  intros Hm Hd H. destruct (Z.eq_dec m 0) as [->|Hm0]; [cbn; lia|].
  destruct (Zdigits2_bounds m ltac:(lia)) as [Hlo _].
  destruct (Z.le_gt_cases (Zdigits2 m) d) as [|Hgt]; [assumption|].
  assert (2 ^ d <= 2 ^ (Zdigits2 m - 1)) by (apply Z.pow_le_mono_r; lia). lia.
Qed.

Lemma Zdigits2_ge m d : 2 ^ (d - 1) <= m -> 1 <= d -> d <= Zdigits2 m.
Proof.
  intros H Hd.
  assert (0 < 2 ^ (d - 1)) by (apply Z.pow_pos_nonneg; lia).
  destruct (Zdigits2_bounds m ltac:(lia)) as [_ Hhi].
  destruct (Z.le_gt_cases d (Zdigits2 m)) as [|Hgt]; [assumption|].
  assert (2 ^ Zdigits2 m <= 2 ^ (d - 1)) by (apply Z.pow_le_mono_r; lia). lia.
Qed.

Lemma shr_1_div2 m r s :
  0 <= m ->
  shr_1 {| shr_m := m; shr_r := r; shr_s := s |}
  = {| shr_m := m / 2; shr_r := Z.odd m; shr_s := r || s |}.
Proof.
  intros Hm. destruct m as [|p|p]; [reflexivity| |lia].
  destruct p as [p|p|]; cbn [shr_1 Z.odd].
  - f_equal. rewrite (Pos2Z.inj_xI p).
    apply (Z.div_unique _ _ _ 1); lia.
  - f_equal. rewrite (Pos2Z.inj_xO p).
    apply (Z.div_unique _ _ _ 0); lia.
  - reflexivity.
Qed.

Lemma shr_1_located N D mrs :
  located N D mrs -> located N (2 * D) (shr_1 mrs).
Proof.
  destruct mrs as [m r s]. unfold located. cbn [shr_m shr_r shr_s].
  intros (HD & Hm & HN & Hr & Hs).
  rewrite shr_1_div2 by exact Hm. cbn [shr_m shr_r shr_s].
  pose proof (Z.div_mod m 2 ltac:(lia)) as Hdm.
  pose proof (Z.mod_pos_bound m 2 ltac:(lia)) as Hb.
  rewrite Zmod_odd in Hdm, Hb.
  set (h := m / 2) in *.
  set (u := D * h) in *.
  assert (Hu : D * m = 2 * u + D * (if Z.odd m then 1 else 0)) by (subst u; rewrite Hdm at 1; ring).
  replace (2 * D * h) with (2 * u) by (subst u; ring).
  replace (2 * D * (h + 1)) with (2 * u + 2 * D) by (subst u; ring).
  replace (D * (m + 1)) with (D * m + D) in HN by ring.
  rewrite orb_true_iff.
  assert (Hnr : r = false -> ~ D <= 2 * (N - D * m))
    by (intros -> Hx; apply Hr in Hx; discriminate).
  destruct (Z.odd m); repeat split; try lia; try discriminate;
    try (intros [Hx|Hx]; [apply Hr in Hx | apply Hs in Hx]; lia);
    try match goal with
        | H : _ \/ _ |- _ =>
            destruct H as [Hx|Hx]; [apply Hr in Hx | apply Hs in Hx]; lia
        end;
    try (intros [H1 H2]; destruct r; [auto|]; right; apply Hs;
         specialize (Hnr eq_refl); lia).
Qed.


Lemma iter_shr_1_located n :
  forall N D mrs,
    located N D mrs -> located N (2 ^ Z.pos n * D) (SpecFloat.iter_pos shr_1 n mrs).
Proof.
  induction n as [n IH|n IH|]; intros N D mrs H; cbn [SpecFloat.iter_pos].
  - apply shr_1_located in H. apply IH in H. apply IH in H.
    replace (2 ^ Z.pos n~1 * D) with (2 ^ Z.pos n * (2 ^ Z.pos n * (2 * D))); [exact H|].
    replace (Z.pos n~1) with (Z.pos n + Z.pos n + 1) by lia.
    rewrite !Z.pow_add_r by lia. ring.
  - apply IH in H. apply IH in H.
    replace (2 ^ Z.pos n~0 * D) with (2 ^ Z.pos n * (2 ^ Z.pos n * D)); [exact H|].
    replace (Z.pos n~0) with (Z.pos n + Z.pos n) by lia.
    rewrite !Z.pow_add_r by lia. ring.
  - apply shr_1_located in H. exact H.
Qed.

Lemma shr_located N D mrs e k :
  located N D mrs ->
  located N (2 ^ Z.max k 0 * D) (fst (shr mrs e k)) /\
  snd (shr mrs e k) = e + Z.max k 0.
Proof.
  intros H. destruct k as [|k|k]; cbn [shr fst snd].
  - rewrite Z.max_id, Z.pow_0_r, Z.mul_1_l, Z.add_0_r. auto.
  - rewrite Z.max_l by lia. split; [apply iter_shr_1_located, H | reflexivity].
  - rewrite Z.max_r by lia. rewrite Z.pow_0_r, Z.mul_1_l, Z.add_0_r. auto.
Qed.

Lemma shr_m_of_loc m l : shr_m (shr_record_of_loc m l) = m.
Proof. destruct l as [|[]]; reflexivity. Qed.

(** The bits of a located record, as inequalities. *)
Lemma located_bits N D mrs :
  located N D mrs ->
  (if shr_r mrs then D <= 2 * (N - D * shr_m mrs) else 2 * (N - D * shr_m mrs) < D) /\
  (if shr_s mrs then N <> D * shr_m mrs /\ 2 * (N - D * shr_m mrs) <> D
   else N = D * shr_m mrs \/ 2 * (N - D * shr_m mrs) = D).
Proof.
  intros (HD & Hm & HN & Hr & Hs). split.
  - destruct (shr_r mrs); [apply Hr; reflexivity|].
    destruct (Z.lt_ge_cases (2 * (N - D * shr_m mrs)) D) as [|Hx]; [assumption|].
    apply Hr in Hx. discriminate.
  - destruct (shr_s mrs); [apply Hs; reflexivity|].
    destruct (Z.eq_dec N (D * shr_m mrs)) as [|H1]; [auto|].
    destruct (Z.eq_dec (2 * (N - D * shr_m mrs)) D) as [|H2]; [auto|].
    assert (Hx : false = true) by (apply Hs; auto). discriminate.
Qed.

(** Rounding to nearest, ties to even. *)
Lemma round_located N D mrs :
  located N D mrs ->
  let m := shr_m mrs in
  let M := round_nearest_even m (loc_of_shr_record mrs) in
  (M = m \/ M = m + 1) /\
  2 * (D * M) - D <= 2 * N <= 2 * (D * M) + D /\
  (2 * (N - D * m) = D -> Z.even M = true).
Proof.
  intros H. pose proof (located_bits N D mrs H) as [Hr Hs].
  destruct H as (HD & Hm & HN & _ & _).
  destruct mrs as [m r s]. cbn [shr_m shr_r shr_s] in *. cbn zeta.
  replace (D * (m + 1)) with (D * m + D) in HN by ring.
  destruct r, s; cbn [loc_of_shr_record round_nearest_even].
  - replace (D * (m + 1)) with (D * m + D) by ring. repeat split; try lia; auto.
  - destruct (Z.even m) eqn:Hev.
    + repeat split; try lia; auto.
    + replace (D * (m + 1)) with (D * m + D) by ring. repeat split; try lia; auto.
      intros _. rewrite Z.even_add, Hev. reflexivity.
  - repeat split; try lia; auto.
  - repeat split; try lia; auto.
Qed.

Section Format.

Variables prec emax : Z.
Hypothesis prec_pos : 0 < prec.

Abbreviation fexp := (SpecFloat.fexp prec emax).
Abbreviation rounded := (Ieee.rounded prec emax).
Abbreviation OVF := (Ieee.OVF prec emax).
Abbreviation emin := (SpecFloat.emin prec emax).

Lemma fexp_ge_emin e : emin <= fexp e.
Proof. unfold SpecFloat.fexp. lia. Qed.

Lemma fexp_mono a b : a <= b -> fexp a <= fexp b.
Proof. unfold SpecFloat.fexp. lia. Qed.

Lemma fexp_normal e : emin < fexp e -> fexp e = e - prec.
Proof. unfold SpecFloat.fexp. lia. Qed.

(** The first shift of [binary_round_aux]: the mantissa gets at most
    [prec] digits, and exactly [prec] above the subnormal range. *)
Lemma first_shift N D mx ex lx :
  located N D (shr_record_of_loc mx lx) ->
  ex <= fexp (Zdigits2 mx + ex) ->
  let e' := fexp (Zdigits2 mx + ex) in
  let mrs' := fst (shr_fexp prec emax mx ex lx) in
  snd (shr_fexp prec emax mx ex lx) = e' /\
  located N (2 ^ (e' - ex) * D) mrs' /\
  shr_m mrs' < 2 ^ prec /\
  (emin < e' -> 2 ^ (prec - 1) <= shr_m mrs').
Proof.
  intros H Hen e' mrs'. subst mrs'. unfold shr_fexp. fold e'.
  destruct (shr_located N D (shr_record_of_loc mx lx) ex (e' - ex) H) as [H1 H2].
  rewrite Z.max_l in H1, H2 by lia.
  split; [rewrite H2; lia|]. split; [exact H1|].
  set (mrs' := fst (shr (shr_record_of_loc mx lx) ex (e' - ex))) in *.
  destruct H as (HD & Hm & HN & _). rewrite shr_m_of_loc in Hm, HN.
  destruct H1 as (HD' & Hm' & HN' & _).
  set (m' := shr_m mrs') in *. set (k := e' - ex) in *.
  assert (Hk : 0 <= k) by lia.
  assert (Hp : 0 < 2 ^ k) by (apply Z.pow_pos_nonneg; lia).
  (* 2^k m' <= mx < 2^k (m'+1) *)
  assert (Hlo : 2 ^ k * m' <= mx) by nia.
  assert (Hhi : mx < 2 ^ k * (m' + 1)) by nia.
  set (d := Zdigits2 mx) in *.
  assert (Hd : 0 <= d) by apply Zdigits2_nonneg.
  assert (Hfe : d + ex - prec <= e') by (subst e'; unfold SpecFloat.fexp; lia).
  destruct (Z.eq_dec mx 0) as [Hz|Hnz].
  - assert (m' = 0) by nia. split.
    + assert (0 < 2 ^ prec) by (apply Z.pow_pos_nonneg; lia). lia.
    + intros He. subst e'. apply fexp_normal in He.
      subst d. rewrite Hz in *. cbn [Zdigits2] in *. lia.
  - destruct (Zdigits2_bounds mx ltac:(lia)) as [Hdl Hdh]. fold d in Hdl, Hdh.
    assert (Hd1 : 1 <= d) by (subst d; pose proof (Zdigits2_pos mx); lia).
    split.
    + (* m' < 2^prec *)
      assert (Hle : 2 ^ d <= 2 ^ (k + prec)) by (apply Z.pow_le_mono_r; lia).
      rewrite Z.pow_add_r in Hle by lia.
      assert (0 < 2 ^ prec) by (apply Z.pow_pos_nonneg; lia). nia.
    + intros He. subst e'. apply fexp_normal in He.
      assert (Hkd : d - 1 = k + (prec - 1)) by lia.
      rewrite Hkd, Z.pow_add_r in Hdl by lia.
      assert (0 < 2 ^ (prec - 1)) by (apply Z.pow_pos_nonneg; lia). nia.
Qed.


Lemma Zdigits2_to_pos M : 0 < M -> Z.pos (digits2_pos (Z.to_pos M)) = Zdigits2 M.
Proof. destruct M; try lia. reflexivity. Qed.

Lemma Zdigits2_exact m d : 1 <= d -> 2 ^ (d - 1) <= m < 2 ^ d -> Zdigits2 m = d.
Proof.
  intros Hd [Hlo Hhi].
  assert (0 < 2 ^ (d - 1)) by (apply Z.pow_pos_nonneg; lia).
  apply Z.le_antisymm; [apply Zdigits2_le; lia | apply Zdigits2_ge; lia].
Qed.

Lemma binary_round_aux_rounded s N D mx ex lx :
  located N D (shr_record_of_loc mx lx) ->
  ex <= fexp (Zdigits2 mx + ex) ->
  rounded s N D ex (binary_round_aux prec emax s mx ex lx).
Proof.
  intros Hloc Hen.
  destruct (first_shift N D mx ex lx Hloc Hen) as (He' & Hloc' & Hlt & Hnorm).
  unfold binary_round_aux.
  destruct (shr_fexp prec emax mx ex lx) as [mrs' e'] eqn:E1.
  cbn [fst snd] in *.
  pose proof (round_located _ _ _ Hloc') as (HMr & Hbr & Htie). cbn zeta in *.
  set (m' := shr_m mrs') in *.
  set (Mr := round_nearest_even m' (loc_of_shr_record mrs')) in *.
  assert (Hemin : emin <= e') by (rewrite He'; apply fexp_ge_emin).
  destruct Hloc' as (HD' & Hm' & HN' & _). fold m' in Hm', HN'.
  assert (Hpp : 0 < 2 ^ (prec - 1)) by (apply Z.pow_pos_nonneg; lia).
  assert (Hp2 : 2 ^ prec = 2 * 2 ^ (prec - 1)).
  { replace prec with (Z.succ (prec - 1)) at 1 by lia. apply Z.pow_succ_r. lia. }
  assert (Hex : ex <= e') by (rewrite He'; exact Hen).
  rewrite <- He' in *. clear He'. clearbody Mr.
  destruct (Z.lt_ge_cases Mr (2 ^ prec)) as [Hsmall|Hbig].
  - (* no carry *)
    assert (Hk2 : fexp (Zdigits2 Mr + e') - e' = 0).
    { destruct (Z.eq_dec e' emin) as [Ee|Ee].
      - assert (Zdigits2 Mr <= prec) by (apply Zdigits2_le; lia).
        unfold SpecFloat.fexp. rewrite Ee.
        pose proof (Zdigits2_nonneg Mr). lia.
      - specialize (Hnorm ltac:(lia)).
        rewrite (Zdigits2_exact Mr prec) by lia.
        unfold SpecFloat.fexp. lia. }
    unfold shr_fexp. rewrite Hk2. cbn [shr shr_record_of_loc shr_m].
    exists m', Mr, e', Mr, e'.
    cbn zeta. repeat apply conj; try assumption; try lia.
    + assert (0 <= Mr) by lia.
      destruct Mr as [|p|p]; [reflexivity| |lia]. cbn [Z.eqb Z.to_pos]. reflexivity.
    + assert (0 <= Mr) by lia.
      destruct Mr as [|p|p] eqn:EM; [reflexivity| |lia]. cbn [Z.eqb].
      destruct (Z.leb_spec e' (emax - prec)); [|reflexivity].
      cbn [valid_binary]. unfold bounded, canonical_mantissa.
      change (Z.pos (digits2_pos p)) with (Zdigits2 (Z.pos p)).
      apply andb_true_iff. split; [apply Z.eqb_eq; lia | apply Z.leb_le; lia].
  - (* carry: Mr = 2 ^ prec *)
    assert (HMp : Mr = 2 ^ prec) by lia.
    assert (Hk2 : fexp (Zdigits2 Mr + e') - e' = 1).
    { rewrite (Zdigits2_exact Mr (prec + 1)).
      - unfold SpecFloat.fexp. unfold SpecFloat.emin in Hemin |- *. lia.
      - lia.
      - replace (prec + 1 - 1) with prec by lia.
        replace (prec + 1) with (Z.succ prec) by lia.
        rewrite Z.pow_succ_r by lia. lia. }
    unfold shr_fexp. rewrite Hk2. cbn [shr shr_record_of_loc SpecFloat.iter_pos].
    rewrite shr_1_div2 by lia. cbn [shr_m].
    assert (Hhalf : Mr / 2 = 2 ^ (prec - 1)).
    { rewrite HMp, Hp2. rewrite Z.mul_comm. apply Z.div_mul. lia. }
    rewrite Hhalf.
    exists m', Mr, e', (2 ^ (prec - 1)), (e' + 1).
    cbn zeta. repeat apply conj; try assumption; try lia.
    + destruct (2 ^ (prec - 1)) as [|p|p]; [lia| |lia]. reflexivity.
    + destruct (2 ^ (prec - 1)) as [|p|p] eqn:EM; [lia| |lia]. cbn [Z.eqb].
      destruct (Z.leb_spec (e' + 1) (emax - prec)); [|reflexivity].
      cbn [valid_binary]. unfold bounded, canonical_mantissa.
      change (Z.pos (digits2_pos p)) with (Zdigits2 (Z.pos p)).
      rewrite <- EM. rewrite (Zdigits2_exact (2 ^ (prec - 1)) prec) by lia.
      apply andb_true_iff. split; [apply Z.eqb_eq | apply Z.leb_le; lia].
      unfold SpecFloat.fexp. unfold SpecFloat.emin in Hemin |- *. lia.
Qed.


Lemma new_location_located D q r :
  0 < D -> 0 <= q -> 0 <= r < D ->
  located (D * q + r) D (shr_record_of_loc q (new_location D r)).
Proof.
  intros HD Hq Hr. unfold new_location, new_location_even, new_location_odd.
  assert (Hodd : Z.even D = false -> forall k, D <> 2 * k).
  { intros Hev k ->. rewrite Z.even_mul in Hev. discriminate. }
  destruct (Z.even D) eqn:Hev; destruct (Z.eqb_spec r 0) as [Hr0|Hr0];
    [ | destruct (Z.compare_spec (2 * r) D) as [Hc|Hc|Hc]
      | | destruct (Z.compare_spec (2 * r + 1) D) as [Hc|Hc|Hc] ];
    try specialize (Hodd eq_refl r);
    unfold located; cbn [shr_record_of_loc shr_m shr_r shr_s];
    replace (D * q + r - D * q) with r by ring;
    (split; [exact HD|]; split; [exact Hq|]; split; [nia|]);
    split; split; try discriminate; try reflexivity; try lia.
Qed.

Lemma Z_shiftl_pow2 a n : 0 <= n -> Z.shiftl a n = a * 2 ^ n.
Proof. intros. apply Z.shiftl_mul_pow2. assumption. Qed.

Lemma SFdiv_core_located m1 e1 m2 e2 :
  let e' := Z.min (fexp (Zdigits2 (Z.pos m1) + e1 - (Zdigits2 (Z.pos m2) + e2))) (e1 - e2) in
  exists q l,
    SFdiv_core_binary prec emax (Z.pos m1) e1 (Z.pos m2) e2 = (q, e', l) /\
    located (Z.pos m1 * 2 ^ (e1 - e2 - e')) (Z.pos m2) (shr_record_of_loc q l) /\
    e' <= fexp (Zdigits2 q + e').
Proof.
  intros e'. unfold SFdiv_core_binary. fold e'.
  set (sh := e1 - e2 - e').
  assert (Hsh : 0 <= sh) by (subst sh e'; lia).
  set (m' := match sh with
             | 0 => Z.pos m1
             | Z.pos _ => Z.shiftl (Z.pos m1) sh
             | Z.neg _ => 0
             end).
  assert (Hm' : m' = Z.pos m1 * 2 ^ sh).
  { subst m'. destruct sh as [|p|p] eqn:E; [rewrite Z.pow_0_r; ring| |lia].
    apply Z_shiftl_pow2. lia. }
  pose proof (Z_div_mod m' (Z.pos m2) ltac:(lia)) as Hdm.
  destruct (Z.div_eucl m' (Z.pos m2)) as [q r]. destruct Hdm as [Hdm Hr].
  assert (Hp : 0 < 2 ^ sh) by (apply Z.pow_pos_nonneg; lia).
  assert (Hq : 0 <= q) by nia.
  exists q, (new_location (Z.pos m2) r). split; [reflexivity|]. split.
  - rewrite <- Hm', Hdm. apply new_location_located; lia.
  - (* enough digits *)
    set (d1 := Zdigits2 (Z.pos m1)) in *. set (d2 := Zdigits2 (Z.pos m2)) in *.
    assert (Hdq : d1 + sh - d2 <= Zdigits2 q).
    { pose proof (Zdigits2_nonneg q).
      destruct (Z.le_gt_cases (d1 + sh - d2) 0) as [|Hpos]; [lia|].
      apply Zdigits2_ge; [|lia].
      destruct (Zdigits2_bounds (Z.pos m1) ltac:(lia)) as [H1 _].
      destruct (Zdigits2_bounds (Z.pos m2) ltac:(lia)) as [_ H2].
      fold d1 in H1. fold d2 in H2.
      assert (Hd2 : 0 < d2) by (apply Zdigits2_pos; lia).
      assert (Hd1 : 0 < d1) by (apply Zdigits2_pos; lia).
      (* 2^(d1-1) 2^sh <= m' = m2 q + r < m2 (q+1) <= 2^d2 (q+1) *)
      set (j := d1 + sh - d2 - 1) in *.
      assert (Hj : 0 <= j) by lia.
      assert (Hsplit : 2 ^ (d1 - 1) * 2 ^ sh = 2 ^ d2 * 2 ^ j).
      { rewrite <- !Z.pow_add_r by lia. f_equal. lia. }
      assert (Hpj : 0 < 2 ^ j) by (apply Z.pow_pos_nonneg; lia).
      assert (Hpd : 0 < 2 ^ d2) by (apply Z.pow_pos_nonneg; lia).
      assert (Hlt : 2 ^ d2 * 2 ^ j < 2 ^ d2 * (q + 1)) by nia.
      replace (d1 + sh - d2 - 1) with j by lia.
      nia. }
    apply Z.le_trans with (fexp (d1 + e1 - (d2 + e2))); [subst e'; lia|].
    apply fexp_mono. subst sh. lia.
Qed.

(** Division of two finite numbers: the quotient, correctly rounded. *)
Lemma SFdiv_rounded s1 m1 e1 s2 m2 e2 :
  let e' := Z.min (fexp (Zdigits2 (Z.pos m1) + e1 - (Zdigits2 (Z.pos m2) + e2))) (e1 - e2) in
  rounded (xorb s1 s2) (Z.pos m1 * 2 ^ (e1 - e2 - e')) (Z.pos m2) e'
    (SFdiv prec emax (S754_finite s1 m1 e1) (S754_finite s2 m2 e2)).
Proof.
  intros e'. cbn [SFdiv].
  destruct (SFdiv_core_located m1 e1 m2 e2) as (q & l & -> & Hloc & Hen).
  apply binary_round_aux_rounded; assumption.
Qed.

Lemma Pos_iter_xO m d : Z.pos (Pos.iter xO m d) = Z.pos m * 2 ^ Z.pos d.
Proof.
  induction d as [|d IH] using Pos.peano_ind.
  - cbn. lia.
  - rewrite Pos.iter_succ, Pos2Z.inj_succ, Z.pow_succ_r by lia.
    rewrite (Pos2Z.inj_xO (Pos.iter xO m d)), IH. ring.
Qed.

Lemma Zdigits2_shift m k :
  0 < m -> 0 <= k -> Zdigits2 (m * 2 ^ k) = Zdigits2 m + k.
Proof.
  intros Hm Hk. destruct (Zdigits2_bounds m Hm) as [Hlo Hhi].
  pose proof (Zdigits2_pos m Hm).
  assert (0 < 2 ^ k) by (apply Z.pow_pos_nonneg; lia).
  apply Zdigits2_exact; [lia|].
  replace (Zdigits2 m + k - 1) with (Zdigits2 m - 1 + k) by lia.
  rewrite !Z.pow_add_r by lia. nia.
Qed.

(** Rounding of an integer times a power of two. *)
Lemma binary_round_rounded s m e :
  let ez := Z.min e (fexp (Zdigits2 (Z.pos m) + e)) in
  rounded s (Z.pos m * 2 ^ (e - ez)) 1 ez (binary_round prec emax s m e).
Proof.
  intros ez. unfold binary_round, shl_align.
  change (Z.pos (digits2_pos m)) with (Zdigits2 (Z.pos m)).
  set (f := fexp (Zdigits2 (Z.pos m) + e)) in *.
  destruct (f - e) as [|d|d] eqn:Ed.
  - assert (Hez : ez = e) by (subst ez; lia). rewrite Hez.
    rewrite Z.sub_diag, Z.pow_0_r, Z.mul_1_r.
    apply binary_round_aux_rounded.
    + replace (Z.pos m) with (1 * Z.pos m + 0) at 1 by ring.
      apply (new_location_located 1 (Z.pos m) 0); lia.
    + fold f. lia.
  - assert (Hez : ez = e) by (subst ez; lia). rewrite Hez.
    rewrite Z.sub_diag, Z.pow_0_r, Z.mul_1_r.
    apply binary_round_aux_rounded.
    + replace (Z.pos m) with (1 * Z.pos m + 0) at 1 by ring.
      apply (new_location_located 1 (Z.pos m) 0); lia.
    + fold f. lia.
  - assert (Hez : ez = f) by (subst ez; lia). rewrite Hez.
    assert (Hd : e - f = Z.pos d) by lia. rewrite Hd, <- Pos_iter_xO.
    apply binary_round_aux_rounded.
    + replace (Z.pos (Pos.iter xO m d)) with (1 * Z.pos (Pos.iter xO m d) + 0) at 1 by ring.
      apply (new_location_located 1 _ 0); lia.
    + rewrite Pos_iter_xO, Zdigits2_shift by lia.
      replace (Zdigits2 (Z.pos m) + Z.pos d + f) with (Zdigits2 (Z.pos m) + e) by lia.
      fold f. lia.
Qed.


Hypothesis prec_lt_emax : prec < emax.

Lemma pow2_add a b : 0 <= a -> 0 <= b -> 2 ^ (a + b) = 2 ^ a * 2 ^ b.
Proof. intros. apply Z.pow_add_r; assumption. Qed.

Lemma pow2_pos a : 0 <= a -> 0 < 2 ^ a.
Proof. intros. apply Z.pow_pos_nonneg; lia. Qed.

Lemma pow2_le a b : 0 <= a <= b -> 2 ^ a <= 2 ^ b.
Proof. intros. apply Z.pow_le_mono_r; lia. Qed.

Lemma even_pred_pow2 : Z.even (2 ^ prec - 1) = false.
Proof.
  replace prec with (Z.succ (prec - 1)) by lia.
  rewrite Z.pow_succ_r by lia.
  replace (2 * 2 ^ (prec - 1) - 1) with (1 + 2 * (2 ^ (prec - 1) - 1)) by ring.
  rewrite Z.even_add_mul_2. reflexivity.
Qed.

(** A number of at least [OVF] rounds to an infinity, a smaller number
    to a zero or a finite number. *)
Lemma rounded_overflow s n D ex R :
  0 < D -> 0 <= n -> ex <= 0 ->
  rounded s (n * 2 ^ (- ex)) D ex R ->
  (OVF * D <= n -> R = S754_infinity s) /\
  (n < OVF * D -> SF_finite R = true).
Proof.
  intros HD Hn Hex0
    (m' & Mr & e' & M & E & Hex & Hemin & (Hfl & Hbr & Htie) & Hm' & Hnorm
       & HMr & Hcarry & -> & _).
  cbn zeta in *.
  set (A := 2 ^ (- ex)) in *.
  set (B := 2 ^ (e' - ex)) in *.
  set (P := 2 ^ (emax - prec - 1)).
  set (U := 2 ^ prec) in *.
  assert (HA : 0 < A) by (apply pow2_pos; lia).
  assert (HB : 0 < B) by (apply pow2_pos; lia).
  assert (HP : 0 < P) by (apply pow2_pos; lia).
  assert (HU : 2 ^ prec = 2 * 2 ^ (prec - 1)).
  { replace prec with (Z.succ (prec - 1)) at 1 by lia. apply Z.pow_succ_r. lia. }
  assert (HU1 : 0 < 2 ^ (prec - 1)) by (apply pow2_pos; lia).
  fold U in HU.
  assert (HOVF : OVF = (2 * U - 1) * P) by reflexivity.
  assert (Hemin' : emin < emax - prec) by (unfold SpecFloat.emin; lia).
  assert (H2P : 2 ^ (emax - prec) = 2 * P).
  { subst P. replace (emax - prec) with (Z.succ (emax - prec - 1)) at 1 by lia.
    apply Z.pow_succ_r. lia. }
  assert (H4P : 2 ^ (emax - prec + 1) = 4 * P).
  { replace (emax - prec + 1) with (Z.succ (emax - prec)) by lia.
    rewrite Z.pow_succ_r, H2P by lia. ring. }
  set (X := P * A * D).
  set (BD := B * D) in *.
  set (nA := n * A) in *.
  assert (HX : 0 < X) by (subst X; nia).
  assert (HBD : 0 < BD) by (subst BD; nia).
  (* BD against X, by the position of e' *)
  assert (HBle : forall j c, 0 <= j -> 2 ^ j = c * P -> e' <= j -> BD <= c * X).
  { intros j c Hj Hc Hle. subst BD X.
    assert (B <= 2 ^ j * A)
      by (subst A B; rewrite <- pow2_add by lia; apply pow2_le; lia).
    rewrite Hc in *. nia. }
  assert (HBge : forall j c, 0 <= j -> 2 ^ j = c * P -> j <= e' -> c * X <= BD).
  { intros j c Hj Hc Hle. subst BD X.
    assert (2 ^ j * A <= B)
      by (subst A B; rewrite <- pow2_add by lia; apply pow2_le; lia).
    rewrite Hc in *. nia. }
  assert (H1P : 2 ^ (emax - prec - 1) = 1 * P) by (subst P; ring).
  assert (Hov1 : OVF * D <= n -> (2 * U - 1) * X <= nA).
  { intros H. rewrite HOVF in H. subst X nA. nia. }
  assert (Hov2 : n < OVF * D -> nA < (2 * U - 1) * X).
  { intros H. rewrite HOVF in H. subst X nA. nia. }
  split.
  - intros Hovf. apply Hov1 in Hovf.
    destruct Hcarry as [(Hlt & -> & ->)|(HMU & -> & ->)].
    + (* no carry *)
      destruct (Z.le_gt_cases e' (emax - prec)) as [Hle|Hgt].
      * exfalso.
        pose proof (HBle (emax - prec) 2 ltac:(lia) H2P Hle) as HB1.
        assert (HMrU : Mr = U - 1).
        { destruct (Z.eq_dec Mr (U - 1)) as [|Hne]; [assumption|]. exfalso.
          assert (Hx : (2 * Mr + 1) * BD <= (2 * U - 3) * BD)
            by (apply Z.mul_le_mono_nonneg_r; lia).
          assert (Hy : (2 * U - 3) * BD <= (2 * U - 3) * (2 * X))
            by (apply Z.mul_le_mono_nonneg_l; lia).
          lia. }
        assert (HBeq : BD = 2 * X).
        { destruct (Z.eq_dec e' (emax - prec)) as [He|Hne].
          - pose proof (HBge (emax - prec) 2 ltac:(lia) H2P ltac:(lia)). lia.
          - exfalso.
            pose proof (HBle (emax - prec - 1) 1 ltac:(lia) H1P ltac:(lia)) as HB2.
            assert (Hx : (2 * Mr + 1) * BD <= (2 * U - 1) * BD)
              by (apply Z.mul_le_mono_nonneg_r; lia).
            assert (Hy : (2 * U - 1) * BD <= (2 * U - 1) * (1 * X))
              by (apply Z.mul_le_mono_nonneg_l; lia).
            lia. }
        subst Mr. rewrite HBeq in *.
        assert (Hm : m' = U - 1) by (destruct HMr as [|]; [lia|nia]).
        rewrite Hm in Htie. specialize (Htie ltac:(lia)).
        unfold U in Htie. rewrite even_pred_pow2 in Htie. discriminate.
      * assert (HMp : 0 < Mr) by (specialize (Hnorm ltac:(lia)); lia).
        destruct (Z.eqb_spec Mr 0); [lia|].
        destruct (Z.leb_spec e' (emax - prec)); [lia | reflexivity].
    + (* carry *)
      destruct (Z.eqb_spec (2 ^ (prec - 1)) 0); [lia|].
      destruct (Z.leb_spec (e' + 1) (emax - prec)) as [Hle|]; [|reflexivity].
      exfalso.
      pose proof (HBle (emax - prec - 1) 1 ltac:(lia) H1P ltac:(lia)) as HB2.
      rewrite HMU in Hbr.
      assert (Hy : (2 * U + 1) * BD <= (2 * U + 1) * (1 * X))
        by (apply Z.mul_le_mono_nonneg_l; lia).
      assert (0 < (2 * U - 3) * X) by (apply Z.mul_pos_pos; lia).
      lia.
  - intros Hovf. apply Hov2 in Hovf.
    destruct (Z.eqb_spec M 0); [reflexivity|].
    destruct (Z.leb_spec E (emax - prec)) as [|Hgt]; [reflexivity|]. exfalso.
    destruct Hcarry as [(Hlt & -> & ->)|(HMU & -> & ->)].
    + specialize (Hnorm ltac:(lia)).
      pose proof (HBge (emax - prec + 1) 4 ltac:(lia) H4P ltac:(lia)) as HB1.
      assert (Hy : (4 * X) * 2 ^ (prec - 1) <= BD * m')
        by (apply Z.mul_le_mono_nonneg; lia).
      lia.
    + pose proof (HBge (emax - prec) 2 ltac:(lia) H2P ltac:(lia)) as HB1.
      rewrite HMU in Hbr.
      assert (Hy : (2 * U - 1) * (2 * X) <= (2 * U - 1) * BD)
        by (apply Z.mul_le_mono_nonneg_l; lia).
      lia.
Qed.

(** Above the subnormal range the rounded number has [prec] digits and
    is within half a unit in the last place of the number. *)
Lemma rounded_normal s N D ex R :
  0 < D -> emin < ex ->
  rounded s N D ex R ->
  SpecFloat.valid_binary prec emax R = true /\
  (R = S754_infinity s \/
   exists M E,
     R = S754_finite s (Z.to_pos M) E /\
     2 ^ (prec - 1) <= M < 2 ^ prec /\ ex <= E /\
     (2 * M - 1) * (2 ^ (E - ex) * D) <= 2 * N <= (2 * M + 1) * (2 ^ (E - ex) * D)).
Proof.
  intros HD Hemin
    (m' & Mr & e' & M & E & Hex & _ & (Hfl & Hbr & Htie) & Hm' & Hnorm
       & HMr & Hcarry & -> & Hv).
  split; [exact Hv|]. cbn zeta in *.
  specialize (Hnorm ltac:(lia)).
  assert (HU1 : 0 < 2 ^ (prec - 1)) by (apply pow2_pos; lia).
  assert (HU : 2 ^ prec = 2 * 2 ^ (prec - 1)).
  { replace prec with (Z.succ (prec - 1)) at 1 by lia. apply Z.pow_succ_r. lia. }
  set (B := 2 ^ (e' - ex)) in *.
  assert (HB : 0 < B) by (apply pow2_pos; lia).
  destruct Hcarry as [(Hlt & -> & ->)|(HMU & -> & ->)].
  - destruct (Z.eqb_spec Mr 0); [lia|].
    destruct (Z.leb_spec e' (emax - prec)); [|left; reflexivity].
    right. exists Mr, e'. fold B.
    repeat apply conj; try reflexivity; try lia.
  - destruct (Z.eqb_spec (2 ^ (prec - 1)) 0); [lia|].
    destruct (Z.leb_spec (e' + 1) (emax - prec)); [|left; reflexivity].
    right. exists (2 ^ (prec - 1)), (e' + 1).
    replace (e' + 1 - ex) with (Z.succ (e' - ex)) by lia.
    rewrite Z.pow_succ_r by lia. fold B.
    repeat apply conj; try reflexivity; try lia; nia.
Qed.

End Format.

End RoundFacts.

(** ** Binary64 *)

Module FloatFacts.
Import Py Ieee RoundFacts.

Lemma prec_positive : 0 < prec.
Proof. reflexivity. Qed.

Lemma prec_below_emax : prec < emax.
Proof. reflexivity. Qed.

Lemma OVF_binary64 : OVF prec emax = FLOAT_LIMIT.
Proof. vm_compute. reflexivity. Qed.

(** *** The tests of [PrimFloat] on the specification side *)

Lemma SFeqb_same R :
  SFeqb R R = match R with S754_nan => false | _ => true end.
Proof.
  unfold SFeqb. destruct R as [s|s| |s m e]; cbn [SFcompare];
    try (destruct s; reflexivity); try reflexivity.
  rewrite Z.compare_refl, Pos.compare_cont_refl. destruct s; reflexivity.
Qed.

Lemma is_nan_Prim2SF f :
  is_nan f = match Prim2SF f with S754_nan => true | _ => false end.
Proof.
  unfold is_nan. rewrite FloatAxioms.eqb_spec, SFeqb_same.
  destruct (Prim2SF f); reflexivity.
Qed.

Lemma Prim2SF_infinity : Prim2SF infinity = S754_infinity false.
Proof. reflexivity. Qed.

Lemma is_infinity_Prim2SF f :
  is_infinity f = match Prim2SF f with S754_infinity _ => true | _ => false end.
Proof.
  unfold is_infinity. rewrite FloatAxioms.eqb_spec, FloatAxioms.abs_spec, Prim2SF_infinity.
  destruct (Prim2SF f) as [s|s| |s m e]; reflexivity.
Qed.

Lemma is_finite_Prim2SF f : is_finite f = SF_finite (Prim2SF f).
Proof.
  unfold is_finite. rewrite is_nan_Prim2SF, is_infinity_Prim2SF.
  destruct (Prim2SF f); reflexivity.
Qed.

Lemma is_finite_SF2Prim R :
  valid_binary R = true -> is_finite (SF2Prim R) = SF_finite R.
Proof. intros H. rewrite is_finite_Prim2SF, Prim2SF_SF2Prim by exact H. reflexivity. Qed.

Lemma is_infinity_SF2Prim R :
  valid_binary R = true ->
  is_infinity (SF2Prim R) = match R with S754_infinity _ => true | _ => false end.
Proof. intros H. rewrite is_infinity_Prim2SF, Prim2SF_SF2Prim by exact H. reflexivity. Qed.

Lemma rounded_valid s N D ex R : rounded prec emax s N D ex R -> valid_binary R = true.
Proof.
  intros (m' & Mr & e' & M & E & _ & _ & _ & _ & _ & _ & _ & _ & H). exact H.
Qed.

(** *** [Z_div_nearest] and [nearest_float] *)

Lemma Z_div_nearest_rounded p q :
  let ex := Z.min (fexp prec emax (Zdigits2 (Z.pos p) - Zdigits2 (Z.pos q))) 0 in
  rounded prec emax false (Z.pos p * 2 ^ (- ex)) (Z.pos q) ex
    (SF64div (S754_finite false p 0) (S754_finite false q 0)).
Proof.
  intros ex.
  pose proof (SFdiv_rounded prec emax prec_positive false p 0 false q 0) as H.
  cbn zeta in H. rewrite !Z.add_0_r in H.
  change (0 - 0) with 0 in H. fold ex in H.
  replace (0 - ex) with (- ex) in H by lia. exact H.
Qed.

(** A quotient below [FLOAT_LIMIT] is rounded to a finite float, another
    one to the infinity. *)
Lemma Z_div_nearest_range n d :
  0 <= n -> 0 < d ->
  (n < FLOAT_LIMIT * d -> is_finite (Z_div_nearest n d) = true) /\
  (FLOAT_LIMIT * d <= n -> Z_div_nearest n d = infinity).
Proof.
  intros Hn Hd. destruct d as [|q|q]; try lia.
  destruct n as [|p|p]; try lia.
  - split; [reflexivity|].
    assert (0 < FLOAT_LIMIT) by reflexivity. intros. nia.
  - unfold Z_div_nearest.
    pose proof (Z_div_nearest_rounded p q) as Hr. cbn zeta in Hr.
    pose proof (rounded_valid _ _ _ _ _ Hr) as Hv.
    apply (rounded_overflow prec emax prec_positive prec_below_emax) in Hr;
      [|lia|lia|lia].
    rewrite OVF_binary64 in Hr. destruct Hr as [Hinf Hfin]. split.
    + intros H. rewrite is_finite_SF2Prim by exact Hv. apply Hfin, H.
    + intros H. rewrite (Hinf H). reflexivity.
Qed.

Lemma binary_normalize_rounded s m :
  let ez := Z.min 0 (fexp prec emax (Zdigits2 (Z.pos m))) in
  rounded prec emax s (Z.pos m * 2 ^ (- ez)) 1 ez (binary_round prec emax s m 0).
Proof.
  intros ez.
  pose proof (binary_round_rounded prec emax prec_positive s m 0) as H.
  cbn zeta in H. rewrite Z.add_0_r in H. fold ez in H.
  replace (0 - ez) with (- ez) in H by lia. exact H.
Qed.

(** [float(n)] is finite below [FLOAT_LIMIT] in absolute value, and an
    infinity from there on. *)
Lemma nearest_float_range n :
  (Z.abs n < FLOAT_LIMIT ->
   is_finite (nearest_float n) = true /\ is_infinity (nearest_float n) = false) /\
  (FLOAT_LIMIT <= Z.abs n -> is_infinity (nearest_float n) = true).
Proof.
  unfold nearest_float, binary_normalize.
  destruct n as [|m|m].
  - split; [intros _; split; reflexivity|].
    assert (0 < FLOAT_LIMIT) by reflexivity. cbn. lia.
  - pose proof (binary_normalize_rounded false m) as Hr. cbn zeta in Hr.
    pose proof (rounded_valid _ _ _ _ _ Hr) as Hv.
    apply (rounded_overflow prec emax prec_positive prec_below_emax) in Hr;
      [|lia|lia|lia].
    rewrite OVF_binary64, Z.mul_1_r in Hr. destruct Hr as [Hinf Hfin].
    rewrite is_finite_SF2Prim, is_infinity_SF2Prim by exact Hv.
    cbn [Z.abs]. split.
    + intros H. specialize (Hfin H).
      destruct (binary_round prec emax false m 0); try discriminate; auto.
    + intros H. rewrite (Hinf H). reflexivity.
  - pose proof (binary_normalize_rounded true m) as Hr. cbn zeta in Hr.
    pose proof (rounded_valid _ _ _ _ _ Hr) as Hv.
    apply (rounded_overflow prec emax prec_positive prec_below_emax) in Hr;
      [|lia|lia|lia].
    rewrite OVF_binary64, Z.mul_1_r in Hr. destruct Hr as [Hinf Hfin].
    rewrite is_finite_SF2Prim, is_infinity_SF2Prim by exact Hv.
    cbn [Z.abs]. split.
    + intros H. specialize (Hfin H).
      destruct (binary_round prec emax true m 0); try discriminate; auto.
    + intros H. rewrite (Hinf H). reflexivity.
Qed.

(** [float(n)] raises exactly from [FLOAT_LIMIT] on. *)
Lemma float_of_int_range n :
  (Z.abs n < FLOAT_LIMIT ->
   float_of_int n = ok (nearest_float n) /\ is_finite (nearest_float n) = true) /\
  (FLOAT_LIMIT <= Z.abs n -> float_of_int n = raise OverflowError).
Proof.
  destruct (nearest_float_range n) as [Hfin Hinf]. unfold float_of_int. split.
  - intros H. destruct (Hfin H) as [H1 H2]. rewrite H2. auto.
  - intros H. rewrite (Hinf H). reflexivity.
Qed.

End FloatFacts.

(** ** The age of a listing *)

Module AgeFacts.
Import Py Bot Ieee RoundFacts FloatFacts.

(** The two roundings of [is_recent], of the seconds and of the minutes,
    lose less than the microsecond by which a listing is older than a
    maximum of at most 75 000 000 minutes. [M1] and [M2] are the
    mantissas of the seconds and of the minutes; [A], [B] and [T] are
    powers of two. *)
Lemma age_arith p MAX M1 M2 A B T :
  0 <= MAX <= 75000000 -> MAX * 60000000 < p ->
  2 ^ 52 <= M1 -> 2 ^ 52 <= M2 -> 0 < A -> 0 < B -> 0 < T ->
  2 * (p * A) <= (2 * M1 + 1) * (B * 1000000) ->
  2 * (M1 * 2 ^ 53) <= (2 * M2 + 1) * (T * 8444249301319680) ->
  MAX * (A * 64) < M2 * (B * T).
Proof.
  intros HMAX Hp HM1 HM2 HA HB HT H1 H2.
  change (2 ^ 52) with 4503599627370496 in *.
  change (2 ^ 53) with 9007199254740992 in *.
  destruct (Z.lt_ge_cases (MAX * (A * 64)) (M2 * (B * T))) as [|Hneg];
    [assumption|exfalso].
  set (W := M2 * T).
  assert (HW : 4503599627370496 * T <= W)
    by (subst W; apply Z.mul_le_mono_nonneg_r; lia).
  assert (HI : 128 * M1 <= 60 * (2 * W + T)) by (subst W; nia).
  set (Y := M1 * B).
  assert (HY : 4503599627370496 * B <= Y)
    by (subst Y; apply Z.mul_le_mono_nonneg_r; lia).
  set (PA := p * A) in *.
  assert (HII : 2 * PA <= 1000000 * (2 * Y + B)) by (subst Y; nia).
  set (Z0 := W * B).
  assert (HZ0 : Z0 = M2 * (B * T)) by (subst Z0 W; ring).
  assert (HIB : 128 * Y <= 60 * (2 * Z0 + T * B)).
  { subst Y Z0.
    replace (60 * (2 * (W * B) + T * B)) with (60 * (2 * W + T) * B) by ring.
    replace (128 * (M1 * B)) with (128 * M1 * B) by ring.
    apply Z.mul_le_mono_nonneg_r; lia. }
  assert (HTB : 4503599627370496 * (T * B) <= Z0).
  { subst Z0. replace (4503599627370496 * (T * B)) with (4503599627370496 * T * B) by ring.
    apply Z.mul_le_mono_nonneg_r; lia. }
  set (MA := MAX * A).
  assert (HMA : 0 <= MA <= 75000000 * A) by (subst MA; nia).
  assert (HPA : 60000000 * MA + A <= PA).
  { subst MA PA. replace (60000000 * (MAX * A) + A) with ((MAX * 60000000 + 1) * A) by ring.
    apply Z.mul_le_mono_nonneg_r; lia. }
  assert (HZ : Z0 <= 64 * MA) by (subst MA; lia).
  clearbody W Y PA Z0 MA.
  lia.
Qed.

Lemma Prim2SF_sixty : Prim2SF 60%float = S754_finite false 8444249301319680 (-47).
Proof. reflexivity. Qed.

(** A listing older than the maximum age is not recent, for a maximum
    between 0 and 75 000 000 minutes: the age in minutes that [is_recent]
    computes in binary64 is then above the maximum. *)
Lemma is_recent_at_older max_age now c :
  0 <= max_age <= 75000000 ->
  max_age * 60000000 < now - c * 1000000 ->
  is_recent_at max_age now (Some c) = ok false.
Proof.
  intros Hmax Hage.
  unfold is_recent_at, total_seconds, float_truediv.
  replace (PrimFloat.eqb 60 0) with false by reflexivity.
  cbn [rbind ok]. unfold ok. f_equal.
  destruct (now - c * 1000000) as [|p|p] eqn:Eage; try lia.
  unfold Z_div_nearest.
  pose proof (Z_div_nearest_rounded p 1000000) as Hr1. cbn zeta in Hr1.
  replace (Zdigits2 (Z.pos 1000000)) with 20 in Hr1 by reflexivity.
  set (ex1 := Z.min (fexp prec emax (Zdigits2 (Z.pos p) - 20)) 0) in *.
  pose proof (Zdigits2_pos (Z.pos p) ltac:(lia)) as Hd1.
  assert (Hex1 : -73 < ex1 <= 0).
  { subst ex1. unfold fexp, SpecFloat.emin, prec, emax. lia. }
  apply (rounded_normal prec emax prec_positive) in Hr1;
    [|lia|unfold SpecFloat.emin, prec, emax; lia].
  destruct Hr1 as [Hv1 Hr1].
  unfold float_le_int.
  rewrite FloatAxioms.div_spec, Prim2SF_SF2Prim, Prim2SF_sixty by exact Hv1.
  destruct Hr1 as [->|(M1 & E1 & -> & HM1 & HE1 & Hb1)]; [reflexivity|].
  change (2 ^ (prec - 1)) with (2 ^ 52) in HM1. change (2 ^ prec) with (2 ^ 53) in HM1.
  pose proof (SFdiv_rounded prec emax prec_positive
                false (Z.to_pos M1) E1 false 8444249301319680 (-47)) as Hr2.
  cbn zeta in Hr2.
  assert (H52 : 0 < 2 ^ 52) by reflexivity.
  rewrite Z2Pos.id in Hr2 by lia.
  rewrite (Zdigits2_exact M1 53) in Hr2 by (change (53 - 1) with 52; lia).
  replace (Zdigits2 (Z.pos 8444249301319680)) with 53 in Hr2 by reflexivity.
  set (e2 := Z.min (fexp prec emax (53 + E1 - (53 + -47))) (E1 - -47)) in *.
  assert (He2 : e2 = E1 - 6).
  { subst e2. unfold fexp, SpecFloat.emin, prec, emax. lia. }
  rewrite He2 in Hr2. clear e2 He2.
  replace (E1 - -47 - (E1 - 6)) with 53 in Hr2 by lia.
  apply (rounded_normal prec emax prec_positive) in Hr2;
    [|lia|unfold SpecFloat.emin, prec, emax; lia].
  destruct Hr2 as [_ Hr2]. unfold Py.SF64div, FloatAxioms.SF64div.
  destruct Hr2 as [->|(M2 & E2 & -> & HM2 & HE2 & Hb2)]; [reflexivity|].
  change (2 ^ (prec - 1)) with (2 ^ 52) in HM2. change (2 ^ prec) with (2 ^ 53) in HM2.
  cbn [xorb]. rewrite Z2Pos.id by lia.
  (* the bounds, with the powers of two as numbers *)
  set (a := - ex1) in *. set (b := E1 - ex1) in *. set (t := E2 - (E1 - 6)) in *.
  assert (Ha : 0 <= a) by lia. assert (Hb : 0 <= b) by lia. assert (Ht : 0 <= t) by lia.
  pose proof (age_arith (Z.pos p) max_age M1 M2 (2 ^ a) (2 ^ b) (2 ^ t)
                Hmax ltac:(lia) ltac:(lia) ltac:(lia)
                (pow2_pos a Ha) (pow2_pos b Hb) (pow2_pos t Ht)
                (proj2 Hb1) (proj2 Hb2)) as Hlt.
  change 64 with (2 ^ 6) in Hlt. rewrite <- !pow2_add in Hlt by lia.
  destruct (Z.leb_spec 0 E2) as [Hpos|Hneg].
  - apply Z.leb_gt.
    replace (b + t) with (E2 + (a + 6)) in Hlt by lia.
    rewrite pow2_add in Hlt by lia.
    assert (0 < 2 ^ (a + 6)) by (apply pow2_pos; lia).
    assert (0 < 2 ^ E2) by (apply pow2_pos; lia). nia.
  - apply Z.leb_gt.
    replace (a + 6) with (b + t + - E2) in Hlt by lia.
    rewrite (pow2_add (b + t)) in Hlt by lia.
    assert (0 < 2 ^ (b + t)) by (apply pow2_pos; lia).
    assert (0 < 2 ^ (- E2)) by (apply pow2_pos; lia). nia.
Qed.

End AgeFacts.

(** ** The quantity read from a title *)

Module QuantityFacts.
Import Py Bot Spec UnicodeFacts.

Lemma replace_same c s : replace c c s = s.
Proof.
  unfold replace. induction s as [|x s IH]; simpl; [reflexivity|].
  rewrite IH. destruct (Z.eqb_spec x c); congruence.
Qed.

Lemma match_digits_firstn k s :
  match_digits k s = firstn k (take_while isdecimal s).
Proof.
  revert s. induction k as [|k IH]; intros [|c s]; simpl; try reflexivity.
  destruct (isdecimal c); simpl; [rewrite IH|]; reflexivity.
Qed.

Lemma num_re_match_cons c s :
  num_re_match (c :: s) =
  if isdecimal c then Some (firstn 5 (take_while isdecimal (c :: s))) else None.
Proof.
  unfold num_re_match. rewrite match_digits_firstn. cbn [take_while].
  destruct (isdecimal c); reflexivity.
Qed.

(** The search of the regular expression finds the first digit run. *)
Lemma num_re_search_first_run s : num_re_search s = first_digit_run s.
Proof.
  unfold first_digit_run.
  induction s as [|c s IH]; [reflexivity|].
  change (num_re_search (c :: s))
    with (match num_re_match (c :: s) with
          | Some g => Some g
          | None => num_re_search s
          end).
  rewrite num_re_match_cons. cbn [drop_while].
  destruct (isdecimal c) eqn:Hc; cbn [negb]; [reflexivity | exact IH].
Qed.

Lemma take_while_all_decimal s : all_decimal (take_while isdecimal s).
Proof.
  induction s as [|c s IH]; simpl; [constructor|].
  destruct (isdecimal c) eqn:Hc; constructor; assumption.
Qed.

Lemma drop_while_split {A} (p : A -> bool) l :
  l = take_while p l ++ drop_while p l.
Proof.
  induction l as [|x l IH]; simpl; [reflexivity|].
  destruct (p x); simpl; congruence.
Qed.

Lemma take_while_negb_no_decimal s :
  no_decimal (take_while (fun c => negb (isdecimal c)) s).
Proof.
  induction s as [|c s IH]; simpl; [constructor|].
  destruct (isdecimal c) eqn:Hc; simpl; constructor; assumption.
Qed.

Lemma drop_while_negb_head s c r :
  drop_while (fun c => negb (isdecimal c)) s = c :: r -> isdecimal c = true.
Proof.
  induction s as [|x s IH]; simpl; [discriminate|].
  destruct (isdecimal x) eqn:Hx; simpl; [|exact IH].
  intros [= <- _]. exact Hx.
Qed.

Lemma firstn_take_while_rest k s :
  let run := firstn k (take_while isdecimal s) in
  exists rest, s = run ++ rest /\
    (length run = k \/ match rest with [] => True | c :: _ => isdecimal c = false end).
Proof.
  revert s. induction k as [|k IH]; intros s; simpl.
  - exists s. split; [reflexivity | left; reflexivity].
  - destruct s as [|c s]; simpl.
    + exists []. split; [reflexivity | right; exact I].
    + destruct (isdecimal c) eqn:Hc; simpl.
      * destruct (IH s) as (rest & Hs & Hr). exists rest. split.
        -- f_equal. exact Hs.
        -- destruct Hr as [Hl|Hr]; [left; f_equal; exact Hl | right; exact Hr].
      * exists (c :: s). split; [reflexivity | right; exact Hc].
Qed.

(** What [first_digit_run] returns is what its name says: the text is
    non-digits, then the run, then the rest; the run is one to five
    decimal digits, and it stops at five digits or at a non-digit. *)
Lemma first_digit_run_Some text run :
  first_digit_run text = Some run ->
  exists before rest,
    text = before ++ run ++ rest /\ no_decimal before /\ all_decimal run /\
    (1 <= length run <= 5)%nat /\
    (length run = 5%nat \/
     match rest with [] => True | c :: _ => isdecimal c = false end).
Proof.
  unfold first_digit_run.
  destruct (drop_while _ text) as [|c r] eqn:Hd; [discriminate|].
  pose proof (drop_while_negb_head _ _ _ Hd) as Hc.
  destruct (firstn_take_while_rest 5 (c :: r)) as (rest & Hs & Hr).
  assert (Hlen : (1 <= length (firstn 5 (take_while isdecimal (c :: r))) <= 5)%nat).
  { split; [cbn [take_while]; rewrite Hc; simpl; lia|].
    rewrite length_firstn. lia. }
  pose proof (Forall_take _ 5 _ (take_while_all_decimal (c :: r))) as Hall.
  revert Hs Hr Hlen Hall.
  generalize (firstn 5 (take_while isdecimal (c :: r))). intros run' Hs Hr Hlen Hall.
  intros [= <-].
  exists (take_while (fun c => negb (isdecimal c)) text), rest.
  split; [|split; [|split; [|split]]]; try assumption.
  - rewrite <- Hs, <- Hd. apply drop_while_split.
  - apply take_while_negb_no_decimal.
Qed.

Lemma first_digit_run_None text :
  first_digit_run text = None <-> no_decimal text.
Proof.
  unfold first_digit_run, no_decimal. induction text as [|c s IH]; simpl.
  - split; [constructor | reflexivity].
  - destruct (isdecimal c) eqn:Hc; simpl.
    + split; [discriminate|]. intros H. inversion H; congruence.
    + rewrite IH. split; [constructor; assumption|]. intros H. inversion H; assumption.
Qed.

Lemma drop_while_head_false {A} (p : A -> bool) x l :
  p x = false -> drop_while p (x :: l) = x :: l.
Proof. simpl. intros ->. reflexivity. Qed.

Lemma drop_while_isspace_decimal s :
  all_decimal s -> drop_while isspace s = s.
Proof.
  intros [|c s' Hc _]; [reflexivity|].
  apply drop_while_head_false, isdecimal_not_space, Hc.
Qed.

Lemma strip_decimal s : all_decimal s -> strip s = s.
Proof.
  intros H. unfold strip.
  rewrite (drop_while_isspace_decimal s H).
  rewrite drop_while_isspace_decimal; [apply rev_involutive|].
  apply Forall_rev, H.
Qed.

(** The blanks of [int] are spaces of [str.isspace]. *)
Lemma int_blank_isspace c : int_blank c = true -> isspace c = true.
Proof.
  unfold int_blank. intros H.
  apply orb_true_iff in H as [H|H]; [apply orb_true_iff in H as [H|H]|].
  - unfold isspace, space_ranges. cbn [existsb]. rewrite H. reflexivity.
  - apply Z.eqb_eq in H as ->. reflexivity.
  - apply andb_true_iff in H as [_ H]. exact H.
Qed.

Lemma drop_while_int_blank_decimal s :
  all_decimal s -> drop_while int_blank s = s.
Proof.
  intros [|c s' Hc _]; [reflexivity|].
  apply drop_while_head_false.
  destruct (int_blank c) eqn:E; [|reflexivity].
  apply int_blank_isspace in E.
  rewrite (isdecimal_not_space c Hc) in E. discriminate.
Qed.

Lemma int_strip_decimal s :
  all_decimal s -> rev (drop_while int_blank (rev (drop_while int_blank s))) = s.
Proof.
  intros H.
  rewrite (drop_while_int_blank_decimal s H).
  rewrite drop_while_int_blank_decimal; [apply rev_involutive|].
  apply Forall_rev, H.
Qed.

Lemma digitpart_decimal s :
  all_decimal s -> s <> [] -> digitpart false s = Some s.
Proof.
  assert (Htrue : forall s, all_decimal s -> digitpart true s = Some s).
  { clear s. induction s as [|c s IH]; [reflexivity|].
    intros H. inversion H as [|? ? Hc Hs]; subst. simpl.
    rewrite Hc, (IH Hs). reflexivity. }
  intros H Hne. destruct s as [|c s]; [congruence|].
  inversion H as [|? ? Hc Hs]; subst. simpl.
  rewrite Hc, (Htrue s Hs). reflexivity.
Qed.

Lemma digits_value_decimal s acc :
  all_decimal s -> exists n, digits_value acc s = Some n.
Proof.
  revert acc. induction s as [|c s IH]; intros acc H; simpl; [eauto|].
  inversion H as [|? ? Hc Hs]; subst.
  unfold isdecimal in Hc. destruct (decimal_value c); [|discriminate].
  apply IH, Hs.
Qed.

(** [int] of a run of decimal digits is the number that the run writes. *)
Lemma int_of_str_decimal s :
  all_decimal s -> s <> [] ->
  exists n, digits_value 0 s = Some n /\ int_of_str s = ok n.
Proof.
  intros H Hne. destruct (digits_value_decimal s 0 H) as [n Hn].
  exists n. split; [exact Hn|].
  unfold int_of_str. rewrite (int_strip_decimal s H).
  destruct s as [|c s']; [congruence|].
  inversion H as [|? ? Hc Hs]; subst.
  destruct (isdecimal_not_punct c Hc) as (Hm & Hp & _ & _).
  destruct (Z.eqb_spec c c_minus); [contradiction|].
  destruct (Z.eqb_spec c c_plus); [contradiction|].
  rewrite (digitpart_decimal (c :: s') H Hne), Hn. reflexivity.
Qed.

(** [extract_quantity_from_text] as a function of the first digit run. *)
Lemma extract_quantity_first_run text :
  extract_quantity_from_text text =
  match first_digit_run text with
  | Some run =>
      match digits_value 0 run with
      | Some n => if quantity_in_range n then Some n else None
      | None => None
      end
  | None => None
  end.
Proof.
  unfold extract_quantity_from_text.
  rewrite replace_same, num_re_search_first_run.
  destruct text as [|c text]; [reflexivity|]. cbn [str_truthy negb].
  destruct (first_digit_run (c :: text)) as [run|] eqn:Hrun; [|reflexivity].
  destruct (first_digit_run_Some _ _ Hrun) as (b & r & _ & _ & Hall & Hlen & _).
  assert (Hne : run <> []) by (intros ->; simpl in Hlen; lia).
  destruct (int_of_str_decimal run Hall Hne) as (n & Hn & Hint).
  rewrite Hint, Hn. reflexivity.
Qed.

Lemma quantity_in_range_iff n : quantity_in_range n = true <-> 1 <= n <= 5000.
Proof. unfold quantity_in_range. rewrite andb_true_iff, !Z.leb_le. tauto. Qed.

Lemma quantity_in_range_false n :
  quantity_in_range n = false <-> ~ (1 <= n <= 5000).
Proof. rewrite <- quantity_in_range_iff. destruct (quantity_in_range n); split; congruence. Qed.

(** An extracted quantity lies between 1 and 5000. *)
Lemma extract_quantity_range text q :
  extract_quantity_from_text text = Some q -> 1 <= q <= 5000.
Proof.
  rewrite extract_quantity_first_run.
  destruct (first_digit_run text) as [run|]; [|discriminate].
  destruct (digits_value 0 run) as [m|]; [|discriminate].
  destruct (quantity_in_range m) eqn:Hm; [|discriminate].
  apply quantity_in_range_iff in Hm. intros [= <-]. exact Hm.
Qed.

(** C8. For every text, [extract_quantity_from_text] returns [n] exactly
    when the first run of one to five digits of the text writes an integer
    [n] with 1 <= n <= 5000. It returns [None] for the empty text, for a
    text without a digit, and when the first run writes a number outside
    the range; it never returns zero. *)
Theorem extract_quantity_spec (text : str) :
  (forall n, extract_quantity_from_text text = Some n <->
     exists run, first_digit_run text = Some run /\
                 digits_value 0 run = Some n /\ 1 <= n <= 5000) /\
  (text = [] -> extract_quantity_from_text text = None) /\
  (no_decimal text -> extract_quantity_from_text text = None) /\
  (forall run n, first_digit_run text = Some run ->
     digits_value 0 run = Some n -> ~ (1 <= n <= 5000) ->
     extract_quantity_from_text text = None) /\
  extract_quantity_from_text text <> Some 0.
Proof.
  rewrite extract_quantity_first_run.
  split; [|split; [|split; [|split]]].
  - intros n. split.
    + destruct (first_digit_run text) as [run|]; [|discriminate].
      destruct (digits_value 0 run) as [m|] eqn:Hv; [|discriminate].
      destruct (quantity_in_range m) eqn:Hm; [|discriminate].
      apply quantity_in_range_iff in Hm.
      intros [= <-]. exists run. split; [reflexivity|]. split; [exact Hv|]. lia.
    + intros (run & -> & -> & Hn).
      apply quantity_in_range_iff in Hn. rewrite Hn. reflexivity.
  - intros ->. reflexivity.
  - intros H. apply first_digit_run_None in H. rewrite H. reflexivity.
  - intros run n -> -> Hn.
    apply quantity_in_range_false in Hn. rewrite Hn. reflexivity.
  - destruct (first_digit_run text) as [run|]; [|discriminate].
    destruct (digits_value 0 run) as [m|]; [|discriminate].
    destruct (quantity_in_range m) eqn:Hm; [|discriminate].
    apply quantity_in_range_iff in Hm. intros [= ->]. lia.
Qed.

(** The theorem at the title of the scenario of the specification. *)
Lemma extract_quantity_spec_witness :
  extract_quantity_from_text (lit "lot 100 cartes pokemon") = Some 100.
Proof.
  apply (proj1 (extract_quantity_spec (lit "lot 100 cartes pokemon"))).
  exists (lit "100"). vm_compute. repeat split; congruence.
Defined.

End QuantityFacts.

(** ** FilterEngine: [evaluate_item] *)

Module FilterFacts.
Import Py Bot Spec QuantityFacts.


Lemma all_quantities_float_ok :
  forallb quantity_float_ok (map Z.of_nat (seq 1 5000)) = true.
Proof. vm_compute. reflexivity. Qed.

(** [float(qty)] of an extracted quantity is defined and is not zero. *)
Lemma float_of_quantity q :
  1 <= q <= 5000 ->
  float_of_int q = ok (nearest_float q) /\
  PrimFloat.eqb (nearest_float q) 0%float = false.
Proof.
  intros Hq.
  pose proof all_quantities_float_ok as Hall.
  rewrite forallb_forall in Hall.
  specialize (Hall q).
  assert (Hin : In q (map Z.of_nat (seq 1 5000))).
  { apply in_map_iff. exists (Z.to_nat q). split; [lia|].
    apply in_seq. lia. }
  apply Hall in Hin. unfold quantity_float_ok in Hin.
  apply andb_true_iff in Hin as [Hi Hz].
  apply negb_true_iff in Hi, Hz.
  unfold float_of_int. rewrite Hi. split; [reflexivity | exact Hz].
Qed.

(** [evaluate_item] never raises, and its verdict is that of the three
    rules applied in the order minQuantity, maxTotalPrice, maxUnitPrice,
    stopping at the first that fails. *)
Lemma evaluate_item_in_order s i :
  evaluate_item s i = ok (evaluate_in_order s i).
Proof.
  unfold evaluate_item, evaluate_in_order, first_failure,
    rule_min_quantity, rule_max_total_price, rule_max_unit_price.
  destruct (extract_quantity_from_text (title i)) as [q|] eqn:Hq.
  - pose proof (extract_quantity_range _ _ Hq) as Hr.
    assert (Hq0 : (q =? 0) = false) by lia.
    assert (Hq1 : (q <=? 0) = false) by lia.
    assert (Hq2 : (0 <? q) = true) by lia.
    destruct (float_of_quantity q Hr) as [Hf Hz].
    cbn [int_truthy qty_lt qty_le0 float_of_qty].
    rewrite Hq0, Hq1, Hq2, Hf. cbn [negb orb rbind ok].
    unfold float_truediv. rewrite Hz. cbn [rbind ok].
    destruct (min_quantity s) as [m|];
      [destruct (Z.eqb_spec m 0) as [->|Hm];
       [|rewrite (Z.leb_antisym q m); destruct (q <? m)]|];
      cbn [negb andb]; try reflexivity;
      (destruct (max_price s) as [mp|]; [destruct (PrimFloat.ltb mp (price i))|]);
      cbn [negb]; try reflexivity;
      (destruct (max_unit_price s) as [c|]; [|reflexivity]);
      destruct (PrimFloat.ltb c _); reflexivity.
  - cbn [int_truthy qty_lt qty_le0 negb orb].
    destruct (min_quantity s) as [m|];
      [destruct (Z.eqb_spec m 0) as [->|Hm]|];
      cbn [negb andb]; try reflexivity;
      (destruct (max_price s) as [mp|]; [destruct (PrimFloat.ltb mp (price i))|]);
      cbn [negb]; try reflexivity;
      (destruct (max_unit_price s) as [c|]; reflexivity).
Qed.

Ltac split_rules :=
  rewrite evaluate_item_in_order;
  unfold evaluate_in_order, first_failure,
    rule_min_quantity, rule_max_total_price, rule_max_unit_price.

(** C1. [evaluate_item] applies the rules in the order minQuantity,
    maxTotalPrice, maxUnitPrice and stops at the first that fails. With
    minQuantity = 80 a listing of extracted quantity 50 is not matched;
    with only maxUnitPrice = 0.06, a listing of price 3.00 and extracted
    quantity 60 is matched with unit price 0.05; with maxTotalPrice = 30 a
    listing of price 35 is not matched, whatever its quantity. *)
Theorem evaluate_item_order :
  (forall s i, evaluate_item s i = ok (evaluate_in_order s i)) /\
  (forall s i,
     min_quantity s = Some 80 ->
     extract_quantity_from_text (title i) = Some 50 ->
     evaluate_item s i = ok (false, Some 50, None)) /\
  (forall s i,
     min_quantity s = None -> max_price s = None ->
     max_unit_price s = Some float_0_06 ->
     price i = 3%float ->
     extract_quantity_from_text (title i) = Some 60 ->
     evaluate_item s i = ok (true, Some 60, Some float_0_05)) /\
  (forall s i,
     max_price s = Some 30%float -> price i = 35%float ->
     evaluate_item s i = ok (false, extract_quantity_from_text (title i), None)).
Proof.
  split; [exact evaluate_item_in_order|].
  split; [|split].
  - intros s i Hm Hq. split_rules. rewrite Hm, Hq. reflexivity.
  - intros s i Hm Hp Hu Hpr Hq. split_rules.
    rewrite Hm, Hp, Hu, Hpr, Hq. vm_compute. reflexivity.
  - intros s i Hp Hpr. split_rules. rewrite Hp, Hpr.
    destruct (min_quantity s) as [m|]; [destruct (m =? 0)|];
      destruct (extract_quantity_from_text (title i)) as [q|];
      try destruct (m <=? q); reflexivity.
Qed.

(** The three examples of C1 on listings and queries written out. *)
Lemma evaluate_item_order_witness :
  let i t p := {| id := Some 1; title := lit t; price := p; url := [];
                  created_dt := None |} in
  let s mq mp mu := {| name := []; query := []; max_price := mp;
                       max_unit_price := mu; min_quantity := mq |} in
  evaluate_item (s (Some 80) None None) (i "lot 50 cartes" 5%float)
    = ok (false, Some 50, None) /\
  evaluate_item (s None None (Some float_0_06)) (i "60 cartes" 3%float)
    = ok (true, Some 60, Some float_0_05) /\
  evaluate_item (s None (Some 30%float) None) (i "lego vrac" 35%float)
    = ok (false, None, None).
Proof.
  intros i s. destruct evaluate_item_order as (_ & H1 & H2 & H3).
  split; [|split].
  - apply H1; reflexivity.
  - apply H2; reflexivity.
  - rewrite (H3 (s None (Some 30%float) None) (i "lego vrac" 35%float)
               eq_refl eq_refl).
    reflexivity.
Defined.

(** C3, as the code has it. For every query whose min_quantity is set to
    a value other than zero and every listing, [evaluate_item] rejects the
    listing unless a quantity was extracted from its title and that
    quantity is >= min_quantity. A min_quantity of 0 switches the rule
    off: the verdict is that of the same query without min_quantity. *)
Theorem min_quantity_rejects s i :
  (forall m,
     min_quantity s = Some m -> m <> 0 ->
     ~ (exists q, extract_quantity_from_text (title i) = Some q /\ m <= q) ->
     evaluate_item s i = ok (false, extract_quantity_from_text (title i), None)) /\
  (min_quantity s = Some 0 ->
     evaluate_item s i = evaluate_item (Cover.with_min_quantity None s) i).
Proof.
  split.
  - intros m Hm Hm0 Hq. split_rules. rewrite Hm.
    destruct (Z.eqb_spec m 0) as [|_]; [contradiction|].
    destruct (extract_quantity_from_text (title i)) as [q|]; [|reflexivity].
    destruct (Z.leb_spec m q) as [Hle|_]; [|reflexivity].
    exfalso. apply Hq. exists q. split; [reflexivity | exact Hle].
  - intros Hm. unfold evaluate_item, Cover.with_min_quantity.
    cbn [min_quantity max_price max_unit_price]. rewrite Hm. reflexivity.
Qed.

(** A title with 50 cards against a minimum of 80 is rejected; with a
    minimum of 0 a title without a number is judged as without minimum,
    and matched. *)
Lemma min_quantity_rejects_witness :
  evaluate_item
    {| name := lit "Pokemon bulk"; query := lit "lot cartes pokemon";
       max_price := None; max_unit_price := Some float_0_06;
       min_quantity := Some 80 |}
    {| id := Some 7; title := lit "lot 50 cartes pokemon"; price := 1%float;
       url := []; created_dt := None |}
  = ok (false, Some 50, None) /\
  evaluate_item
    {| name := lit "Lego vrac"; query := lit "lego vrac lot";
       max_price := None; max_unit_price := None; min_quantity := Some 0 |}
    {| id := Some 7; title := lit "lego vrac lot"; price := 10%float;
       url := []; created_dt := None |}
  = ok (true, None, None).
Proof.
  split.
  - rewrite (proj1 (min_quantity_rejects _ _) 80); [reflexivity | reflexivity | lia |].
    intros (q & Hq & Hle). vm_compute in Hq. injection Hq as <-. lia.
  - rewrite (proj2 (min_quantity_rejects
                      {| name := lit "Lego vrac"; query := lit "lego vrac lot";
                         max_price := None; max_unit_price := None;
                         min_quantity := Some 0 |}
                      {| id := Some 7; title := lit "lego vrac lot";
                         price := 10%float; url := []; created_dt := None |})
               eq_refl).
    vm_compute. reflexivity.
Defined.

(** C3 fails as stated: with min_quantity set to 0 the test
    [search.get("min_quantity") and ...] is false, so a listing whose title
    holds no quantity is matched. *)
Lemma min_quantity_zero_counterexample :
  let s := {| name := lit "Lego vrac"; query := lit "lego vrac lot";
              max_price := None; max_unit_price := None;
              min_quantity := Some 0 |} in
  let i := {| id := Some 7; title := lit "lego vrac lot"; price := 10%float;
              url := []; created_dt := None |} in
  min_quantity s = Some 0 /\
  extract_quantity_from_text (title i) = None /\
  evaluate_item s i = ok (true, None, None).
Proof. vm_compute. repeat split; reflexivity. Qed.

(** C4. [evaluate_item] never raises, so it never divides by a zero or
    absent quantity. When max_unit_price is set, a listing without a
    strictly positive extracted quantity is rejected before any division.
    The extracted quantity is returned on every path. A unit price is
    returned only when max_unit_price is set and the quantity [n] is
    positive, it is [price / n], and the listing is then a match or is
    rejected because the unit price exceeds the ceiling. *)
Theorem unit_price_guard s i :
  let qty := extract_quantity_from_text (title i) in
  (exists v, evaluate_item s i = ok v) /\
  (forall m q u, evaluate_item s i = ok (m, q, u) -> q = qty) /\
  (forall c, max_unit_price s = Some c ->
     (forall n, qty = Some n -> n <= 0) ->
     evaluate_item s i = ok (false, qty, None)) /\
  (forall m q u, evaluate_item s i = ok (m, q, Some u) ->
     exists c n,
       max_unit_price s = Some c /\ qty = Some n /\ 0 < n /\
       float_of_int n = ok (nearest_float n) /\
       PrimFloat.eqb (nearest_float n) 0%float = false /\
       u = PrimFloat.div (price i) (nearest_float n) /\
       m = negb (PrimFloat.ltb c u)) /\
  (forall c q u, max_unit_price s = Some c ->
     evaluate_item s i = ok (true, q, u) -> u <> None).
Proof.
  intros qty. subst qty.
  split; [rewrite evaluate_item_in_order; eauto|].
  split; [|split; [|split]].
  - rewrite evaluate_item_in_order. unfold evaluate_in_order, ok. intros m q u.
    destruct (first_failure _ _ _ _) as [m' u']. intros [= _ <- _]. reflexivity.
  - intros c Hc Hn. split_rules. rewrite Hc.
    destruct (extract_quantity_from_text (title i)) as [n|] eqn:Hq.
    + pose proof (extract_quantity_range _ _ Hq). specialize (Hn n eq_refl). lia.
    + destruct (min_quantity s) as [mq|]; [destruct (mq =? 0)|];
        (destruct (max_price s) as [mp|]; [destruct (PrimFloat.ltb mp (price i))|]);
        reflexivity.
  - split_rules. unfold ok. intros m q u.
    destruct (extract_quantity_from_text (title i)) as [n|] eqn:Hq.
    + pose proof (extract_quantity_range _ _ Hq) as Hr.
      destruct (float_of_quantity n Hr) as [Hf Hz].
      assert (Hpos : (0 <? n) = true) by lia. rewrite Hpos.
      destruct (min_quantity s) as [mq|]; [destruct (mq =? 0)|];
        try destruct (mq <=? n);
        (destruct (max_price s) as [mp|]; [destruct (PrimFloat.ltb mp (price i))|]);
        (destruct (max_unit_price s) as [c|]); cbn [negb];
        try (destruct (PrimFloat.ltb c _) eqn:El; cbn [negb]);
        intros [= <- <- <-];
        exists c, n; rewrite ?El; repeat split; auto; lia.
    + destruct (min_quantity s) as [mq|]; [destruct (mq =? 0)|];
        (destruct (max_price s) as [mp|]; [destruct (PrimFloat.ltb mp (price i))|]);
        (destruct (max_unit_price s) as [c|]); cbn [negb];
        intros [= ].
  - intros c q u Hc. split_rules. rewrite Hc. unfold ok.
    destruct (extract_quantity_from_text (title i)) as [n|] eqn:Hq.
    + pose proof (extract_quantity_range _ _ Hq) as Hr.
      assert (Hpos : (0 <? n) = true) by lia. rewrite Hpos.
      destruct (min_quantity s) as [mq|]; [destruct (mq =? 0)|];
        try destruct (mq <=? n);
        (destruct (max_price s) as [mp|]; [destruct (PrimFloat.ltb mp (price i))|]);
        cbn [negb];
        try (destruct (PrimFloat.ltb c _); cbn [negb]);
        intros [= <- <-]; discriminate.
    + destruct (min_quantity s) as [mq|]; [destruct (mq =? 0)|];
        (destruct (max_price s) as [mp|]; [destruct (PrimFloat.ltb mp (price i))|]);
        cbn [negb]; intros [= ].
Qed.

(** C4 on the listing of the scenario of the specification: quantity 100,
    unit price 0.024, a match. *)
Lemma unit_price_guard_witness :
  let s := {| name := lit "Pokemon bulk"; query := lit "lot cartes pokemon";
              max_price := None; max_unit_price := Some float_0_06;
              min_quantity := Some 80 |} in
  let i := {| id := Some 7; title := lit "lot 100 cartes pokemon";
              price := Z_div_nearest 240 100; url := []; created_dt := None |} in
  evaluate_item s i = ok (true, Some 100, Some float_0_024) /\
  exists c n, max_unit_price s = Some c /\ 0 < n /\
              float_0_024 = PrimFloat.div (price i) (nearest_float n).
Proof.
  intros s i.
  assert (E : evaluate_item s i = ok (true, Some 100, Some float_0_024))
    by (vm_compute; reflexivity).
  split; [exact E|].
  destruct (unit_price_guard s i) as (_ & _ & _ & H & _).
  destruct (H _ _ _ E) as (c & n & Hc & _ & Hn & _ & _ & Hu & _).
  exists c, n. auto.
Defined.

End FilterFacts.

(** ** NumericParser: [parse_float] and the normalisation [item_info] *)

Module ParserFacts.
Import Py Bot Spec UnicodeFacts.

(** The characters that [parse_float] keeps. *)
Lemma parse_float_keeps s :
  Forall (fun ch => isdigit ch = true \/ ch = c_dot \/ ch = c_minus)
    (List.filter (fun ch => isdigit ch || (ch =? c_dot) || (ch =? c_minus))
       (replace c_comma c_dot (strip s))).
Proof.
  apply List.Forall_forall. intros ch Hin.
  apply filter_In in Hin as [_ H].
  apply orb_true_iff in H as [H|H]; [apply orb_true_iff in H as [H|H]|].
  - left. exact H.
  - right. left. lia.
  - right. right. lia.
Qed.


(** The numeric branch of [parse_float] is outside the [try]: an int
    beyond the range of binary64 raises. *)
Lemma parse_float_int_overflow :
  parse_float (SInt (10 ^ 400)) = raise OverflowError.
Proof. vm_compute. reflexivity. Qed.

(** [float] of a text of digits, dots and minus signs is the decimal
    number that the text writes, rounded to nearest. *)
Lemma float_of_str_decimal s :
  float_of_str s =
  match decimal_of s with
  | Some (neg, m, k) => ok (with_sign neg (Z_div_nearest m (10 ^ k)))
  | None => raise ValueError
  end.
Proof.
  unfold float_of_str, decimal_of, with_sign.
  destruct s as [|c s']; [reflexivity|].
  destruct (c =? c_minus); cbv beta iota zeta;
    match goal with |- match ?x with _ => _ end = _ => destruct x; [reflexivity|] end;
    match goal with |- match ?x with _ => _ end = _ => destruct x; reflexivity end.
Qed.

Lemma decimal_value_nonneg c d : decimal_value c = Some d -> 0 <= d.
Proof.
  intros H. apply decimal_value_block in H as (z & _ & Hr & ->).
  unfold in_range in Hr. cbn [fst snd] in Hr.
  apply andb_true_iff in Hr as [Hr _]. lia.
Qed.

Lemma digits_value_nonneg s :
  forall acc m, 0 <= acc -> digits_value acc s = Some m -> 0 <= m.
Proof.
  induction s as [|c s IH]; intros acc m Hacc; cbn [digits_value].
  - intros [= <-]. exact Hacc.
  - destruct (decimal_value c) as [d|] eqn:Hd; [|discriminate].
    apply decimal_value_nonneg in Hd. apply IH. lia.
Qed.

Lemma decimal_of_nonneg s neg m k : decimal_of s = Some (neg, m, k) -> 0 <= m /\ 0 <= k.
Proof.
  unfold decimal_of.
  destruct (match s with
            | [] => (false, s)
            | c :: s' => if c =? c_minus then (true, s') else (false, s)
            end) as [neg0 body].
  cbv beta iota zeta.
  match goal with |- match ?x with _ => _ end = _ -> _ => destruct x; [discriminate|] end.
  match goal with |- match ?x with _ => _ end = _ -> _ => destruct x as [m0|] eqn:E end;
    [|discriminate].
  intros [= <- <- <-]. split; [|lia].
  apply (digits_value_nonneg _ 0 m0) in E; [exact E | lia].
Qed.

Lemma is_finite_opp f : is_finite (PrimFloat.opp f) = is_finite f.
Proof.
  rewrite !FloatFacts.is_finite_Prim2SF, FloatAxioms.opp_spec.
  destruct (Prim2SF f); reflexivity.
Qed.

Lemma with_sign_finite neg f : is_finite f = true -> is_finite (with_sign neg f) = true.
Proof.
  intros H. unfold with_sign. destruct neg; [|exact H].
  destruct (is_zero f); [reflexivity|]. rewrite is_finite_opp. exact H.
Qed.

(** What [parse_float] returns for a string, by the number that the
    kept text writes: finite below [FLOAT_LIMIT], an infinity from there
    on, and 0.0 when the text writes no number. *)
Lemma parse_float_str s :
  match decimal_of (Cover.kept s) with
  | None => parse_float (SStr s) = ok 0%float
  | Some (neg, m, k) =>
      parse_float (SStr s) = ok (with_sign neg (Z_div_nearest m (10 ^ k))) /\
      (m < Ieee.FLOAT_LIMIT * 10 ^ k ->
       finite (with_sign neg (Z_div_nearest m (10 ^ k))) = true) /\
      (Ieee.FLOAT_LIMIT * 10 ^ k <= m ->
       with_sign neg (Z_div_nearest m (10 ^ k))
       = if neg then neg_infinity else infinity)
  end.
Proof.
  assert (E : parse_float (SStr s)
              = ok (try_default (float_of_str (Cover.kept s)) 0%float))
    by reflexivity.
  rewrite E, float_of_str_decimal.
  destruct (decimal_of (Cover.kept s)) as [[[neg m] k]|] eqn:Hd; [|reflexivity].
  apply decimal_of_nonneg in Hd as [Hm Hk].
  assert (Hp : 0 < 10 ^ k) by (apply Z.pow_pos_nonneg; lia).
  destruct (FloatFacts.Z_div_nearest_range m (10 ^ k) Hm Hp) as [Hfin Hinf].
  split; [reflexivity|]. split.
  - intros H. apply with_sign_finite, Hfin, H.
  - intros H. rewrite (Hinf H). destruct neg; reflexivity.
Qed.



(** [item_info] is [parse_float] on the price, and plain data for the
    rest. *)
Lemma item_info_price it :
  item_info it =
  match parse_float (match item_price it with
                     | PriceDict amount => amount
                     | PriceScalar v => v
                     end) with
  | inl e => inl e
  | inr p =>
      ok {| id := item_id it;
            title := str_or (item_title it) [];
            price := p;
            url := BASE ++ str_or (item_url it)
                     (str_or (item_path it) (lit "/items/" ++ format_id (item_id it)));
            created_dt :=
              if scalar_truthy (item_created_at_ts it) then
                match rbind (int_of_scalar (item_created_at_ts it)) fromtimestamp with
                | inr dt => Some dt
                | inl _ => None
                end
              else None |}
  end.
Proof.
  unfold item_info. destruct (item_price it) as [v|amount]; reflexivity.
Qed.

(** [item_info] returns a listing whenever the price is not an int. *)
Lemma item_info_returns it :
  (forall n, item_price it <> PriceScalar (SInt n)) ->
  (forall n, item_price it <> PriceDict (SInt n)) ->
  exists i, item_info it = ok i.
Proof.
  intros H1 H2. rewrite item_info_price.
  assert (Hp : exists p,
             parse_float (match item_price it with
                          | PriceDict amount => amount
                          | PriceScalar v => v
                          end) = ok p).
  { destruct (item_price it) as [v|v]; destruct v as [| b | n | f | s];
      try (exfalso; solve [apply (H1 n); reflexivity | apply (H2 n); reflexivity]);
      try (destruct b; eexists; vm_compute; reflexivity);
      eexists; reflexivity. }
  destruct Hp as [p ->]. eexists. reflexivity.
Qed.

(** C10 at an input that the code does not handle: a raw item whose price
    is an integer of 401 digits. [parse_float] calls [float] on it outside
    any [try], and the [OverflowError] leaves [item_info]. *)
Theorem item_info_overflow :
  let it := {| item_id := Some 1; item_title := Some (lit "lot 100 cartes");
               item_price := PriceScalar (SInt (10 ^ 400));
               item_url := None; item_path := None;
               item_created_at_ts := SNone |} in
  item_info it = raise OverflowError.
Proof. vm_compute. reflexivity. Qed.

(** Apart from that, [item_info] does what C10 says: the price of a dict
    is read from its amount, with 0.0 for a missing one; a missing
    timestamp or one that is no number gives no creation time; without url
    and path the url is BASE + "/items/<id>". *)
Lemma item_info_defaults :
  let it := {| item_id := Some 42; item_title := None;
               item_price := PriceDict SNone;
               item_url := None; item_path := None;
               item_created_at_ts := SStr (lit "hier") |} in
  item_info it =
  ok {| id := Some 42; title := []; price := 0%float;
        url := lit "https://www.vinted.fr/items/42"; created_dt := None |}.
Proof. vm_compute. reflexivity. Qed.

Lemma item_info_amount :
  let it := {| item_id := Some 42; item_title := Some (lit "lot 100 cartes");
               item_price := PriceDict (SStr (lit "12.0"));
               item_url := Some (lit "/items/42-lot"); item_path := None;
               item_created_at_ts := SInt 1700000000 |} in
  item_info it =
  ok {| id := Some 42; title := lit "lot 100 cartes"; price := 12%float;
        url := lit "https://www.vinted.fr/items/42-lot";
        created_dt := Some 1700000000 |}.
Proof. vm_compute. reflexivity. Qed.

End ParserFacts.

(** ** The scan loop *)

Module ScanFacts.
Import Py Bot Spec FilterFacts.

Ltac run :=
  unfold bind, ret, throw, lift, try_except, emit, ask, get_SEEN, SEEN_add,
    read_file, write_file; cbn.

(** *** Traces *)

Lemma evaluated_ids_app a b :
  evaluated_ids (a ++ b) = evaluated_ids a ++ evaluated_ids b.
Proof. apply omap_app. Qed.

Lemma notified_ids_app a b :
  notified_ids (a ++ b) = notified_ids a ++ notified_ids b.
Proof. apply omap_app. Qed.

Lemma writes_app a b : writes (a ++ b) = writes a ++ writes b.
Proof. apply List.filter_app. Qed.

Lemma notifications_app a b :
  notifications (a ++ b) = notifications a ++ notifications b.
Proof. apply List.filter_app. Qed.

(** Silent events show nothing to the four observers. *)
Lemma silent_trace new :
  Forall (fun e => silent e = true) new ->
  evaluated_ids new = [] /\ notified_ids new = [] /\
  writes new = [] /\ notifications new = [].
Proof.
  induction 1 as [|e new He _ (IH1 & IH2 & IH3 & IH4)]; [repeat split|].
  unfold evaluated_ids, notified_ids, writes, notifications in *.
  destruct e as [l| | | | |]; try discriminate;
    [destruct l; try discriminate|..];
    simpl; rewrite ?IH3, ?IH4; repeat split;
    first [exact IH1 | exact IH2].
Qed.

(** A Telegram trace is one notification, for the listing of the
    message, and nothing else. *)
Lemma telegram_trace_shows msg tele :
  telegram_trace msg tele ->
  evaluated_ids tele = [] /\
  notified_ids tele = match id (msg_info msg) with Some x => [x] | None => [] end /\
  writes tele = [] /\
  length (notifications tele) = 1%nat.
Proof.
  intros [| |l [[e ->]|[c [-> _]]]];
    unfold evaluated_ids, notified_ids, writes, notifications;
    cbn; destruct (id (msg_info msg)); repeat split.
Qed.

(** *** The seen-set relation *)

Lemma respects_seen_trans w1 w2 w3 n1 n2 :
  respects_seen w1 w2 n1 -> respects_seen w2 w3 n2 ->
  respects_seen w1 w3 (n1 ++ n2).
Proof.
  intros (Ht1 & Hs1 & Hf1 & Hd1 & Hn1 & Hnd1) (Ht2 & Hs2 & Hf2 & Hd2 & Hn2 & Hnd2).
  unfold respects_seen.
  rewrite evaluated_ids_app, notified_ids_app.
  split; [rewrite Ht2, Ht1, app_assoc; reflexivity|].
  split; [transitivity (SEEN w2); assumption|].
  split.
  { intros x Hx. apply elem_of_app in Hx as [Hx|Hx].
    - destruct (Hf1 x Hx) as [Hout Hin]. split; [exact Hout | apply Hs2, Hin].
    - destruct (Hf2 x Hx) as [Hout Hin]. split; [|exact Hin].
      intros Hx1. apply Hout, Hs1, Hx1. }
  split.
  { apply NoDup_app. split; [exact Hd1|]. split; [|exact Hd2].
    intros x Hx1 Hx2. destruct (Hf1 x Hx1) as [_ Hin]. destruct (Hf2 x Hx2) as [Hout _].
    contradiction. }
  split.
  { intros x Hx. apply elem_of_app. apply elem_of_app in Hx as [Hx|Hx]; auto. }
  apply NoDup_app. split; [exact Hnd1|]. split; [|exact Hnd2].
  intros x Hx1 Hx2. apply Hn1 in Hx1. apply Hn2 in Hx2.
  destruct (Hf1 x Hx1) as [_ Hin]. destruct (Hf2 x Hx2) as [Hout _].
  contradiction.
Qed.

(** Silent events and an unchanged or grown seen-set respect it. *)
Lemma respects_seen_silent w w' new :
  trace w' = trace w ++ new -> SEEN w ⊆ SEEN w' ->
  Forall (fun e => silent e = true) new ->
  respects_seen w w' new.
Proof.
  intros Ht Hs Hsil. destruct (silent_trace new Hsil) as (E1 & E2 & _ & _).
  unfold respects_seen. rewrite E1, E2.
  split; [exact Ht|]. split; [exact Hs|].
  split; [intros x Hx; inversion Hx|]. split; [apply NoDup_nil_2|].
  split; [intros x Hx; inversion Hx | apply NoDup_nil_2].
Qed.

Lemma respects_seen_refl w : respects_seen w w [].
Proof.
  apply respects_seen_silent; [symmetry; apply app_nil_r | reflexivity | constructor].
Qed.

#[export] Instance advance_refl : Reflexive advance.
Proof. intros w. exists []. apply respects_seen_refl. Qed.

#[export] Instance advance_trans : Transitive advance.
Proof.
  intros w1 w2 w3 [n1 H1] [n2 H2]. exists (n1 ++ n2).
  eapply respects_seen_trans; eassumption.
Qed.

End ScanFacts.

(** ** The operations that perform I/O *)

Module IOFacts.
Import Py Bot Spec ScanFacts.

(** *** [send_telegram] *)

Lemma send_telegram_not_configured cfg env msg w :
  configured cfg = false ->
  fst (send_telegram cfg env msg w) = ok tt /\
  after w [PrintLine (LogNoTelegram msg)] (snd (send_telegram cfg env msg w)).
Proof.
  unfold configured, send_telegram. intros H.
  destruct (str_truthy (TELEGRAM_TOKEN cfg)), (str_truthy (TELEGRAM_CHAT_ID cfg));
    try discriminate; cbn [negb orb]; run; repeat split.
Qed.

Lemma send_telegram_configured cfg env msg w :
  configured cfg = true ->
  fst (send_telegram cfg env msg w) = ok tt /\
  after w
    (HttpPost msg ::
     match on_post env (clock w) with
     | PostRaises e => [PrintLine (LogErrTelegram e)]
     | PostResponse c =>
         if 300 <=? c then [PrintLine (LogErrTelegramStatus c)] else []
     end)
    (snd (send_telegram cfg env msg w)).
Proof.
  unfold configured, send_telegram. intros H.
  apply andb_true_iff in H as [-> ->]. cbn [negb orb]. run.
  destruct (on_post env (clock w)) as [e|c]; run.
  - unfold after; cbn. rewrite <- app_assoc. repeat split.
  - destruct (300 <=? c); run; unfold after; cbn;
      rewrite <- ?app_assoc; repeat split.
Qed.

(** [send_telegram] returns normally and leaves a Telegram trace. *)
Lemma send_telegram_does cfg env msg w :
  fst (send_telegram cfg env msg w) = ok tt /\
  exists tele, telegram_trace msg tele /\
               after w tele (snd (send_telegram cfg env msg w)).
Proof.
  destruct (configured cfg) eqn:Hc.
  - destruct (send_telegram_configured cfg env msg w Hc) as [Hr Ha].
    split; [exact Hr|]. eexists. split; [|exact Ha].
    destruct (on_post env (clock w)) as [e|c].
    + apply telegram_post_failed. left. eauto.
    + destruct (Z.leb_spec 300 c).
      * apply telegram_post_failed. right. eauto.
      * apply telegram_posted.
  - destruct (send_telegram_not_configured cfg env msg w Hc) as [Hr Ha].
    split; [exact Hr|]. eexists. split; [|exact Ha]. apply telegram_not_configured.
Qed.

(** *** [search_vinted] *)

Lemma search_vinted_does env q w :
  let reply := search_reply q (on_get env (clock w)) in
  fst (search_vinted env q w) = ok (fst reply) /\
  after w (HttpGet q :: snd reply) (snd (search_vinted env q w)).
Proof.
  unfold search_vinted, search_reply. run.
  destruct (on_get env (clock w)) as [e|c b]; run.
  - unfold after; cbn. rewrite <- app_assoc. repeat split.
  - destruct (negb (c =? 200)); run.
    + unfold after; cbn. rewrite <- app_assoc. repeat split.
    + destruct b as [| |items]; run; unfold after; cbn;
        rewrite <- ?app_assoc; repeat split.
Qed.

Lemma search_reply_silent q o :
  Forall (fun e => silent e = true) (HttpGet q :: snd (search_reply q o)).
Proof.
  constructor; [reflexivity|]. unfold search_reply.
  destruct o as [e|c b]; [repeat constructor|].
  destruct (negb (c =? 200)); [repeat constructor|].
  destruct b; repeat constructor.
Qed.

(** *** [load_seen] and [save_seen] *)

Lemma load_seen_does w :
  load_seen w =
  (ok match seen_json w with
      | FileIds ids => list_to_set ids
      | _ => ∅
      end, w).
Proof. unfold load_seen. run. destruct (seen_json w); reflexivity. Qed.

Lemma save_seen_does env seen_ids w :
  let o := on_write env (clock w) in
  let w' := snd (save_seen env seen_ids w) in
  fst (save_seen env seen_ids w) = ok tt /\
  SEEN w' = SEEN w /\
  trace w' = trace w ++
    WriteSeen (sorted_ids seen_ids) o ::
    match o with
    | WriteDone => []
    | WriteOpenFails e => [PrintLine (LogWarnSaveSeen e)]
    | WriteDumpFails e => [PrintLine (LogWarnSaveSeen e)]
    end /\
  seen_json w' =
    match o with
    | WriteDone => FileIds (sorted_ids seen_ids)
    | WriteOpenFails _ => seen_json w
    | WriteDumpFails _ => FileCorrupt
    end.
Proof.
  unfold save_seen, sorted_ids. run.
  destruct (on_write env (clock w)) as [|e|e]; run;
    rewrite <- ?app_assoc; repeat split.
Qed.

End IOFacts.

(** ** One listing of the scan *)

Module ItemFacts.
Import Py Bot Spec FilterFacts ScanFacts IOFacts.

(** [is_recent_at] never raises: the divisor is the constant 60.0. *)
Lemma is_recent_at_ok m now c : exists b, is_recent_at m now c = ok b.
Proof.
  destruct c as [t|]; [|exists true; reflexivity].
  unfold is_recent_at, float_truediv.
  replace (PrimFloat.eqb 60 0) with false by reflexivity.
  cbn. eauto.
Qed.

(** With a maximum age of 60 minutes: a listing created 60 minutes ago is
    recent, one created a microsecond earlier is not, and one created in
    the future is recent. *)
Example is_recent_at_boundary :
  is_recent_at 60 (3600 * 1000000) (Some 0) = ok true /\
  is_recent_at 60 (3600 * 1000000 + 1) (Some 0) = ok false /\
  is_recent_at 60 0 (Some 86400) = ok true.
Proof. vm_compute. repeat split; reflexivity. Qed.

(** A listing without creation time is recent, and the clock is not
    read. *)
Lemma is_recent_unknown cfg env w : is_recent cfg env None w = (ok true, w).
Proof. reflexivity. Qed.

Lemma is_recent_known cfg env t w :
  exists b,
    is_recent_at (MAX_ITEM_AGE_MIN cfg) (on_now env (clock w)) (Some t) = ok b /\
    fst (is_recent cfg env (Some t) w) = ok b /\
    after w [] (snd (is_recent cfg env (Some t) w)).
Proof.
  destruct (is_recent_at_ok (MAX_ITEM_AGE_MIN cfg) (on_now env (clock w)) (Some t))
    as [b Hb].
  exists b. split; [exact Hb|]. unfold is_recent. run. rewrite Hb.
  unfold after. cbn. rewrite app_nil_r. repeat split.
Qed.

Section OneItem.

Variable cfg : config.
Variable env : environment.
Variable s : search.
Variable sent_count : Z.
Variable it : item.
Variable w : world.

Let r := fst (scan_item cfg env s sent_count it w).
Let w' := snd (scan_item cfg env s sent_count it w).

(** The normalisation raises: the exception leaves [scan_item]. *)
Lemma scan_item_failed e :
  item_info it = raise e -> item_step s it sent_count w r w' (Failed e).
Proof.
  intros H. subst r w'. unfold scan_item. run. rewrite H.
  unfold item_step. repeat split. exact H.
Qed.

(** No identifier: the listing is skipped. *)
Lemma scan_item_no_id i :
  item_info it = ok i -> int_truthy (id i) = false ->
  item_step s it sent_count w r w' Skipped.
Proof.
  intros H Hid. subst r w'. unfold scan_item. run. rewrite H. cbn.
  destruct (id i) as [x|]; [|repeat split].
  cbn in Hid. apply negb_false_iff in Hid. rewrite Hid. repeat split.
Qed.

(** Already seen: the listing is skipped. *)
Lemma scan_item_seen i x :
  item_info it = ok i -> id i = Some x -> x ∈ SEEN w ->
  item_step s it sent_count w r w' Skipped.
Proof.
  intros H Hid Hx. subst r w'. unfold scan_item. run. rewrite H. cbn.
  rewrite Hid. destruct (x =? 0); [repeat split|].
  destruct (decide (x ∈ SEEN w)); [repeat split | contradiction].
Qed.

(** Too old: the id is marked as seen and nothing else happens. *)
Lemma scan_item_stale i x :
  item_info it = ok i -> id i = Some x -> x <> 0 -> x ∉ SEEN w ->
  is_recent_at (MAX_ITEM_AGE_MIN cfg) (on_now env (clock w)) (created_dt i)
    = ok false ->
  item_step s it sent_count w r w' (Stale x).
Proof.
  intros H Hid Hx0 Hx Hrec. subst r w'.
  unfold scan_item. run. rewrite H. cbn. rewrite Hid.
  destruct (Z.eqb_spec x 0); [contradiction|].
  destruct (decide (x ∈ SEEN w)); [contradiction|].
  destruct (created_dt i) as [t|]; [|discriminate].
  unfold is_recent. run. rewrite Hrec. cbn. repeat split. exact Hx.
Qed.

(** New and recent: the listing is evaluated, marked as seen, and
    notified if it matches. *)
Lemma scan_item_fresh i x :
  item_info it = ok i -> id i = Some x -> x <> 0 -> x ∉ SEEN w ->
  is_recent_at (MAX_ITEM_AGE_MIN cfg) (on_now env (clock w)) (created_dt i)
    = ok true ->
  exists tele,
    item_step s it sent_count w r w'
      (if fst (fst (evaluate_in_order s i)) then Matched x i tele else Rejected x i).
Proof.
  intros H Hid Hx0 Hx Hrec. subst r w'.
  destruct (scan_item cfg env s sent_count it w) as [r0 w0] eqn:E.
  cbn [fst snd]. revert E.
  unfold scan_item. unfold bind at 1. unfold lift at 1. rewrite H.
  unfold ok at 1. cbn iota beta. rewrite Hid.
  destruct (Z.eqb_spec x 0); [contradiction|].
  unfold bind at 1. unfold get_SEEN. unfold ok at 1. cbn iota beta.
  destruct (decide (x ∈ SEEN w)); [contradiction|].
  assert (Hr : exists w1, is_recent cfg env (created_dt i) w = (ok true, w1) /\
                          after w [] w1).
  { destruct (created_dt i) as [t|].
    - destruct (is_recent_known cfg env t w) as (b & Hb & Hf & Ha).
      rewrite Hrec in Hb. injection Hb as <-.
      destruct (is_recent cfg env (Some t) w) as [r1 w1]. cbn in Hf, Ha.
      subst r1. eauto.
    - exists w. split; [reflexivity|]. unfold after. rewrite app_nil_r. auto. }
  destruct Hr as (w1 & Hr & HS1 & HF1 & HT1). rewrite app_nil_r in HT1.
  unfold bind at 1. rewrite Hr. unfold ok at 1. cbn iota beta. cbn [negb].
  rewrite evaluate_item_in_order.
  destruct (evaluate_in_order s i) as [[m q] u]. cbn [fst]. unfold ok.
  destruct m.
  - run.
    match goal with
    | |- context [send_telegram cfg env ?msg] => set (msg0 := msg)
    end.
    match goal with
    | |- context [send_telegram cfg env msg0 ?w2] =>
        destruct (send_telegram_does cfg env msg0 w2) as (Hok & tele & Htele & HS & HF & HT);
        destruct (send_telegram cfg env msg0 w2) as [r2 w3]
    end.
    cbn in Hok, HS, HF, HT. subst r2. intros [= <- <-].
    exists tele. unfold item_step.
    rewrite HS, HF, HT, HS1, HF1, HT1, <- app_assoc.
    repeat split; try assumption.
    exists msg0. split; [reflexivity | exact Htele].
  - run. intros [= <- <-]. exists []. unfold item_step. cbn.
    rewrite HS1, HF1, HT1. repeat split; assumption.
Qed.

(** Every round of the loop is one of the five outcomes. *)
Lemma scan_item_does : exists o, item_step s it sent_count w r w' o.
Proof.
  destruct (item_info it) as [e|i] eqn:H.
  { exists (Failed e). apply scan_item_failed. exact H. }
  destruct (id i) as [x|] eqn:Hid.
  2:{ exists Skipped. apply (scan_item_no_id i); [exact H|]. rewrite Hid. reflexivity. }
  destruct (Z.eqb_spec x 0) as [->|Hx0].
  { exists Skipped. apply (scan_item_no_id i); [exact H|]. rewrite Hid. reflexivity. }
  destruct (decide (x ∈ SEEN w)) as [Hx|Hx].
  { exists Skipped. apply (scan_item_seen i x); assumption. }
  destruct (is_recent_at_ok (MAX_ITEM_AGE_MIN cfg) (on_now env (clock w)) (created_dt i))
    as [[|] Hb].
  - destruct (scan_item_fresh i x H Hid Hx0 Hx Hb) as [tele Hstep]. eauto.
  - exists (Stale x). apply (scan_item_stale i x); assumption.
Qed.

End OneItem.

End ItemFacts.

(** ** The loops of a scan *)

Module LoopFacts.
Import Py Bot Spec FilterFacts ScanFacts IOFacts ItemFacts.

Lemma scan_progress_quiet sent w r w' new :
  after w new w' -> Forall (fun e => silent e = true) new ->
  (forall sent', r = ok sent' -> sent' = sent) ->
  scan_progress sent w r w'.
Proof.
  intros (HS & HF & HT) Hsil Hr. exists new.
  destruct (silent_trace new Hsil) as (_ & _ & Hw & Hn).
  split; [apply respects_seen_silent; [exact HT | rewrite HS; reflexivity | exact Hsil]|].
  split; [exact HF|]. split; [exact Hw|].
  intros sent' E. rewrite Hn. cbn. rewrite (Hr sent' E). lia.
Qed.

Lemma scan_progress_step sent w sent1 w1 r w2 :
  scan_progress sent w (ok sent1) w1 -> scan_progress sent1 w1 r w2 ->
  scan_progress sent w r w2.
Proof.
  intros (n1 & Hr1 & Hf1 & Hw1 & Hc1) (n2 & Hr2 & Hf2 & Hw2 & Hc2).
  exists (n1 ++ n2).
  split; [eapply respects_seen_trans; eassumption|].
  split; [congruence|].
  split; [rewrite writes_app, Hw1, Hw2; reflexivity|].
  intros sent' E. rewrite notifications_app, length_app.
  rewrite (Hc2 sent' E), (Hc1 sent1 eq_refl). lia.
Qed.

(** Each outcome of [scan_item] is a progress of the scan. *)
Lemma item_step_progress s it sent w r w' o :
  item_step s it sent w r w' o -> scan_progress sent w r w'.
Proof.
  destruct o as [|e|x|x i|x i tele]; intros [HF H].
  - destruct H as (-> & HS & HT).
    apply (scan_progress_quiet sent w _ w' []); [|constructor|intros ? [= <-]; reflexivity].
    unfold after. rewrite app_nil_r. auto.
  - destruct H as (-> & HS & HT & _).
    apply (scan_progress_quiet sent w _ w' []); [|constructor|intros ? [=]].
    unfold after. rewrite app_nil_r. auto.
  - destruct H as (-> & Hx & HS & HT). exists [].
    split; [|split; [exact HF|split; [reflexivity|intros ? [= <-]; cbn; lia]]].
    apply respects_seen_silent; [rewrite app_nil_r; exact HT | | constructor].
    rewrite HS. apply union_subseteq_r.
  - destruct H as (-> & Hx & Hid & HS & HT). exists [Evaluate s i].
    split; [|split; [exact HF|split; [reflexivity|intros ? [= <-]; cbn; lia]]].
    unfold respects_seen, evaluated_ids, notified_ids. cbn. rewrite Hid. cbn.
    split; [exact HT|]. split; [rewrite HS; apply union_subseteq_r|].
    split; [|split; [apply NoDup_singleton|split; [intros y Hy; inversion Hy|apply NoDup_nil_2]]].
    intros y Hy. apply list_elem_of_singleton in Hy as ->.
    split; [exact Hx|]. rewrite HS. apply elem_of_union_l, elem_of_singleton. reflexivity.
  - destruct H as (-> & Hx & Hid & HS & HT & msg & Hmsg & Htele).
    destruct (telegram_trace_shows msg tele Htele) as (E1 & E2 & E3 & E4).
    rewrite Hmsg, Hid in E2.
    exists (Evaluate s i :: tele).
    split; [|split; [exact HF|split]].
    + unfold respects_seen.
      change (evaluated_ids (Evaluate s i :: tele))
        with (match id i with Some y => y :: evaluated_ids tele | None => evaluated_ids tele end).
      change (notified_ids (Evaluate s i :: tele)) with (notified_ids tele).
      rewrite Hid, E1, E2.
      split; [exact HT|]. split; [rewrite HS; apply union_subseteq_r|].
      split; [|split; [apply NoDup_singleton|split; [auto|apply NoDup_singleton]]].
      intros y Hy. apply list_elem_of_singleton in Hy as ->.
      split; [exact Hx|]. rewrite HS. apply elem_of_union_l, elem_of_singleton. reflexivity.
    + change (writes (Evaluate s i :: tele)) with (writes tele). exact E3.
    + intros ? [= <-].
      change (notifications (Evaluate s i :: tele)) with (notifications tele).
      rewrite E4. lia.
Qed.

Lemma scan_item_progress cfg env s sent it w :
  scan_progress sent w (fst (scan_item cfg env s sent it w))
                       (snd (scan_item cfg env s sent it w)).
Proof.
  destruct (scan_item_does cfg env s sent it w) as [o Ho].
  eapply item_step_progress. exact Ho.
Qed.

(** A loop whose body progresses progresses, whether it ends or is cut
    by an exception. *)
Lemma for_each_progress {A} (body : Z -> A -> M Z) :
  (forall sent x w,
     scan_progress sent w (fst (body sent x w)) (snd (body sent x w))) ->
  forall l sent w,
    scan_progress sent w (fst (for_each body sent l w))
                         (snd (for_each body sent l w)).
Proof.
  intros Hbody. induction l as [|x l IH]; intros sent w.
  - apply (scan_progress_quiet sent w _ w []); [|constructor|intros ? [= <-]; reflexivity].
    unfold after. rewrite app_nil_r. auto.
  - cbn [for_each]. unfold bind at 1 2.
    specialize (Hbody sent x w).
    destruct (body sent x w) as [[e|sent1] w1]; cbn [fst snd] in *.
    + exact Hbody.
    + eapply scan_progress_step; [exact Hbody | apply IH].
Qed.

Lemma scan_search_progress cfg env sent s w :
  scan_progress sent w (fst (scan_search cfg env sent s w))
                       (snd (scan_search cfg env sent s w)).
Proof.
  unfold scan_search. unfold bind at 1 3.
  destruct (search_vinted_does env (query s) w) as [Hr Ha].
  destruct (search_vinted env (query s) w) as [r1 w1]. cbn [fst snd] in Hr, Ha.
  subst r1. unfold ok at 1 2. cbn iota beta.
  unfold bind at 1 2. unfold emit at 1 2. unfold ok at 1 2. cbn iota beta.
  set (w2 := {| SEEN := SEEN w1; seen_json := seen_json w1;
                trace := trace w1 ++ [Sleep]; clock := clock w1 |}).
  eapply scan_progress_step; [|apply for_each_progress; intros; apply scan_item_progress].
  apply (scan_progress_quiet sent w _ w2
           (HttpGet (query s) :: snd (search_reply (query s) (on_get env (clock w))) ++ [Sleep])).
  - destruct Ha as (HS & HF & HT). unfold after, w2. cbn.
    rewrite HT, <- app_assoc. auto.
  - change (Forall (fun e => silent e = true)
              ((HttpGet (query s) :: snd (search_reply (query s) (on_get env (clock w)))) ++ [Sleep])).
    apply Forall_app. split; [apply search_reply_silent | repeat constructor].
  - intros ? [= <-]. reflexivity.
Qed.

Lemma searches_progress cfg env l sent w :
  scan_progress sent w (fst (for_each (scan_search cfg env) sent l w))
                       (snd (for_each (scan_search cfg env) sent l w)).
Proof. apply for_each_progress. intros. apply scan_search_progress. Qed.

End LoopFacts.

(** ** One scan cycle *)

Module CycleFacts.
Import Py Bot Spec FilterFacts ScanFacts IOFacts ItemFacts LoopFacts.

(** [scan_once] is the loop over [SEARCHES], then [save_seen] when the
    counter is not zero. *)
Lemma scan_once_does cfg env w :
  let loop := for_each (scan_search cfg env) 0 (SEARCHES cfg) w in
  scan_once cfg env w =
  match fst loop with
  | inl e => (inl e, snd loop)
  | inr sent =>
      if sent =? 0 then (ok sent, snd loop)
      else (ok sent, snd (save_seen env (SEEN (snd loop)) (snd loop)))
  end.
Proof.
  intros loop. subst loop. unfold scan_once. unfold bind at 1.
  destruct (for_each (scan_search cfg env) 0 (SEARCHES cfg) w) as [[e|sent] w1];
    cbn [fst snd]; [reflexivity|].
  destruct (sent =? 0); cbn [negb]; [reflexivity|].
  unfold bind, get_SEEN, ret. unfold ok at 1. cbn iota beta.
  destruct (save_seen_does env (SEEN w1) w1) as (Hr & _).
  destruct (save_seen env (SEEN w1) w1) as [r2 w2]. cbn [fst snd] in *.
  subst r2. reflexivity.
Qed.

(** A cycle cut by an exception writes nothing. *)
Lemma scan_once_raises cfg env w e w' :
  scan_once cfg env w = (raise e, w') ->
  seen_json w' = seen_json w /\
  exists new, trace w' = trace w ++ new /\ writes new = [].
Proof.
  rewrite scan_once_does. cbn zeta.
  pose proof (searches_progress cfg env (SEARCHES cfg) 0 w) as Hp.
  destruct (for_each (scan_search cfg env) 0 (SEARCHES cfg) w) as [[e1|sent1] w1];
    cbn [fst snd] in *.
  - intros [= <- <-]. destruct Hp as (new & (HT & _) & HF & HW & _). eauto.
  - destruct (sent1 =? 0); discriminate.
Qed.

(** A cycle that returns writes [seen.json] exactly when its counter is
    not zero, and the counter is the number of its notifications. *)
Lemma scan_once_returned cfg env w sent w' :
  scan_once cfg env w = (ok sent, w') ->
  exists new,
    trace w' = trace w ++ new /\
    sent = Z.of_nat (length (notifications new)) /\
    (sent = 0 -> writes new = [] /\ seen_json w' = seen_json w) /\
    (sent <> 0 ->
     exists o,
       writes new = [WriteSeen (sorted_ids (SEEN w')) o] /\
       seen_json w' =
         match o with
         | WriteDone => FileIds (sorted_ids (SEEN w'))
         | WriteOpenFails _ => seen_json w
         | WriteDumpFails _ => FileCorrupt
         end).
Proof.
  rewrite scan_once_does. cbn zeta.
  pose proof (searches_progress cfg env (SEARCHES cfg) 0 w) as Hp.
  destruct (for_each (scan_search cfg env) 0 (SEARCHES cfg) w) as [[e|sent1] w1];
    cbn [fst snd] in *; [discriminate|].
  destruct Hp as (new & (HT & _) & HF & HW & Hc).
  specialize (Hc sent1 eq_refl). rewrite Z.add_0_l in Hc.
  destruct (Z.eqb_spec sent1 0) as [E|E]; intros [= <- <-].
  - exists new. repeat split; try assumption. intros; contradiction.
  - destruct (save_seen_does env (SEEN w1) w1) as (_ & HS2 & HT2 & HF2).
    cbn zeta in HS2, HT2, HF2.
    set (o := on_write env (clock w1)) in *.
    set (tail := match o with
                 | WriteDone => []
                 | WriteOpenFails e => [PrintLine (LogWarnSaveSeen e)]
                 | WriteDumpFails e => [PrintLine (LogWarnSaveSeen e)]
                 end) in *.
    assert (Htail : Forall (fun e => silent e = true) tail)
      by (subst tail; destruct o; repeat constructor).
    destruct (silent_trace tail Htail) as (_ & _ & Hwt & Hnt).
    exists (new ++ WriteSeen (sorted_ids (SEEN w1)) o :: tail).
    split; [rewrite HT2, HT, app_assoc; reflexivity|].
    split.
    { rewrite notifications_app, length_app.
      change (notifications (WriteSeen (sorted_ids (SEEN w1)) o :: tail))
        with (notifications tail).
      rewrite Hnt. cbn. lia. }
    split; [intros; contradiction|].
    intros _. exists o. rewrite HS2. split.
    + rewrite writes_app, HW.
      change (writes (WriteSeen (sorted_ids (SEEN w1)) o :: tail))
        with (WriteSeen (sorted_ids (SEEN w1)) o :: writes tail).
      rewrite Hwt. reflexivity.
    + rewrite HF2, HF. reflexivity.
Qed.




Section Recency.

Variable cfg : config.
Variable env : environment.
Variable s : search.
Variable sent_count : Z.
Variable it : item.
Variable w : world.


End Recency.



End CycleFacts.

(** ** The long-running process *)

Module MainFacts.
Import Py Bot Spec FilterFacts ScanFacts IOFacts ItemFacts LoopFacts CycleFacts.

(** *** Pieces that advance the world *)

Lemma respects_seen_unrelated w w' new :
  trace w' = trace w ++ new -> SEEN w ⊆ SEEN w' ->
  evaluated_ids new = [] -> notified_ids new = [] ->
  respects_seen w w' new.
Proof.
  intros Ht Hs E1 E2. unfold respects_seen. rewrite E1, E2.
  split; [exact Ht|]. split; [exact Hs|].
  split; [intros x Hx; inversion Hx|]. split; [apply NoDup_nil_2|].
  split; [intros x Hx; inversion Hx | apply NoDup_nil_2].
Qed.

Lemma advances_ret {A} (a : A) : advances (ret a).
Proof. intros w. reflexivity. Qed.

Lemma advances_throw {A} e : advances (@throw A e).
Proof. intros w. reflexivity. Qed.

Lemma advances_lift {A} (r : result A) : advances (lift r).
Proof. intros w. reflexivity. Qed.

Lemma advances_ask {A} env (f : environment -> nat -> A) : advances (ask env f).
Proof.
  intros w. exists [].
  apply respects_seen_unrelated; cbn; [symmetry; apply app_nil_r|reflexivity..].
Qed.

Lemma advances_emit e :
  evaluated e = None -> notified e = None -> advances (emit e).
Proof.
  intros E1 E2 w. exists [e].
  apply respects_seen_unrelated; [reflexivity | reflexivity | |].
  - unfold evaluated_ids. cbn. rewrite E1. reflexivity.
  - unfold notified_ids. cbn. rewrite E2. reflexivity.
Qed.

Lemma advances_bind {A B} (c : M A) (k : A -> M B) :
  advances c -> (forall a, advances (k a)) -> advances (bind c k).
Proof.
  intros Hc Hk w. unfold bind. specialize (Hc w).
  destruct (c w) as [[e|a] w1]; cbn [snd] in *; [exact Hc|].
  etransitivity; [exact Hc | apply Hk].
Qed.

Lemma advances_try_except {A} (c : M A) (h : exn -> M A) :
  advances c -> (forall e, advances (h e)) -> advances (try_except c h).
Proof.
  intros Hc Hh w. unfold try_except. specialize (Hc w).
  destruct (c w) as [[e|a] w1]; cbn [snd] in *; [|exact Hc].
  etransitivity; [exact Hc | apply Hh].
Qed.

Lemma scan_progress_advance sent w r w' :
  scan_progress sent w r w' -> advance w w'.
Proof. intros (new & H & _). exists new. exact H. Qed.

Lemma advances_items cfg env s sent items :
  advances (for_each (scan_item cfg env s) sent items).
Proof.
  intros w. eapply scan_progress_advance.
  apply for_each_progress. intros. apply scan_item_progress.
Qed.

Lemma advances_searches cfg env sent searches :
  advances (for_each (scan_search cfg env) sent searches).
Proof. intros w. eapply scan_progress_advance. apply searches_progress. Qed.

Lemma advances_save_seen env ids : advances (save_seen env ids).
Proof.
  intros w. destruct (save_seen_does env ids w) as (_ & HS & HT & _).
  cbn zeta in *. eexists. apply respects_seen_unrelated; [exact HT | rewrite HS; reflexivity | |];
    destruct (on_write env (clock w)); reflexivity.
Qed.

Lemma advances_scan_once cfg env : advances (scan_once cfg env).
Proof.
  intros w. rewrite scan_once_does. cbn zeta.
  pose proof (advances_searches cfg env 0 (SEARCHES cfg) w) as Hl.
  destruct (for_each (scan_search cfg env) 0 (SEARCHES cfg) w) as [[e|sent] w1];
    cbn [fst snd] in *; [exact Hl|].
  destruct (sent =? 0); cbn [snd]; [exact Hl|].
  etransitivity; [exact Hl | apply advances_save_seen].
Qed.

Lemma advances_sleep d : advances (sleep d).
Proof.
  unfold sleep. destruct (sleep_error d);
    [apply advances_throw | apply advances_emit; reflexivity].
Qed.

Lemma advances_sleep_poll cfg env : advances (sleep_poll cfg env).
Proof.
  unfold sleep_poll. apply advances_bind; [apply advances_ask|]. intros j.
  apply advances_bind; [apply advances_lift|]. intros p. apply advances_sleep.
Qed.

Lemma advances_main_start cfg env : advances (main_start cfg env).
Proof.
  unfold main_start. apply advances_bind; [apply advances_emit; reflexivity|].
  intros _. apply advances_try_except.
  - apply advances_bind; [apply advances_scan_once | intros; apply advances_ret].
  - intros e. apply advances_emit; reflexivity.
Qed.

Lemma advances_main_iteration cfg env : advances (main_iteration cfg env).
Proof.
  unfold main_iteration. apply advances_try_except.
  - apply advances_bind; [apply advances_scan_once|]. intros sent.
    apply advances_bind; [|intros; apply advances_sleep_poll].
    destruct (negb (sent =? 0)); [apply advances_emit; reflexivity | apply advances_ret].
  - intros e. apply advances_bind; [apply advances_emit; reflexivity|].
    intros _. apply advances_emit; reflexivity.
Qed.

Lemma advances_main_loop cfg env n : advances (main_loop cfg env n).
Proof.
  induction n as [|n IH]; cbn [main_loop]; [apply advances_ret|].
  apply advances_bind; [apply advances_main_iteration | intros; exact IH].
Qed.

Lemma advances_main cfg env n : advances (main cfg env n).
Proof.
  unfold main.
  apply advances_bind; [apply advances_main_start | intros; apply advances_main_loop].
Qed.

(** What [advance] says, spelled out. *)
Lemma advance_spelled_out w w' : advance w w' -> never_again w w'.
Proof.
  intros (new & HT & HS & Hf & Hd & Hn & Hnd). exists new.
  split; [exact HT|]. split; [exact HS|].
  split; [|split; [|split; assumption]].
  - intros x Hx. split; intros Hin.
    + destruct (Hf x Hin). contradiction.
    + destruct (Hf x (Hn x Hin)). contradiction.
  - intros x Hx. apply (Hf x Hx).
Qed.

(** The program is [main] on the world whose seen-set is read from
    [seen.json]. *)
Lemma program_boot cfg env n f :
  program cfg env n (boot f) =
  main cfg env n
    {| SEEN := match f with FileIds ids => list_to_set ids | _ => ∅ end;
       seen_json := f; trace := []; clock := 0 |}.
Proof. unfold program, bind. rewrite load_seen_does. reflexivity. Qed.

(** The whole program, from the start of the process: the ids of
    [seen.json] are never evaluated, and the trace of any number of
    cycles evaluates each id at most once. *)
Lemma program_evaluates_once cfg env n f :
  let w' := snd (program cfg env n (boot f)) in
  NoDup (evaluated_ids (trace w')) /\ NoDup (notified_ids (trace w')) /\
  forall x ids, f = FileIds ids -> x ∈ ids ->
    (x ∉ evaluated_ids (trace w')) /\ (x ∉ notified_ids (trace w')).
Proof.
  intros w'. subst w'. rewrite program_boot.
  set (w0 := {| SEEN := _; seen_json := f; trace := []; clock := 0 |}).
  destruct (advance_spelled_out _ _ (advances_main cfg env n w0))
    as (new & HT & _ & Hseen & _ & Hd & Hnd).
  cbn [trace w0 app] in HT. rewrite HT.
  split; [exact Hd|]. split; [exact Hnd|].
  intros x ids -> Hx. apply Hseen. subst w0. cbn [SEEN].
  apply elem_of_list_to_set. exact Hx.
Qed.

(** C2. In every piece of a run (the rest of the listings of a query, the
    rest of the queries of a cycle, a cycle, any number of rounds of the
    main loop, the whole of [main]) the new events respect the seen-set:
    a listing id that is in [SEEN] when the piece starts is never passed
    to [evaluate_item] and never notified in it; an id that is passed to
    [evaluate_item] is in [SEEN] from then on; no id is evaluated twice
    and no id is notified twice. Over the whole life of a process, no id
    is evaluated twice and the ids read from [seen.json] are never
    evaluated. *)
Theorem seen_never_reevaluated cfg env :
  (forall s sent items w,
     never_again w (snd (for_each (scan_item cfg env s) sent items w))) /\
  (forall sent searches w,
     never_again w (snd (for_each (scan_search cfg env) sent searches w))) /\
  (forall w, never_again w (snd (scan_once cfg env w))) /\
  (forall n w, never_again w (snd (main_loop cfg env n w))) /\
  (forall n w, never_again w (snd (main cfg env n w))) /\
  (forall n f,
     let w' := snd (program cfg env n (boot f)) in
     NoDup (evaluated_ids (trace w')) /\ NoDup (notified_ids (trace w')) /\
     forall x ids, f = FileIds ids -> x ∈ ids ->
       (x ∉ evaluated_ids (trace w')) /\ (x ∉ notified_ids (trace w'))).
Proof.
  split; [intros; apply advance_spelled_out, advances_items|].
  split; [intros; apply advance_spelled_out, advances_searches|].
  split; [intros; apply advance_spelled_out, advances_scan_once|].
  split; [intros; apply advance_spelled_out, advances_main_loop|].
  split; [intros; apply advance_spelled_out, advances_main|].
  intros n f. apply program_evaluates_once.
Qed.

(** The scenario of the specification over three cycles: the listing
    comes back at every search, and is evaluated and notified once. *)
Lemma seen_never_reevaluated_witness :
  let w' := snd (program Scenario.cfg (Scenario.env [Scenario.listing SNone] 0)
                   3 (boot FileAbsent)) in
  evaluated_ids (trace w') = [7] /\ notified_ids (trace w') = [7] /\
  NoDup (evaluated_ids (trace w')).
Proof.
  intros w'. split; [vm_compute; reflexivity|]. split; [vm_compute; reflexivity|].
  destruct (seen_never_reevaluated Scenario.cfg
              (Scenario.env [Scenario.listing SNone] 0)) as (_ & _ & _ & _ & _ & H).
  apply (H 3%nat FileAbsent).
Defined.

End MainFacts.

(** ** Failures of I/O *)

Module FailureFacts.
Import Py Bot Spec ScanFacts IOFacts.

(** A [try] whose handler returns normally returns normally. *)
Lemma try_except_returns (c : M unit) (h : exn -> M unit) w :
  (forall e w1, fst (h e w1) = ok tt) -> fst (try_except c h w) = ok tt.
Proof.
  intros Hh. unfold try_except.
  destruct (c w) as [[e|[]] w1]; [apply Hh | reflexivity].
Qed.

Lemma main_start_returns cfg env w : fst (main_start cfg env w) = ok tt.
Proof.
  unfold main_start, bind, emit. unfold ok at 1. cbn iota beta.
  apply try_except_returns. intros e w1. reflexivity.
Qed.

Lemma main_iteration_returns cfg env w : fst (main_iteration cfg env w) = ok tt.
Proof.
  unfold main_iteration. apply try_except_returns. intros e w1. reflexivity.
Qed.

Lemma main_loop_returns cfg env n w : fst (main_loop cfg env n w) = ok tt.
Proof.
  revert w. induction n as [|n IH]; intros w; [reflexivity|].
  cbn [main_loop]. unfold bind.
  pose proof (main_iteration_returns cfg env w) as H.
  destruct (main_iteration cfg env w) as [r w1]. cbn [fst] in H. subst r.
  unfold ok. apply IH.
Qed.

Lemma main_returns cfg env n w : fst (main cfg env n w) = ok tt.
Proof.
  unfold main, bind.
  pose proof (main_start_returns cfg env w) as H.
  destruct (main_start cfg env w) as [r w1]. cbn [fst] in H. subst r.
  unfold ok. apply main_loop_returns.
Qed.

Lemma program_returns cfg env n w : fst (program cfg env n w) = ok tt.
Proof.
  unfold program, bind. rewrite load_seen_does. unfold ok at 1 2.
  cbn iota beta. apply main_returns.
Qed.



End FailureFacts.

(** * Further properties of the code *)

(** ** The file of seen ids *)

Module StoreFacts.
Import Py Bot Spec Cover ScanFacts IOFacts.

Lemma list_to_set_sorted_ids (ids : gset Z) : list_to_set (sorted_ids ids) = ids.
Proof.
  unfold sorted_ids.
  rewrite (list_to_set_perm_L _ _ (merge_sort_Permutation Z.le (elements ids))).
  apply list_to_set_elements_L.
Qed.

Lemma strictly_sorted (l : list Z) :
  StronglySorted Z.le l -> NoDup l -> StronglySorted Z.lt l.
Proof.
  induction 1 as [|x l Hs IH Hall]; intros Hd; [constructor|].
  apply NoDup_cons in Hd as [Hx Hd]. constructor; [apply IH, Hd|].
  rewrite List.Forall_forall in *. intros y Hy.
  specialize (Hall y Hy).
  assert (x <> y) by (intros ->; apply Hx, list_elem_of_In, Hy). lia.
Qed.

Lemma sorted_ids_strict (ids : gset Z) : StronglySorted Z.lt (sorted_ids ids).
Proof.
  apply strictly_sorted.
  - unfold sorted_ids. apply StronglySorted_merge_sort; apply _.
  - unfold sorted_ids.
    rewrite (merge_sort_Permutation Z.le (elements ids)). apply NoDup_elements.
Qed.

Lemma elem_of_sorted_ids (ids : gset Z) x : x ∈ sorted_ids ids <-> x ∈ ids.
Proof.
  unfold sorted_ids.
  rewrite (merge_sort_Permutation Z.le (elements ids)). apply elem_of_elements.
Qed.

(** X1. What [save_seen] has written, [load_seen] reads back: after a
    write that succeeds, loading returns the very set that was saved. *)
Theorem save_then_load env (ids : gset Z) w :
  on_write env (clock w) = WriteDone ->
  load_seen (snd (save_seen env ids w)) = (ok ids, snd (save_seen env ids w)).
Proof.
  intros Hw. rewrite load_seen_does.
  destruct (save_seen_does env ids w) as (_ & _ & _ & HF). cbn zeta in HF.
  rewrite Hw in HF. rewrite HF, list_to_set_sorted_ids. reflexivity.
Qed.

Lemma save_then_load_witness :
  fst (load_seen (snd (save_seen (Scenario.env [] 0) {[ 9; 7; 8 ]} (boot FileAbsent))))
  = ok {[ 9; 7; 8 ]}.
Proof.
  rewrite (save_then_load (Scenario.env [] 0) {[ 9; 7; 8 ]} (boot FileAbsent));
    reflexivity.
Defined.

(** X2. The list that [save_seen] writes holds each id of the set once,
    in increasing order. *)
Theorem saved_ids_sorted env (ids : gset Z) w :
  on_write env (clock w) = WriteDone ->
  exists l,
    seen_json (snd (save_seen env ids w)) = FileIds l /\
    StronglySorted Z.lt l /\
    forall x, x ∈ l <-> x ∈ ids.
Proof.
  intros Hw.
  destruct (save_seen_does env ids w) as (_ & _ & _ & HF). cbn zeta in HF.
  rewrite Hw in HF. exists (sorted_ids ids).
  split; [exact HF|]. split; [apply sorted_ids_strict|].
  intros x. apply elem_of_sorted_ids.
Qed.

Lemma saved_ids_sorted_witness :
  seen_json (snd (save_seen (Scenario.env [] 0) {[ 9; 7; 8 ]} (boot FileAbsent)))
  = FileIds [7; 8; 9].
Proof.
  destruct (saved_ids_sorted (Scenario.env [] 0) {[ 9; 7; 8 ]} (boot FileAbsent))
    as (l & Hl & _); [reflexivity|].
  rewrite Hl. vm_compute in Hl. injection Hl as <-. reflexivity.
Defined.

End StoreFacts.

(** ** What a pass over listings leaves in the seen-set *)

Module SeenFacts.
Import Py Bot Spec Cover FilterFacts ParserFacts ScanFacts IOFacts ItemFacts LoopFacts CycleFacts.

Lemma item_info_id it i : item_info it = ok i -> id i = item_id it.
Proof.
  rewrite item_info_price.
  destruct (parse_float _); [discriminate|]. intros [= <-]. reflexivity.
Qed.

Lemma recorded_ids_cons it items :
  recorded_ids (it :: items) =
  match recorded_id it with
  | Some x => {[ x ]} ∪ recorded_ids items
  | None => recorded_ids items
  end.
Proof. unfold recorded_ids. cbn. destruct (recorded_id it); reflexivity. Qed.

Lemma elem_of_recorded_ids x items :
  x ∈ recorded_ids items <-> exists it, it ∈ items /\ recorded_id it = Some x.
Proof.
  unfold recorded_ids. rewrite elem_of_list_to_set, list_elem_of_omap. reflexivity.
Qed.

Section OneItem.

Variable cfg : config.
Variable env : environment.
Variable s : search.
Variable sent_count : Z.
Variable it : item.
Variable w : world.

(** A listing without id, or with an id that is in the seen-set, costs
    nothing: no event, no reading of the clock, no change. *)
Lemma scan_item_idle i :
  item_info it = ok i ->
  (forall x, recorded_id it = Some x -> x ∈ SEEN w) ->
  scan_item cfg env s sent_count it w = (ok sent_count, w).
Proof.
  intros H Hrec. pose proof (item_info_id it i H) as Hid.
  unfold recorded_id in Hrec. rewrite <- Hid in Hrec.
  unfold scan_item. unfold bind at 1. unfold lift at 1. rewrite H.
  unfold ok at 1. cbn iota beta.
  destruct (id i) as [x|]; [|reflexivity].
  destruct (x =? 0); [reflexivity|].
  unfold bind at 1. unfold get_SEEN. unfold ok at 1. cbn iota beta.
  destruct (decide (x ∈ SEEN w)) as [_|Hx]; [reflexivity|].
  exfalso. apply Hx, Hrec. reflexivity.
Qed.

(** A round that returns has normalised its listing and has its id, if
    any, in the seen-set; nothing else enters the seen-set. *)
Lemma scan_item_records sent' :
  fst (scan_item cfg env s sent_count it w) = ok sent' ->
  (exists i, item_info it = ok i) /\
  SEEN (snd (scan_item cfg env s sent_count it w))
    = SEEN w ∪ recorded_ids [it].
Proof.
  intros Hr. rewrite recorded_ids_cons.
  change (recorded_ids []) with (∅ : gset Z).
  destruct (item_info it) as [e|i] eqn:H.
  { destruct (scan_item_failed cfg env s sent_count it w e H) as (_ & Hf & _).
    rewrite Hf in Hr. discriminate. }
  split; [eauto|].
  pose proof (item_info_id it i H) as Hid. unfold recorded_id. rewrite <- Hid.
  destruct (id i) as [x|] eqn:Hx.
  2:{ destruct (scan_item_no_id cfg env s sent_count it w i H) as (_ & _ & HS & _);
        [rewrite Hx; reflexivity|].
      rewrite HS. set_solver. }
  destruct (Z.eqb_spec x 0) as [->|Hx0].
  { destruct (scan_item_no_id cfg env s sent_count it w i H) as (_ & _ & HS & _);
      [rewrite Hx; reflexivity|].
    rewrite HS. set_solver. }
  destruct (decide (x ∈ SEEN w)) as [Hin|Hout].
  { destruct (scan_item_seen cfg env s sent_count it w i x H Hx Hin) as (_ & _ & HS & _).
    rewrite HS. set_solver. }
  destruct (is_recent_at_ok (MAX_ITEM_AGE_MIN cfg) (on_now env (clock w)) (created_dt i))
    as [[|] Hb].
  - destruct (scan_item_fresh cfg env s sent_count it w i x H Hx Hx0 Hout Hb)
      as [tele Hstep].
    destruct (fst (fst (evaluate_in_order s i)));
      destruct Hstep as (_ & _ & _ & _ & HS & _); rewrite HS; set_solver.
  - destruct (scan_item_stale cfg env s sent_count it w i x H Hx Hx0 Hout Hb)
      as (_ & _ & _ & HS & _).
    rewrite HS. set_solver.
Qed.

(** A listing that [item_info] normalises never makes the round raise. *)
Lemma scan_item_returns i :
  item_info it = ok i ->
  exists sent', fst (scan_item cfg env s sent_count it w) = ok sent'.
Proof.
  intros H. destruct (scan_item_does cfg env s sent_count it w) as [o Ho].
  destruct o as [|e|x|x j|x j tele]; destruct Ho as (_ & Ho).
  - destruct Ho as (-> & _). eauto.
  - destruct Ho as (_ & _ & _ & He). rewrite H in He. discriminate.
  - destruct Ho as (-> & _). eauto.
  - destruct Ho as (-> & _). eauto.
  - destruct Ho as (-> & _). eauto.
Qed.

End OneItem.

(** X3. A pass over the listings of a search that ends normally leaves
    in the seen-set exactly what was there before and the ids of the
    listings, whether they were matched, rejected, too old or known. *)
Theorem pass_records_every_id cfg env s items :
  forall sent w sent' w',
    for_each (scan_item cfg env s) sent items w = (ok sent', w') ->
    SEEN w' = SEEN w ∪ recorded_ids items.
Proof.
  induction items as [|it items IH]; intros sent w sent' w'.
  - cbn. intros [= _ <-]. unfold recorded_ids. cbn. set_solver.
  - cbn [for_each]. unfold bind at 1.
    destruct (scan_item cfg env s sent it w) as [[e|sent1] w1] eqn:E;
      [discriminate|].
    intros Hrest. apply IH in Hrest.
    destruct (scan_item_records cfg env s sent it w sent1) as [_ HS];
      [rewrite E; reflexivity|].
    rewrite E in HS. cbn [snd] in HS.
    rewrite Hrest, HS, recorded_ids_cons. rewrite recorded_ids_cons.
    change (recorded_ids []) with (∅ : gset Z).
    destruct (recorded_id it); set_solver.
Qed.

Lemma pass_records_every_id_witness :
  let q := {| name := lit "Pokemon bulk"; query := lit "lot cartes pokemon";
              max_price := None; max_unit_price := Some float_0_06;
              min_quantity := Some 80 |} in
  let items := [Scenario.listing SNone; Scenario.dear_listing;
                Scenario.listing (SInt 1000)] in
  let run := for_each (scan_item Scenario.cfg (Scenario.env [] 8200) q) 0 items
               (boot FileAbsent) in
  fst run = ok 1 /\ SEEN (snd run) = ∅ ∪ recorded_ids items.
Proof.
  intros q items run. split; [vm_compute; reflexivity|].
  apply (pass_records_every_id Scenario.cfg (Scenario.env [] 8200) q items
           0 (boot FileAbsent) 1 (snd run)).
  vm_compute. reflexivity.
Defined.

(** A pass that ends normally has normalised every listing and has
    every id in the seen-set, which has only grown. *)
Lemma pass_marks cfg env s items :
  forall sent w sent' w',
    for_each (scan_item cfg env s) sent items w = (ok sent', w') ->
    SEEN w ⊆ SEEN w' /\
    forall it, it ∈ items ->
      (exists i, item_info it = ok i) /\
      (forall x, recorded_id it = Some x -> x ∈ SEEN w').
Proof.
  induction items as [|it items IH]; intros sent w sent' w'.
  - cbn. intros [= _ <-]. split; [reflexivity|]. intros it Hit. inversion Hit.
  - cbn [for_each]. unfold bind at 1.
    destruct (scan_item cfg env s sent it w) as [[e|sent1] w1] eqn:E;
      [discriminate|].
    intros Hrest. destruct (IH _ _ _ _ Hrest) as [Hsub Hall].
    destruct (scan_item_records cfg env s sent it w sent1) as [Hi HS];
      [rewrite E; reflexivity|].
    rewrite E in HS. cbn [snd] in HS. rewrite recorded_ids_cons in HS.
    change (recorded_ids []) with (∅ : gset Z) in HS.
    assert (Hsub1 : SEEN w ⊆ SEEN w1) by (rewrite HS; apply union_subseteq_l).
    split; [transitivity (SEEN w1); assumption|].
    intros it' Hit'. apply elem_of_cons in Hit' as [->|Hit']; [|apply Hall, Hit'].
    split; [exact Hi|]. intros x Hx. apply Hsub. rewrite HS, Hx.
    apply elem_of_union_r, elem_of_union_l, elem_of_singleton. reflexivity.
Qed.

(** A pass over listings that are all known is idle. *)
Lemma pass_idle cfg env s items w :
  (forall it, it ∈ items ->
     (exists i, item_info it = ok i) /\
     (forall x, recorded_id it = Some x -> x ∈ SEEN w)) ->
  forall sent, for_each (scan_item cfg env s) sent items w = (ok sent, w).
Proof.
  induction items as [|it items IH]; intros Hall sent; [reflexivity|].
  cbn [for_each]. unfold bind at 1.
  destruct (Hall it) as [[i Hi] Hx]; [apply elem_of_cons; auto|].
  rewrite (scan_item_idle cfg env s sent it w i Hi Hx).
  apply IH. intros it' Hit'. apply Hall, elem_of_cons. auto.
Qed.

(** X4. Once a pass over some listings has ended normally, passing over
    the same listings again, for any query and in any later state of the
    process, does nothing at all: no evaluation, no notification, no
    reading of the clock, and the counter is unchanged. *)
Theorem second_pass_is_idle cfg env s items sent w sent' w' :
  for_each (scan_item cfg env s) sent items w = (ok sent', w') ->
  forall s2 sent2 w2,
    SEEN w' ⊆ SEEN w2 ->
    for_each (scan_item cfg env s2) sent2 items w2 = (ok sent2, w2).
Proof.
  intros H s2 sent2 w2 Hsub.
  destruct (pass_marks cfg env s items sent w sent' w' H) as [_ Hall].
  apply pass_idle. intros it Hit. destruct (Hall it Hit) as [Hi Hx].
  split; [exact Hi|]. intros x Hr. apply Hsub, Hx, Hr.
Qed.

Lemma second_pass_is_idle_witness :
  let q := {| name := lit "Pokemon bulk"; query := lit "lot cartes pokemon";
              max_price := None; max_unit_price := Some float_0_06;
              min_quantity := Some 80 |} in
  let q2 := {| name := lit "Lego vrac"; query := lit "lego vrac lot";
               max_price := Some 30%float; max_unit_price := None;
               min_quantity := None |} in
  let items := [Scenario.listing SNone; Scenario.dear_listing] in
  let w1 := snd (for_each (scan_item Scenario.cfg (Scenario.env [] 0) q) 0 items
                   (boot FileAbsent)) in
  for_each (scan_item Scenario.cfg (Scenario.env [] 0) q2) 5 items w1 = (ok 5, w1).
Proof.
  intros q q2 items w1.
  apply (second_pass_is_idle Scenario.cfg (Scenario.env [] 0) q items
           0 (boot FileAbsent) 1 w1); [vm_compute; reflexivity | reflexivity].
Defined.

(** *** Cycles that return *)

Lemma pass_returns cfg env s items :
  (forall it, it ∈ items -> exists i, item_info it = ok i) ->
  forall sent w,
    exists sent', fst (for_each (scan_item cfg env s) sent items w) = ok sent'.
Proof.
  induction items as [|it items IH]; intros Hall sent w; [cbn; eauto|].
  cbn [for_each]. unfold bind at 1.
  destruct (Hall it) as [i Hi]; [apply elem_of_cons; auto|].
  destruct (scan_item_returns cfg env s sent it w i Hi) as [sent1 H1].
  destruct (scan_item cfg env s sent it w) as [r1 w1]. cbn [fst] in H1. subst r1.
  unfold ok at 1. cbn iota beta.
  apply IH. intros it' Hit'. apply Hall, elem_of_cons. auto.
Qed.

Lemma search_reply_items q o it :
  it ∈ fst (search_reply q o) ->
  exists c l, o = GetResponse c (BodyObject (Some l)) /\ it ∈ l.
Proof.
  unfold search_reply. destruct o as [e|c b]; [intros H; inversion H|].
  destruct (negb (c =? 200)); [intros H; inversion H|].
  destruct b as [| |[l|]]; cbn; intros H; try solve [inversion H]. eauto.
Qed.

Lemma scan_search_returns cfg env sent s w :
  listings_normalise env ->
  exists sent', fst (scan_search cfg env sent s w) = ok sent'.
Proof.
  intros Hn. unfold scan_search. unfold bind at 1.
  destruct (search_vinted_does env (query s) w) as [Hr _].
  destruct (search_vinted env (query s) w) as [r1 w1]. cbn [fst] in Hr. subst r1.
  unfold ok at 1. cbn iota beta.
  unfold bind at 1. unfold emit at 1. unfold ok at 1. cbn iota beta.
  apply pass_returns. intros it Hit.
  apply search_reply_items in Hit as (c & l & Ho & Hl).
  exact (Hn _ _ _ _ Ho Hl).
Qed.

Lemma searches_return cfg env searches :
  listings_normalise env ->
  forall sent w,
    exists sent', fst (for_each (scan_search cfg env) sent searches w) = ok sent'.
Proof.
  intros Hn. induction searches as [|s l IH]; intros sent w; [cbn; eauto|].
  cbn [for_each]. unfold bind at 1.
  destruct (scan_search_returns cfg env sent s w Hn) as [sent1 H1].
  destruct (scan_search cfg env sent s w) as [r1 w1]. cbn [fst] in H1. subst r1.
  unfold ok at 1. cbn iota beta. apply IH.
Qed.



(** X6. After a cycle that sent a notification, on a disk that can be
    written, a process that starts again reads from [seen.json] the whole
    seen-set of the end of the cycle: the ids matched, rejected and too
    old of this cycle and of all the cycles before. *)
Theorem cycle_with_match_is_recoverable cfg env w sent w' :
  (forall k, on_write env k = WriteDone) ->
  scan_once cfg env w = (ok sent, w') -> sent <> 0 ->
  load_seen w' = (ok (SEEN w'), w').
Proof.
  intros Hw. rewrite scan_once_does. cbn zeta.
  destruct (for_each (scan_search cfg env) 0 (SEARCHES cfg) w) as [[e|sent1] w1];
    cbn [fst snd]; [discriminate|].
  destruct (Z.eqb_spec sent1 0) as [->|_]; intros [= <- <-] Hne; [contradiction|].
  destruct (save_seen_does env (SEEN w1) w1) as (_ & HS & _ & HF).
  cbn zeta in HS, HF. rewrite Hw in HF.
  rewrite load_seen_does, HF, HS, StoreFacts.list_to_set_sorted_ids. reflexivity.
Qed.

Lemma cycle_with_match_is_recoverable_witness :
  let w' := snd (scan_once Scenario.cfg
                   (Scenario.env [Scenario.listing SNone; Scenario.dear_listing] 0)
                   (boot FileAbsent)) in
  load_seen w' = (ok (SEEN w'), w') /\ elements (SEEN w') = [7; 8].
Proof.
  intros w'. split; [|vm_compute; reflexivity].
  apply (cycle_with_match_is_recoverable Scenario.cfg
           (Scenario.env [Scenario.listing SNone; Scenario.dear_listing] 0)
           (boot FileAbsent) 1 w');
    [reflexivity | vm_compute; reflexivity | lia].
Defined.

End SeenFacts.

(** ** The shape of the traces *)

Module TraceFacts.
Import Py Bot Spec Cover FilterFacts ScanFacts IOFacts ItemFacts LoopFacts CycleFacts.

Section Shapes.

(** A shape of traces that the empty trace has and that concatenation
    keeps. *)
Variable P : list event -> Prop.
Hypothesis P_nil : P [].
Hypothesis P_app : forall a b, P a -> P b -> P (a ++ b).

Lemma emits_same {A} (c : M A) :
  (forall w, trace (snd (c w)) = trace w) -> emits P c.
Proof.
  intros H w. exists []. rewrite app_nil_r. split; [apply H | exact P_nil].
Qed.

Lemma emits_ret {A} (a : A) : emits P (ret a).
Proof. apply emits_same. reflexivity. Qed.

Lemma emits_throw {A} e : emits P (@throw A e).
Proof. apply emits_same. reflexivity. Qed.

Lemma emits_lift {A} (r : result A) : emits P (lift r).
Proof. apply emits_same. reflexivity. Qed.

Lemma emits_ask {A} env (f : environment -> nat -> A) : emits P (ask env f).
Proof. apply emits_same. reflexivity. Qed.

Lemma emits_emit e : P [e] -> emits P (emit e).
Proof. intros H w. exists [e]. split; [reflexivity | exact H]. Qed.

Lemma emits_bind {A B} (c : M A) (k : A -> M B) :
  emits P c -> (forall a, emits P (k a)) -> emits P (bind c k).
Proof.
  intros Hc Hk w. unfold bind. destruct (Hc w) as (n1 & H1 & P1).
  destruct (c w) as [[e|a] w1]; cbn [snd] in *; [eauto|].
  destruct (Hk a w1) as (n2 & H2 & P2).
  exists (n1 ++ n2). split; [rewrite H2, H1; apply eq_sym, app_assoc | auto].
Qed.

Lemma emits_try_except {A} (c : M A) (h : exn -> M A) :
  emits P c -> (forall e, emits P (h e)) -> emits P (try_except c h).
Proof.
  intros Hc Hh w. unfold try_except. destruct (Hc w) as (n1 & H1 & P1).
  destruct (c w) as [[e|a] w1]; cbn [snd] in *; [|eauto].
  destruct (Hh e w1) as (n2 & H2 & P2).
  exists (n1 ++ n2). split; [rewrite H2, H1; apply eq_sym, app_assoc | auto].
Qed.

Lemma emits_for_each {A B} (body : B -> A -> M B) l :
  (forall acc x, x ∈ l -> emits P (body acc x)) ->
  forall acc, emits P (for_each body acc l).
Proof.
  induction l as [|x l IH]; intros Hb acc; [apply emits_ret|].
  cbn [for_each]. apply emits_bind; [apply Hb, elem_of_cons; auto|].
  intros acc'. apply IH. intros acc'' y Hy. apply Hb, elem_of_cons. auto.
Qed.

(** The events of the operations of the bot other than the evaluation
    and the notification of a listing have the shape, one by one. *)
Hypothesis P_quiet : forall e, silent e = true -> P [e].
Hypothesis P_write : forall ids o, P [WriteSeen ids o].

Lemma P_all_quiet l : Forall (fun e => silent e = true) l -> P l.
Proof.
  induction 1 as [|e l He _ IH]; [exact P_nil|].
  change (e :: l) with ([e] ++ l). auto.
Qed.

Lemma emits_search_vinted env q : emits P (search_vinted env q).
Proof.
  intros w. destruct (search_vinted_does env q w) as [_ (_ & _ & HT)].
  eexists. split; [exact HT|]. apply P_all_quiet, search_reply_silent.
Qed.

Lemma emits_save_seen env ids : emits P (save_seen env ids).
Proof.
  intros w. destruct (save_seen_does env ids w) as (_ & _ & HT & _).
  cbn zeta in HT. eexists. split; [exact HT|].
  match goal with |- P (?e :: ?t) => change (e :: t) with ([e] ++ t) end.
  apply P_app; [apply P_write|].
  destruct (on_write env (clock w)); [exact P_nil | |]; apply P_quiet; reflexivity.
Qed.

Variable cfg : config.
Variable env : environment.

(** The rounds of the loop over listings have the shape. *)
Hypothesis P_item : forall s sent it, emits P (scan_item cfg env s sent it).

Lemma emits_scan_search sent s : emits P (scan_search cfg env sent s).
Proof.
  unfold scan_search. apply emits_bind; [apply emits_search_vinted|]. intros items.
  apply emits_bind; [apply emits_emit, P_quiet; reflexivity|]. intros _.
  apply emits_for_each. intros. apply P_item.
Qed.

Lemma emits_scan_once : emits P (scan_once cfg env).
Proof.
  unfold scan_once. apply emits_bind.
  { apply emits_for_each. intros. apply emits_scan_search. }
  intros sent. apply emits_bind; [|intros; apply emits_ret].
  destruct (negb (sent =? 0)); [|apply emits_ret].
  apply emits_bind; [apply emits_same; reflexivity|].
  intros seen. apply emits_save_seen.
Qed.

Lemma emits_sleep_poll : emits P (sleep_poll cfg env).
Proof.
  unfold sleep_poll. apply emits_bind; [apply emits_ask|]. intros j.
  apply emits_bind; [apply emits_lift|]. intros p. unfold sleep.
  destruct (sleep_error _); [apply emits_throw|].
  apply emits_emit, P_quiet. reflexivity.
Qed.

Lemma emits_main_iteration : emits P (main_iteration cfg env).
Proof.
  unfold main_iteration. apply emits_try_except.
  - apply emits_bind; [apply emits_scan_once|]. intros sent.
    apply emits_bind; [|intros; apply emits_sleep_poll].
    destruct (negb (sent =? 0)); [|apply emits_ret].
    apply emits_emit, P_quiet. reflexivity.
  - intros e. apply emits_bind; [|intros _]; apply emits_emit, P_quiet; reflexivity.
Qed.

Lemma emits_main_loop n : emits P (main_loop cfg env n).
Proof.
  induction n as [|n IH]; cbn [main_loop]; [apply emits_ret|].
  apply emits_bind; [apply emits_main_iteration | intros; exact IH].
Qed.

Lemma emits_main n : emits P (main cfg env n).
Proof.
  unfold main. apply emits_bind; [|intros; apply emits_main_loop].
  unfold main_start. apply emits_bind; [apply emits_emit, P_quiet; reflexivity|].
  intros _. apply emits_try_except.
  - apply emits_bind; [apply emits_scan_once | intros; apply emits_ret].
  - intros e. apply emits_emit, P_quiet. reflexivity.
Qed.

End Shapes.

(** *** Notifications and matches *)

Lemma notified_matches_app a b :
  notified_matches a -> notified_matches b -> notified_matches (a ++ b).
Proof.
  induction 1 as [|e tr Hn He _ IH|s i q u tr Hv _ IH|s i q u tele tr Hv Ht _ IH];
    intros Hb; cbn [app].
  - exact Hb.
  - apply nm_other; auto.
  - eapply nm_rejected; eauto.
  - rewrite <- app_assoc. eapply nm_matched; eauto.
Qed.

Lemma notified_matches_quiet e : silent e = true -> notified_matches [e].
Proof.
  intros H. apply nm_other; [| |constructor].
  - destruct e as [[]| | | | |]; try discriminate; reflexivity.
  - intros s i ->. discriminate.
Qed.

Lemma notified_matches_write ids o : notified_matches [WriteSeen ids o].
Proof. apply nm_other; [reflexivity | intros s i; discriminate | constructor]. Qed.

(** The trace of a round on a new and recent listing: the evaluation,
    then the notification of the message built from its verdict if the
    verdict is a match. *)
Lemma scan_item_fresh_trace cfg env s sent_count it w i x :
  item_info it = ok i -> id i = Some x -> x <> 0 -> x ∉ SEEN w ->
  is_recent_at (MAX_ITEM_AGE_MIN cfg) (on_now env (clock w)) (created_dt i)
    = ok true ->
  exists q u tele,
    trace (snd (scan_item cfg env s sent_count it w))
      = trace w ++ Evaluate s i :: tele /\
    ((evaluate_item s i = ok (false, q, u) /\ tele = []) \/
     (evaluate_item s i = ok (true, q, u) /\
      telegram_trace (match_message s i (true, q, u)) tele)).
Proof.
  intros H Hid Hx0 Hx Hrec.
  destruct (scan_item cfg env s sent_count it w) as [r0 w0] eqn:E.
  cbn [fst snd]. revert E.
  unfold scan_item. unfold bind at 1. unfold lift at 1. rewrite H.
  unfold ok at 1. cbn iota beta. rewrite Hid.
  destruct (Z.eqb_spec x 0); [contradiction|].
  unfold bind at 1. unfold get_SEEN. unfold ok at 1. cbn iota beta.
  destruct (decide (x ∈ SEEN w)); [contradiction|].
  assert (Hr : exists w1, is_recent cfg env (created_dt i) w = (ok true, w1) /\
                          after w [] w1).
  { destruct (created_dt i) as [t|].
    - destruct (is_recent_known cfg env t w) as (b & Hb & Hf & Ha).
      rewrite Hrec in Hb. injection Hb as <-.
      destruct (is_recent cfg env (Some t) w) as [r1 w1]. cbn in Hf, Ha.
      subst r1. eauto.
    - exists w. split; [reflexivity|]. unfold after. rewrite app_nil_r. auto. }
  destruct Hr as (w1 & Hr & HS1 & HF1 & HT1). rewrite app_nil_r in HT1.
  unfold bind at 1. rewrite Hr. unfold ok at 1. cbn iota beta. cbn [negb].
  destruct (evaluate_item s i) as [e|[[m q] u]] eqn:Hv;
    [rewrite evaluate_item_in_order in Hv; discriminate|].
  destruct m.
  - run.
    match goal with
    | |- context [send_telegram cfg env ?msg ?w2] =>
        destruct (send_telegram_does cfg env msg w2) as (Hok & tele & Htele & HS & HF & HT);
        destruct (send_telegram cfg env msg w2) as [r2 w3]
    end.
    cbn in Hok, HS, HF, HT. subst r2. intros [= <- <-].
    exists q, u, tele. rewrite HT, HT1, <- app_assoc.
    split; [reflexivity|]. right. split; [reflexivity | exact Htele].
  - run. intros [= <- <-]. exists q, u, []. cbn. rewrite HT1.
    split; [reflexivity|]. left. split; reflexivity.
Qed.

Lemma scan_item_notified_matches cfg env s sent it :
  emits notified_matches (scan_item cfg env s sent it).
Proof.
  intros w.
  assert (Hsame : trace (snd (scan_item cfg env s sent it w)) = trace w ->
                  exists new, trace (snd (scan_item cfg env s sent it w))
                                = trace w ++ new /\ notified_matches new).
  { intros HT. exists []. rewrite app_nil_r. split; [exact HT | constructor]. }
  destruct (item_info it) as [e|i] eqn:H.
  { apply Hsame. apply (scan_item_failed cfg env s sent it w e H). }
  destruct (id i) as [x|] eqn:Hx.
  2:{ apply Hsame.
      apply (scan_item_no_id cfg env s sent it w i H). rewrite Hx. reflexivity. }
  destruct (Z.eqb_spec x 0) as [->|Hx0].
  { apply Hsame.
    apply (scan_item_no_id cfg env s sent it w i H). rewrite Hx. reflexivity. }
  destruct (decide (x ∈ SEEN w)) as [Hin|Hout].
  { apply Hsame. apply (scan_item_seen cfg env s sent it w i x H Hx Hin). }
  destruct (is_recent_at_ok (MAX_ITEM_AGE_MIN cfg) (on_now env (clock w)) (created_dt i))
    as [[|] Hb].
  - destruct (scan_item_fresh_trace cfg env s sent it w i x H Hx Hx0 Hout Hb)
      as (q & u & tele & HT & [[Hv ->]|[Hv Htele]]).
    + eexists. split; [exact HT|]. eapply nm_rejected; [exact Hv | constructor].
    + exists (Evaluate s i :: tele ++ []). rewrite app_nil_r.
      split; [exact HT|]. rewrite <- (app_nil_r tele) at 1.
      eapply nm_matched; [exact Hv | exact Htele | constructor].
  - apply Hsame.
    apply (scan_item_stale cfg env s sent it w i x H Hx Hx0 Hout Hb).
Qed.

Lemma main_notified_matches cfg env n : emits notified_matches (main cfg env n).
Proof.
  apply emits_main;
    auto using nm_nil, notified_matches_app, notified_matches_quiet,
      notified_matches_write, scan_item_notified_matches.
Qed.

Lemma notification_message_is e m :
  notification_message e = Some m -> is_notification e = true.
Proof. destruct e as [[]| | | | |]; try discriminate; reflexivity. Qed.

Lemma telegram_trace_message msg tele e m :
  telegram_trace msg tele -> e ∈ tele -> notification_message e = Some m ->
  m = msg.
Proof.
  intros [| |l [[x ->]|[c [-> _]]]] He Hm;
    repeat (apply elem_of_cons in He as [->|He]); try solve [inversion He];
    cbn in Hm; congruence.
Qed.

(** In such a trace every notification has its match. *)
Lemma notified_matches_justified tr :
  notified_matches tr ->
  forall e m, e ∈ tr -> notification_message e = Some m ->
    exists s i q u,
      Evaluate s i ∈ tr /\ evaluate_item s i = ok (true, q, u) /\
      m = match_message s i (true, q, u).
Proof.
  induction 1 as [|e0 tr Hn He _ IH|s i q u tr Hv _ IH|s i q u tele tr Hv Ht _ IH];
    intros e m Hin Hm.
  - inversion Hin.
  - apply elem_of_cons in Hin as [->|Hin].
    + apply notification_message_is in Hm. congruence.
    + destruct (IH e m Hin Hm) as (s & i & q & u & Hev & Hrest).
      exists s, i, q, u. split; [apply elem_of_cons; auto | exact Hrest].
  - apply elem_of_cons in Hin as [->|Hin]; [discriminate|].
    destruct (IH e m Hin Hm) as (s' & i' & q' & u' & Hev & Hrest).
    exists s', i', q', u'. split; [apply elem_of_cons; auto | exact Hrest].
  - apply elem_of_cons in Hin as [->|Hin]; [discriminate|].
    apply elem_of_app in Hin as [Hin|Hin].
    + exists s, i, q, u. split; [apply elem_of_cons; auto|]. split; [exact Hv|].
      eapply telegram_trace_message; eauto.
    + destruct (IH e m Hin Hm) as (s' & i' & q' & u' & Hev & Hrest).
      exists s', i', q', u'. split; [|exact Hrest].
      apply elem_of_cons. right. apply elem_of_app. auto.
Qed.

Lemma telegram_trace_no_match msg tele :
  telegram_trace msg tele -> List.filter is_match tele = [].
Proof. intros [| |l _]; reflexivity. Qed.

(** In such a trace there are as many notifications as matches. *)
Lemma notified_matches_count tr :
  notified_matches tr ->
  length (notifications tr) = length (List.filter is_match tr).
Proof.
  unfold notifications.
  induction 1 as [|e0 tr Hn He _ IH|s i q u tr Hv _ IH|s i q u tele tr Hv Ht _ IH].
  - reflexivity.
  - cbn [List.filter]. rewrite Hn.
    assert (Hm : is_match e0 = false).
    { destruct e0 as [| | | | |s i]; try reflexivity. exfalso. apply (He s i). reflexivity. }
    rewrite Hm. exact IH.
  - cbn [List.filter is_notification is_match]. rewrite Hv. unfold ok. exact IH.
  - cbn [List.filter is_notification is_match]. rewrite Hv.
    rewrite !List.filter_app, !length_app. cbn [length].
    destruct (telegram_trace_shows _ _ Ht) as (_ & _ & _ & H1).
    unfold notifications in H1. rewrite H1, (telegram_trace_no_match _ _ Ht).
    unfold ok. cbn [length app]. rewrite IH. lia.
Qed.

(** X7. Over any number of rounds of [main], a notification is sent only
    for a listing that [evaluate_item] matched against the query in the
    same run, and its message is built from that query, that listing and
    the quantity and unit price of that verdict. *)
Theorem notifications_are_matches cfg env n w :
  exists new,
    trace (snd (main cfg env n w)) = trace w ++ new /\
    forall e m, e ∈ new -> notification_message e = Some m ->
      exists s i q u,
        Evaluate s i ∈ new /\ evaluate_item s i = ok (true, q, u) /\
        m = {| msg_name := name s; msg_info := i;
               msg_qty := if int_truthy q then q else None;
               msg_unit_price := u |}.
Proof.
  destruct (main_notified_matches cfg env n w) as (new & HT & Hnm).
  exists new. split; [exact HT|]. intros e m He Hm.
  destruct (notified_matches_justified new Hnm e m He Hm) as (s & i & q & u & H1 & H2 & H3).
  exists s, i, q, u. auto.
Qed.


(** *** Search requests *)

Lemma searched_app a b : searched (a ++ b) = searched a ++ searched b.
Proof. apply omap_app. Qed.

Lemma searched_get q tr : searched (HttpGet q :: tr) = q :: searched tr.
Proof. reflexivity. Qed.

Lemma telegram_trace_no_search msg tele : telegram_trace msg tele -> searched tele = [].
Proof. intros [| |l _]; reflexivity. Qed.

(** A round of the loop over listings sends no search request. *)
Lemma scan_item_no_search cfg env s sent it :
  emits (fun new => searched new = []) (scan_item cfg env s sent it).
Proof.
  intros w. destruct (scan_item_does cfg env s sent it w) as [o Ho].
  destruct o as [|e|x|x i|x i tele]; destruct Ho as (_ & Ho).
  - destruct Ho as (_ & _ & HT). exists []. rewrite app_nil_r. auto.
  - destruct Ho as (_ & _ & HT & _). exists []. rewrite app_nil_r. auto.
  - destruct Ho as (_ & _ & _ & HT). exists []. rewrite app_nil_r. auto.
  - destruct Ho as (_ & _ & _ & _ & HT). eexists. split; [exact HT | reflexivity].
  - destruct Ho as (_ & _ & _ & _ & HT & msg & _ & Htele).
    eexists. split; [exact HT|].
    change (searched (Evaluate s i :: tele)) with (searched tele).
    eapply telegram_trace_no_search, Htele.
Qed.

Lemma searched_nil_app a b : searched a = [] -> searched b = [] -> searched (a ++ b) = [].
Proof. intros Ha Hb. rewrite searched_app, Ha, Hb. reflexivity. Qed.

(** The part of a scan for one query sends one request, for that
    query. *)
Lemma scan_search_one_request cfg env sent s w :
  exists new,
    trace (snd (scan_search cfg env sent s w)) = trace w ++ new /\
    searched new = [query s].
Proof.
  unfold scan_search. unfold bind at 1.
  destruct (search_vinted_does env (query s) w) as [Hr (_ & _ & HT)].
  destruct (search_vinted env (query s) w) as [r1 w1]. cbn [fst snd] in Hr, HT.
  subst r1. unfold ok at 1. cbn iota beta.
  unfold bind at 1. unfold emit at 1. unfold ok at 1. cbn iota beta.
  match goal with
  | |- context [for_each ?b ?a ?l ?w2] =>
      destruct (emits_for_each (fun new => searched new = []) eq_refl
                  searched_nil_app b l
                  (fun acc x _ => scan_item_no_search cfg env s acc x) a w2)
        as (n2 & H2 & P2)
  end.
  cbn [trace] in H2. rewrite H2, HT, <- !app_assoc.
  eexists. split; [reflexivity|].
  assert (Hq : searched (snd (search_reply (query s) (on_get env (clock w)))) = []).
  { unfold search_reply. destruct (on_get env (clock w)) as [e|c b]; [reflexivity|].
    destruct (negb (c =? 200)); [reflexivity|]. destruct b; reflexivity. }
  rewrite !searched_app, P2, searched_get, Hq. reflexivity.
Qed.

Lemma searches_requests cfg env searches :
  forall sent w,
    exists new done,
      trace (snd (for_each (scan_search cfg env) sent searches w)) = trace w ++ new /\
      searched new = map query done /\
      done `prefix_of` searches /\
      (forall sent', fst (for_each (scan_search cfg env) sent searches w) = ok sent' ->
                     done = searches).
Proof.
  induction searches as [|s l IH]; intros sent w.
  - exists [], []. cbn. rewrite app_nil_r. repeat split; auto.
  - cbn [for_each]. unfold bind.
    destruct (scan_search_one_request cfg env sent s w) as (n1 & H1 & Q1).
    destruct (scan_search cfg env sent s w) as [[e|sent1] w1]; cbn [fst snd] in *.
    + exists n1, [s]. split; [exact H1|]. split; [exact Q1|].
      split; [exists l; reflexivity | discriminate].
    + destruct (IH sent1 w1) as (n2 & done & H2 & Q2 & Hp & Hd).
      exists (n1 ++ n2), (s :: done).
      split; [rewrite H2, H1; apply eq_sym, app_assoc|].
      split; [rewrite searched_app, Q1, Q2; reflexivity|].
      split; [apply prefix_cons, Hp|].
      intros sent' Hs. f_equal. eapply Hd, Hs.
Qed.

(** X9. A scan cycle sends one search request for each query of
    [SEARCHES], in the order of the list, whatever the earlier searches
    answered; a cycle cut by an exception has sent the requests of the
    queries up to the one it was working on. *)
Theorem one_request_per_query cfg env w :
  exists new done,
    trace (snd (scan_once cfg env w)) = trace w ++ new /\
    searched new = map query done /\
    done `prefix_of` SEARCHES cfg /\
    (forall sent, fst (scan_once cfg env w) = ok sent -> done = SEARCHES cfg).
Proof.
  rewrite scan_once_does. cbn zeta.
  destruct (searches_requests cfg env (SEARCHES cfg) 0 w) as (new & done & HT & Hq & Hp & Hd).
  destruct (for_each (scan_search cfg env) 0 (SEARCHES cfg) w) as [[e|sent1] w1];
    cbn [fst snd] in *.
  - exists new, done. split; [exact HT|]. split; [exact Hq|].
    split; [exact Hp | discriminate].
  - destruct (sent1 =? 0); cbn [fst snd].
    + exists new, done. split; [exact HT|]. split; [exact Hq|].
      split; [exact Hp | eauto].
    + destruct (save_seen_does env (SEEN w1) w1) as (_ & _ & HT2 & _).
      cbn zeta in HT2. eexists _, done.
      split; [rewrite HT2, HT, <- app_assoc; reflexivity|].
      split; [|split; eauto].
      rewrite searched_app, Hq.
      destruct (on_write env (clock w1)); cbn; apply app_nil_r.
Qed.

End TraceFacts.

(** ** Titles and prices as texts *)

Module TextFacts.
Import Py Bot Spec Cover UnicodeFacts QuantityFacts.

(** *** The first number of a title *)

Lemma drop_while_no_decimal before s :
  no_decimal before ->
  drop_while (fun c => negb (isdecimal c)) (before ++ s)
  = drop_while (fun c => negb (isdecimal c)) s.
Proof.
  induction 1 as [|c before Hc _ IH]; [reflexivity|].
  cbn. rewrite Hc. exact IH.
Qed.

Lemma take_while_all_decimal_app run rest :
  all_decimal run ->
  take_while isdecimal (run ++ rest) = run ++ take_while isdecimal rest.
Proof.
  induction 1 as [|c run Hc _ IH]; [reflexivity|].
  cbn. rewrite Hc, IH. reflexivity.
Qed.

Lemma first_digit_run_build before run rest :
  no_decimal before -> all_decimal run -> run <> [] ->
  (length run <= 5)%nat ->
  (length run = 5%nat \/
   match rest with [] => True | c :: _ => isdecimal c = false end) ->
  first_digit_run (before ++ run ++ rest) = Some run.
Proof.
  intros Hb Hr Hne Hlen Hend. unfold first_digit_run.
  rewrite (drop_while_no_decimal before _ Hb).
  destruct run as [|c run]; [congruence|].
  inversion Hr as [|? ? Hc Hrun]; subst.
  cbn [app drop_while]. rewrite Hc. cbn [negb].
  change (c :: run ++ rest) with ((c :: run) ++ rest).
  rewrite (take_while_all_decimal_app (c :: run) rest Hr).
  f_equal. rewrite firstn_app.
  rewrite (firstn_all2 (c :: run)) by exact Hlen.
  destruct Hend as [H5|Hrest].
  - rewrite H5, Nat.sub_diag. cbn. f_equal. apply app_nil_r.
  - destruct rest as [|c' rest]; cbn [take_while]; [|rewrite Hrest];
      rewrite firstn_nil; cbn; f_equal; apply app_nil_r.
Qed.

(** X10. Only the first number of a title counts. When a title is made
    of characters that are not digits, then one to five digits, then
    either anything at all if there are five digits or something that
    does not start with a digit, the quantity is the number that these
    digits write if it lies between 1 and 5000, and is absent otherwise:
    later numbers are never read, and a sixth digit is cut off. *)
Theorem first_number_counts before run rest :
  no_decimal before -> all_decimal run -> run <> [] ->
  (length run <= 5)%nat ->
  (length run = 5%nat \/
   match rest with [] => True | c :: _ => isdecimal c = false end) ->
  extract_quantity_from_text (before ++ run ++ rest) =
  match digits_value 0 run with
  | Some n => if (1 <=? n) && (n <=? 5000) then Some n else None
  | None => None
  end.
Proof.
  intros Hb Hr Hne Hlen Hend.
  rewrite extract_quantity_first_run.
  rewrite (first_digit_run_build before run rest Hb Hr Hne Hlen Hend).
  reflexivity.
Qed.

(** "2 lots de 100 cartes" gives 2, and the six digits "012345" give
    1234. *)
Lemma first_number_counts_witness :
  extract_quantity_from_text (lit "2 lots de 100 cartes") = Some 2 /\
  extract_quantity_from_text (lit "lot 012345") = Some 1234.
Proof.
  split.
  - assert (H : no_decimal [] /\ all_decimal (lit "2")).
    { split; repeat constructor. }
    destruct H as [Hb Hr].
    exact (first_number_counts [] (lit "2") (lit " lots de 100 cartes") Hb Hr
             ltac:(discriminate) ltac:(cbn; lia) (or_intror eq_refl)).
  - assert (H : no_decimal (lit "lot ") /\ all_decimal (lit "01234")).
    { split; repeat constructor. }
    destruct H as [Hb Hr].
    exact (first_number_counts (lit "lot ") (lit "01234") (lit "5") Hb Hr
             ltac:(discriminate) ltac:(cbn; lia) (or_introl eq_refl)).
Defined.

(** *** What [parse_float] reads of a text *)

Lemma isdigit_not_space c : isdigit c = true -> isspace c = false.
Proof.
  unfold isdigit. intros H. apply orb_true_iff in H as [H|H].
  - apply isdecimal_not_space, H.
  - apply existsb_exists in H as (r & Hr & Hc).
    assert (Hall : forallb (fun r => forallb (disjoint r) space_ranges)
                     digit_only_ranges = true) by reflexivity.
    rewrite forallb_forall in Hall.
    exact (existsb_disjoint c r space_ranges Hc (Hall r Hr)).
Qed.

Lemma significant_not_space c : significant c = true -> isspace c = false.
Proof.
  unfold significant. intros H.
  apply orb_true_iff in H as [H|H]; [apply orb_true_iff in H as [H|H];
    [apply orb_true_iff in H as [H|H]|]|].
  - apply isdigit_not_space, H.
  - apply Z.eqb_eq in H as ->. reflexivity.
  - apply Z.eqb_eq in H as ->. reflexivity.
  - apply Z.eqb_eq in H as ->. reflexivity.
Qed.

Section Filter.

Variable q : Z -> bool.
Hypothesis q_not_space : forall c, q c = true -> isspace c = false.

Lemma filter_drop_while_space s :
  List.filter q (drop_while isspace s) = List.filter q s.
Proof.
  induction s as [|c s IH]; [reflexivity|]. cbn [drop_while List.filter].
  destruct (isspace c) eqn:Hs; [|reflexivity].
  destruct (q c) eqn:Hq; [|exact IH].
  apply q_not_space in Hq. congruence.
Qed.

Lemma filter_rev_comm (l : str) : List.filter q (rev l) = rev (List.filter q l).
Proof.
  induction l as [|c l IH]; [reflexivity|]. cbn.
  rewrite List.filter_app, IH. cbn.
  destruct (q c); cbn; [reflexivity | apply app_nil_r].
Qed.

(** Stripping removes nothing that the filter would keep. *)
Lemma filter_strip s : List.filter q (strip s) = List.filter q s.
Proof.
  unfold strip.
  rewrite filter_rev_comm, filter_drop_while_space, filter_rev_comm.
  rewrite rev_involutive. apply filter_drop_while_space.
Qed.

End Filter.

Lemma keep_comma_to_dot c :
  isdigit (comma_to_dot c) || (comma_to_dot c =? c_dot) || (comma_to_dot c =? c_minus)
  = significant c.
Proof.
  unfold comma_to_dot, significant.
  destruct (Z.eqb_spec c c_comma) as [->|Hc]; [reflexivity|].
  destruct (isdigit c), (c =? c_dot), (c =? c_minus); reflexivity.
Qed.

Lemma filter_map_comm {A B} (f : A -> B) (p : B -> bool) l :
  List.filter p (map f l) = map f (List.filter (fun x => p (f x)) l).
Proof.
  induction l as [|x l IH]; [reflexivity|]. cbn.
  destruct (p (f x)); cbn; congruence.
Qed.

(** What reaches [float]: the significant characters of the text, in
    order, with dots for commas. *)
Lemma kept_significant s :
  kept s = replace c_comma c_dot (List.filter significant s).
Proof.
  unfold kept, replace. fold comma_to_dot.
  change (fun c => if c =? c_comma then c_dot else c) with comma_to_dot.
  rewrite filter_map_comm.
  rewrite (List.filter_ext _ significant) by (intros c; apply keep_comma_to_dot).
  rewrite (filter_strip significant significant_not_space). reflexivity.
Qed.

Lemma parse_float_kept s :
  parse_float (SStr s) = ok (try_default (float_of_str (kept s)) 0%float).
Proof. reflexivity. Qed.

Lemma filter_idem {A} (p : A -> bool) l :
  List.filter p (List.filter p l) = List.filter p l.
Proof.
  induction l as [|x l IH]; [reflexivity|]. cbn.
  destruct (p x) eqn:E; cbn; rewrite ?E, IH; reflexivity.
Qed.

(** X11. [parse_float] reads of a text only its digits, dots, commas
    and minus signs: any other character, wherever it stands (a currency
    sign, letters, spaces between the digits), changes nothing. *)
Theorem parse_float_reads_significant s :
  parse_float (SStr s) = parse_float (SStr (List.filter significant s)).
Proof.
  rewrite !parse_float_kept, !kept_significant, filter_idem. reflexivity.
Qed.

Lemma significant_comma_to_dot c : significant (comma_to_dot c) = significant c.
Proof.
  unfold comma_to_dot. destruct (Z.eqb_spec c c_comma) as [->|]; reflexivity.
Qed.

Lemma comma_to_dot_idem c : comma_to_dot (comma_to_dot c) = comma_to_dot c.
Proof.
  unfold comma_to_dot. destruct (Z.eqb_spec c c_comma) as [->|Hc]; [reflexivity|].
  destruct (Z.eqb_spec c c_comma); [contradiction | reflexivity].
Qed.

(** X12. A comma is read as a dot: a text and the same text with dots
    for its commas parse to the same float. *)
Theorem parse_float_comma_is_dot s :
  parse_float (SStr s) = parse_float (SStr (replace c_comma c_dot s)).
Proof.
  rewrite !parse_float_kept, !kept_significant. unfold replace.
  change (fun c => if c =? c_comma then c_dot else c) with comma_to_dot.
  rewrite filter_map_comm.
  rewrite (List.filter_ext (fun c => significant (comma_to_dot c)) significant)
    by (intros c; apply significant_comma_to_dot).
  rewrite map_map.
  rewrite (map_ext (fun c => comma_to_dot (comma_to_dot c)) comma_to_dot)
    by (intros c; apply comma_to_dot_idem).
  reflexivity.
Qed.

(** *** Texts that are not a number *)

Lemma digits_value_bad c l :
  In c l -> isdecimal c = false -> forall acc, digits_value acc l = None.
Proof.
  intros Hin Hc. induction l as [|x l IH]; [destruct Hin|]. intros acc.
  cbn [digits_value]. destruct Hin as [->|Hin].
  - unfold isdecimal in Hc. destruct (decimal_value c); [discriminate | reflexivity].
  - destruct (decimal_value x); [apply IH, Hin | reflexivity].
Qed.

(** [float] raises when what is left of the string without its sign and
    its first dot is empty or is not made of decimal digits. *)
Lemma float_of_str_no_number s :
  digits_of (unsigned s) = [] \/ digits_value 0 (digits_of (unsigned s)) = None ->
  float_of_str s = raise ValueError.
Proof.
  unfold float_of_str, digits_of, unsigned.
  destruct s as [|c s']; [reflexivity|].
  destruct (c =? c_minus); cbv beta iota zeta; intros [H|H]; rewrite H;
    try reflexivity;
    match goal with |- match ?x with _ => _ end = _ => destruct x; reflexivity end.
Qed.

Lemma digits_of_cons x b :
  digits_of (x :: b) = if x =? c_dot then b else x :: digits_of b.
Proof.
  unfold digits_of. cbn [take_while drop_while].
  destruct (x =? c_dot); reflexivity.
Qed.

Lemma In_digits_of c body : In c body -> c <> c_dot -> In c (digits_of body).
Proof.
  intros Hin Hc. induction body as [|x b IH]; [destruct Hin|].
  rewrite digits_of_cons. destruct (Z.eqb_spec x c_dot) as [->|Hx].
  - destruct Hin as [<-|Hin]; [congruence | exact Hin].
  - destruct Hin as [->|Hin]; [left; reflexivity | right; apply IH, Hin].
Qed.

Lemma digits_of_In c body : In c (digits_of body) -> In c body.
Proof.
  induction body as [|x b IH]; [intros []|].
  rewrite digits_of_cons. destruct (x =? c_dot).
  - intros H. right. exact H.
  - intros [->|H]; [left; reflexivity | right; apply IH, H].
Qed.

(** Only the first dot is the decimal point: a second one is left among
    the digits. *)
Lemma second_dot_in_digits body :
  (2 <= count_occ Z.eq_dec body c_dot)%nat -> In c_dot (digits_of body).
Proof.
  induction body as [|x b IH]; [cbn; lia|].
  rewrite digits_of_cons. destruct (Z.eqb_spec x c_dot) as [->|Hx].
  - rewrite count_occ_cons_eq by reflexivity. intros H.
    apply (count_occ_In Z.eq_dec). lia.
  - rewrite count_occ_cons_neq by exact Hx. intros H.
    right. apply IH, H.
Qed.

Lemma unsigned_In c s : In c (unsigned s) -> In c s.
Proof.
  destruct s as [|x s']; [intros []|]. cbn [unsigned].
  destruct (x =? c_minus); [intros H; right; exact H | intros H; exact H].
Qed.

Lemma In_unsigned c s : In c s -> c <> c_minus -> In c (unsigned s).
Proof.
  destruct s as [|x s']; [intros []|]. cbn [unsigned].
  destruct (Z.eqb_spec x c_minus) as [->|Hx]; [|intros H _; exact H].
  intros [<-|H] Hc; [congruence | exact H].
Qed.

Lemma In_tl_unsigned c s : In c (tl s) -> In c (unsigned s).
Proof.
  destruct s as [|x s']; [intros []|]. cbn [unsigned tl].
  destruct (x =? c_minus); [intros H; exact H | intros H; right; exact H].
Qed.

Lemma count_dots_unsigned s :
  count_occ Z.eq_dec (unsigned s) c_dot = count_occ Z.eq_dec s c_dot.
Proof.
  destruct s as [|x s']; [reflexivity|]. cbn [unsigned].
  destruct (Z.eqb_spec x c_minus) as [->|Hx]; [|reflexivity].
  rewrite count_occ_cons_neq; [reflexivity | discriminate].
Qed.

(** X13. A text that is not one number is read as 0.0: [parse_float]
    returns 0.0 when what it keeps of the text holds two decimal
    separators (as in a price with a thousands separator), a minus sign
    after its first character (as in a range of prices), no decimal
    digit at all, or a digit character that is not a decimal digit. *)
Theorem parse_float_malformed_is_zero s :
  (2 <= count_occ Z.eq_dec (kept s) c_dot)%nat \/
  In c_minus (tl (kept s)) \/
  (forall c, In c (kept s) -> isdecimal c = false) \/
  (exists c, In c (kept s) /\ isdecimal c = false /\ c <> c_dot /\ c <> c_minus) ->
  parse_float (SStr s) = ok 0%float.
Proof.
  intros H. rewrite parse_float_kept.
  rewrite float_of_str_no_number; [reflexivity|].
  destruct H as [H|[H|[H|(c & Hin & Hc & Hd & Hm)]]].
  - right. rewrite <- count_dots_unsigned in H.
    apply (digits_value_bad c_dot); [apply second_dot_in_digits, H | reflexivity].
  - right. apply (digits_value_bad c_minus); [|reflexivity].
    apply In_digits_of; [apply In_tl_unsigned, H | discriminate].
  - destruct (digits_of (unsigned (kept s))) as [|c l] eqn:E; [left; reflexivity|].
    right. apply (digits_value_bad c); [left; reflexivity|].
    apply H, unsigned_In, digits_of_In. rewrite E. left. reflexivity.
  - right. apply (digits_value_bad c); [|exact Hc].
    apply In_digits_of; [apply In_unsigned; assumption | exact Hd].
Qed.

(** "1.234,56 EUR" has two separators. *)
Lemma parse_float_malformed_is_zero_witness :
  parse_float (SStr (lit "1.234,56 EUR")) = ok 0%float.
Proof.
  apply parse_float_malformed_is_zero. left. vm_compute. lia.
Defined.

End TextFacts.

(** ** The rules of a query *)

Module RuleFacts.
Import Py Bot Spec Cover QuantityFacts FilterFacts.

Ltac rules_of s i :=
  unfold evaluate_in_order, first_failure,
    rule_min_quantity, rule_max_total_price, rule_max_unit_price;
  cbn [min_quantity max_price max_unit_price title price
       with_min_quantity with_max_price with_max_unit_price].

Ltac destruct_rules s i :=
  let q := fresh "q" in
  let m := fresh "m" in
  let mp := fresh "mp" in
  let c := fresh "c" in
  destruct (extract_quantity_from_text (title i)) as [q|];
  (destruct (min_quantity s) as [m|];
     [destruct (Z.eqb_spec m 0) as [->|?];
        [|try (destruct (Z.leb_spec m q))]|]);
  (destruct (max_price s) as [mp|];
     [destruct (PrimFloat.ltb mp (price i))|]);
  (destruct (max_unit_price s) as [c|];
     [try (destruct (0 <? q); [destruct (PrimFloat.ltb c _)|])|]);
  cbn [negb].

(** X14. A listing is matched exactly when it passes every rule that the
    query configures: a minimum quantity that is not zero is reached by
    the quantity read in the title, the price does not exceed the price
    ceiling, and the price divided by the quantity read in the title
    does not exceed the unit price ceiling. *)
Theorem match_iff_every_rule s i :
  (exists qty u, evaluate_item s i = ok (true, qty, u)) <->
  (forall m, min_quantity s = Some m -> m <> 0 ->
     exists n, extract_quantity_from_text (title i) = Some n /\ m <= n) /\
  (forall c, max_price s = Some c -> PrimFloat.ltb c (price i) = false) /\
  (forall c, max_unit_price s = Some c ->
     exists n, extract_quantity_from_text (title i) = Some n /\
               PrimFloat.ltb c (PrimFloat.div (price i) (nearest_float n)) = false).
Proof.
  rewrite evaluate_item_in_order. rules_of s i.
  destruct (extract_quantity_from_text (title i)) as [q|] eqn:Hq.
  - pose proof (extract_quantity_range _ _ Hq) as Hr.
    assert (Hq2 : (0 <? q) = true) by lia. rewrite Hq2.
    destruct (min_quantity s) as [m|];
      [destruct (Z.eqb_spec m 0) as [->|Hm]; [|destruct (Z.leb_spec m q) as [Hle|Hlt]]|];
      (destruct (max_price s) as [mp|];
         [destruct (PrimFloat.ltb mp (price i)) eqn:Hmp|]);
      (destruct (max_unit_price s) as [c|];
         [try (destruct (PrimFloat.ltb c _) eqn:Hc)|]);
      cbn [negb];
      (split;
       [ intros (q0 & u0 & Hv); try discriminate Hv;
         repeat split; intros; simplify_eq; eauto; try lia
       | intros (H1 & H2 & H3);
         first
           [ eexists _, _; reflexivity
           | exfalso; specialize (H2 _ eq_refl); congruence
           | exfalso; destruct (H3 _ eq_refl) as (n & [= <-] & Hn); congruence
           | exfalso; destruct (H1 _ eq_refl Hm) as (n & [= <-] & Hn); lia ] ]).
  - destruct (min_quantity s) as [m|];
      [destruct (Z.eqb_spec m 0) as [->|Hm]|];
      (destruct (max_price s) as [mp|];
         [destruct (PrimFloat.ltb mp (price i)) eqn:Hmp|]);
      (destruct (max_unit_price s) as [c|]);
      cbn [negb];
      (split;
       [ intros (q0 & u0 & Hv); try discriminate Hv;
         repeat split; intros; simplify_eq; eauto; try lia
       | intros (H1 & H2 & H3);
         first
           [ eexists _, _; reflexivity
           | exfalso; specialize (H2 _ eq_refl); congruence
           | exfalso; destruct (H3 _ eq_refl) as (n & Hn & _); discriminate Hn
           | exfalso; destruct (H1 _ eq_refl Hm) as (n & Hn & _); discriminate Hn ] ]).
Qed.

(** X15. Relaxing a query never loses a match: a listing that a query
    matches is still matched, with the same quantity, when the minimum
    quantity is lowered to another positive value or switched off, when
    the price ceiling is switched off, and when the unit price ceiling is
    switched off (no unit price is then computed). *)
Theorem relaxing_keeps_match s i qty u :
  evaluate_item s i = ok (true, qty, u) ->
  (forall m m', min_quantity s = Some m -> 0 < m' <= m ->
     evaluate_item (with_min_quantity (Some m') s) i = ok (true, qty, u)) /\
  evaluate_item (with_min_quantity None s) i = ok (true, qty, u) /\
  evaluate_item (with_max_price None s) i = ok (true, qty, u) /\
  evaluate_item (with_max_unit_price None s) i = ok (true, qty, None).
Proof.
  intros H. rewrite evaluate_item_in_order in H.
  split; [|split; [|split]].
  - intros m m' Hm Hm'. rewrite evaluate_item_in_order.
    revert H. rules_of s i. rewrite Hm.
    destruct (Z.eqb_spec m 0); [lia|]. destruct (Z.eqb_spec m' 0); [lia|].
    destruct (extract_quantity_from_text (title i)) as [q|]; [|discriminate].
    destruct (Z.leb_spec m q); [|discriminate].
    destruct (Z.leb_spec m' q); [|lia].
    intros Hv. exact Hv.
  - rewrite evaluate_item_in_order. revert H. rules_of s i. destruct_rules s i;
      cbv beta iota zeta; intros Hv; try discriminate Hv;
      injection Hv as <- <-; reflexivity.
  - rewrite evaluate_item_in_order. revert H. rules_of s i. destruct_rules s i;
      cbv beta iota zeta; intros Hv; try discriminate Hv;
      injection Hv as <- <-; reflexivity.
  - rewrite evaluate_item_in_order. revert H. rules_of s i. destruct_rules s i;
      cbv beta iota zeta; intros Hv; try discriminate Hv;
      injection Hv as <- <-; reflexivity.
Qed.

(** The listing of the scenario of the specification is still matched
    with a minimum of 50, and without any of the rules. *)
Lemma relaxing_keeps_match_witness :
  let s := nth 0 default_searches (Build_search [] [] None None None) in
  let i := {| id := Some 1; title := lit "lot 100 cartes pokemon";
              price := Z_div_nearest 24 10; url := []; created_dt := None |} in
  evaluate_item (with_min_quantity (Some 50) s) i
  = ok (true, Some 100, Some (PrimFloat.div (Z_div_nearest 24 10) 100%float)).
Proof.
  intros s i.
  refine (proj1 (relaxing_keeps_match s i (Some 100) _ _) 80 50 eq_refl _);
    [vm_compute; reflexivity | lia].
Defined.

End RuleFacts.

(** ** Cycles without listings *)

Module QuietFacts.
Import Py Bot Spec Cover IOFacts CycleFacts TraceFacts.

Lemma scan_search_empty cfg env sent s w :
  fst (search_reply (query s) (on_get env (clock w))) = [] ->
  exists w',
    scan_search cfg env sent s w = (ok sent, w') /\
    after w (HttpGet (query s)
               :: snd (search_reply (query s) (on_get env (clock w))) ++ [Sleep]) w'.
Proof.
  intros Hempty. unfold scan_search. unfold bind at 1.
  destruct (search_vinted_does env (query s) w) as [Hr (HS & HF & HT)].
  destruct (search_vinted env (query s) w) as [r1 w1]. cbn [fst snd] in *.
  subst r1. rewrite Hempty. unfold ok at 1. cbn iota beta.
  unfold bind at 1. unfold emit at 1. unfold ok at 1. cbn iota beta.
  cbn [for_each]. unfold ret. eexists. split; [reflexivity|].
  unfold after. cbn [SEEN seen_json trace].
  rewrite HT, <- app_assoc. repeat split; assumption.
Qed.

Lemma searches_empty cfg env :
  (forall k q, fst (search_reply q (on_get env k)) = []) ->
  forall searches sent w,
    exists w' new,
      for_each (scan_search cfg env) sent searches w = (ok sent, w') /\
      after w new w' /\
      Forall (fun e => silent e = true) new /\
      searched new = map query searches.
Proof.
  intros Hempty. induction searches as [|s l IH]; intros sent w.
  - exists w, []. cbn. unfold after. rewrite app_nil_r. repeat split. constructor.
  - destruct (scan_search_empty cfg env sent s w (Hempty _ _))
      as (w1 & H1 & HS1 & HF1 & HT1).
    destruct (IH sent w1) as (w2 & new & H2 & (HS2 & HF2 & HT2) & Hsil & Hq).
    exists w2. eexists. cbn [for_each]. unfold bind at 1. rewrite H1.
    unfold ok at 1. cbn iota beta. split; [exact H2|].
    split; [|split].
    + unfold after. rewrite HS2, HS1, HF2, HF1, HT2, HT1, <- app_assoc.
      repeat split.
    + apply Forall_app. split; [|exact Hsil].
      change (HttpGet (query s) :: snd (search_reply (query s) (on_get env (clock w))) ++ [Sleep])
        with ((HttpGet (query s) :: snd (search_reply (query s) (on_get env (clock w)))) ++ [Sleep]).
      apply Forall_app. split; [apply search_reply_silent | repeat constructor].
    + rewrite searched_app, Hq, searched_get, searched_app.
      assert (Hs : searched (snd (search_reply (query s) (on_get env (clock w)))) = []).
      { unfold search_reply. destruct (on_get env (clock w)) as [e|c b]; [reflexivity|].
        destruct (negb (c =? 200)); [reflexivity|]. destruct b; reflexivity. }
      rewrite Hs. reflexivity.
Qed.

(** X16. A cycle whose searches bring no listing (the network is down,
    the site answers with another status than 200 or with something that
    is not a JSON object, or there is nothing on sale) returns 0, leaves
    the seen-set and [seen.json] as they were, and does nothing but send
    its requests, one for each query in order, print and sleep. *)
Theorem empty_searches_change_nothing cfg env w :
  (forall k q, fst (search_reply q (on_get env k)) = []) ->
  exists w' new,
    scan_once cfg env w = (ok 0, w') /\
    after w new w' /\
    Forall (fun e => silent e = true) new /\
    searched new = map query (SEARCHES cfg).
Proof.
  intros Hempty.
  destruct (searches_empty cfg env Hempty (SEARCHES cfg) 0 w)
    as (w' & new & Hloop & Hafter & Hsil & Hq).
  exists w', new. rewrite scan_once_does, Hloop. cbn [fst snd].
  repeat split; try apply Hafter; assumption.
Qed.

(** With the network down, the first cycle of a fresh process returns
    0. *)
Lemma empty_searches_change_nothing_witness :
  fst (scan_once Scenario.cfg Scenario.hostile (boot FileAbsent)) = ok 0.
Proof.
  destruct (empty_searches_change_nothing Scenario.cfg Scenario.hostile
              (boot FileAbsent)) as (w' & new & H & _).
  - intros k q. reflexivity.
  - rewrite H. reflexivity.
Defined.

End QuietFacts.

(** ** The pace of the requests *)

Module PaceFacts.
Import Py Bot Spec Cover IOFacts ItemFacts CycleFacts TraceFacts.

Lemma paced_app p a b :
  paced p a = true -> paced false b = true -> paced p (a ++ b) = true.
Proof.
  revert p. induction a as [|e a IH]; intros p Ha Hb.
  - destruct p; [discriminate Ha | exact Hb].
  - destruct e; cbn [paced app] in *; try (apply IH; assumption).
    apply andb_true_iff in Ha as [Hp Ha]. rewrite Hp. cbn [andb].
    apply IH; assumption.
Qed.

Lemma well_paced_nil : well_paced [].
Proof. reflexivity. Qed.

Lemma well_paced_app a b : well_paced a -> well_paced b -> well_paced (a ++ b).
Proof. apply paced_app. Qed.

(** Events without a search request are well paced. *)
Lemma no_search_paced new : searched new = [] -> well_paced new.
Proof.
  unfold well_paced. induction new as [|e new IH]; [reflexivity|].
  destruct e; cbn [paced]; try exact IH. discriminate.
Qed.

Lemma emits_weaken {A} (P Q : list event -> Prop) (c : M A) :
  (forall new, P new -> Q new) -> emits P c -> emits Q c.
Proof.
  intros HPQ Hc w. destruct (Hc w) as (new & HT & HP). eauto.
Qed.

Ltac paced_bind := apply (emits_bind well_paced well_paced_app).

Lemma save_seen_paced env ids : emits well_paced (save_seen env ids).
Proof.
  intros w. destruct (save_seen_does env ids w) as (_ & _ & HT & _).
  cbn zeta in HT. eexists. split; [exact HT|].
  destruct (on_write env (clock w)); reflexivity.
Qed.

(** The request of a query is followed at once by the pause, and the
    loop over the listings sends no request. *)
Lemma scan_search_paced cfg env sent s : emits well_paced (scan_search cfg env sent s).
Proof.
  intros w. unfold scan_search. unfold bind at 1.
  destruct (search_vinted_does env (query s) w) as [Hr (_ & _ & HT)].
  destruct (search_vinted env (query s) w) as [r1 w1]. cbn [fst snd] in *.
  subst r1. unfold ok at 1. cbn iota beta.
  unfold bind at 1. unfold emit at 1. unfold ok at 1. cbn iota beta.
  set (w2 := {| SEEN := SEEN w1; seen_json := seen_json w1;
                trace := trace w1 ++ [Sleep]; clock := clock w1 |}).
  destruct (emits_for_each (fun new => searched new = []) eq_refl searched_nil_app
              (scan_item cfg env s)
              (fst (search_reply (query s) (on_get env (clock w))))
              (fun acc it _ => scan_item_no_search cfg env s acc it) sent w2)
    as (items_new & HT2 & Hno).
  eexists. split.
  - rewrite HT2. subst w2. cbn [trace]. rewrite HT, <- !app_assoc. reflexivity.
  - apply no_search_paced in Hno. unfold well_paced, search_reply.
    destruct (on_get env (clock w)) as [e|c b]; [exact Hno|].
    destruct (negb (c =? 200)); [exact Hno|]. destruct b; exact Hno.
Qed.

Lemma scan_once_paced cfg env : emits well_paced (scan_once cfg env).
Proof.
  unfold scan_once. paced_bind.
  { apply (emits_for_each well_paced well_paced_nil well_paced_app).
    intros. apply scan_search_paced. }
  intros sent. paced_bind; [|intros; apply emits_ret, well_paced_nil].
  destruct (negb (sent =? 0)); [|apply emits_ret, well_paced_nil].
  paced_bind; [apply emits_same; [exact well_paced_nil | reflexivity]|].
  intros seen. apply save_seen_paced.
Qed.

Lemma sleep_poll_paced cfg env : emits well_paced (sleep_poll cfg env).
Proof.
  unfold sleep_poll. paced_bind; [apply emits_ask, well_paced_nil|]. intros j.
  paced_bind; [apply emits_lift, well_paced_nil|]. intros p. unfold sleep.
  destruct (sleep_error _); [apply emits_throw, well_paced_nil|].
  apply emits_emit. reflexivity.
Qed.

Lemma main_iteration_paced cfg env : emits well_paced (main_iteration cfg env).
Proof.
  unfold main_iteration. apply (emits_try_except well_paced well_paced_app).
  - paced_bind; [apply scan_once_paced|]. intros sent.
    paced_bind; [|intros; apply sleep_poll_paced].
    destruct (negb (sent =? 0)); [|apply emits_ret, well_paced_nil].
    apply emits_emit. reflexivity.
  - intros e. paced_bind; [|intros _]; apply emits_emit; reflexivity.
Qed.

Lemma main_loop_paced cfg env n : emits well_paced (main_loop cfg env n).
Proof.
  induction n as [|n IH]; cbn [main_loop]; [apply emits_ret, well_paced_nil|].
  paced_bind; [apply main_iteration_paced | intros; exact IH].
Qed.

(** X17. The bot never sends two search requests in a row: in every run
    of [main], whatever the replies, the failures and the listings, each
    search request is followed by a pause before the next request is
    sent. *)
Theorem requests_are_paced cfg env n w :
  exists new,
    trace (snd (main cfg env n w)) = trace w ++ new /\
    paced false new = true.
Proof.
  revert w. change (emits well_paced (main cfg env n)).
  unfold main. paced_bind; [|intros; apply main_loop_paced].
  unfold main_start. paced_bind; [apply emits_emit; reflexivity|].
  intros _. apply (emits_try_except well_paced well_paced_app).
  - paced_bind; [apply scan_once_paced | intros; apply emits_ret, well_paced_nil].
  - intros e. apply emits_emit. reflexivity.
Qed.

(** [sleep_poll] sleeps when it returns and does nothing when it
    raises. *)
Lemma sleep_poll_trace cfg env w :
  trace (snd (sleep_poll cfg env w)) =
  trace w ++ match fst (sleep_poll cfg env w) with
             | inr _ => [Sleep]
             | inl _ => []
             end.
Proof.
  unfold sleep_poll. unfold bind at 1 3. unfold ask at 1 2. unfold ok at 1 2.
  cbn iota beta. unfold bind at 1 2. unfold lift at 1 2.
  destruct (float_of_int (POLL_SECONDS cfg)) as [e|p];
    [cbn; apply eq_sym, app_nil_r|].
  cbn iota beta. unfold sleep.
  destruct (sleep_error _); [cbn; apply eq_sym, app_nil_r|].
  reflexivity.
Qed.

(** X18. Every round of the main loop ends with a pause: whether the
    cycle returns or raises, and whatever it did, the last thing that a
    round of [while True] does is to sleep. *)
Theorem round_ends_with_pause cfg env w :
  exists before,
    trace (snd (main_iteration cfg env w)) = trace w ++ before ++ [Sleep].
Proof.
  unfold main_iteration, try_except.
  unfold bind at 1.
  destruct (scan_once_paced cfg env w) as (n1 & H1 & _).
  destruct (scan_once cfg env w) as [[e|sent] w1]; cbn [snd] in H1.
  - exists (n1 ++ [PrintLine (LogErrLoop e)]). unfold bind, emit. cbn.
    rewrite H1, <- !app_assoc. reflexivity.
  - cbn iota beta. unfold bind at 1.
    assert (Hc : exists w2 n2,
               (if negb (sent =? 0) then emit (PrintLine (LogSent sent)) else ret tt) w1
               = (ok tt, w2) /\ trace w2 = trace w1 ++ n2).
    { destruct (negb (sent =? 0)).
      - eexists _, [_]. split; reflexivity.
      - exists w1, []. rewrite app_nil_r. split; reflexivity. }
    destruct Hc as (w2 & n2 & -> & H2). unfold ok at 1. cbn iota beta.
    pose proof (sleep_poll_trace cfg env w2) as Hs.
    destruct (sleep_poll cfg env w2) as [[e|[]] w3]; cbn [fst snd] in *.
    + exists (n1 ++ n2 ++ [PrintLine (LogErrLoop e)]). unfold bind, emit. cbn.
      rewrite Hs, H2, H1, <- !app_assoc. reflexivity.
    + exists (n1 ++ n2). rewrite Hs, H2, H1, <- !app_assoc. reflexivity.
Qed.

End PaceFacts.

(** ** Running without credentials *)

Module TelegramFacts.
Import Py Bot Spec Cover IOFacts TraceFacts.

Lemma no_post_nil : no_post [].
Proof. constructor. Qed.

Lemma no_post_app a b : no_post a -> no_post b -> no_post (a ++ b).
Proof. intros Ha Hb. apply Forall_app. split; assumption. Qed.

Lemma no_post_quiet e : silent e = true -> no_post [e].
Proof. intros H. repeat constructor. destruct e; [reflexivity..|discriminate H| | |]; reflexivity. Qed.

Lemma no_post_write ids o : no_post [WriteSeen ids o].
Proof. repeat constructor. Qed.

Ltac quiet_bind := apply (emits_bind no_post no_post_app).
Ltac quiet_same := apply (emits_same no_post no_post_nil); reflexivity.

Lemma send_telegram_no_post cfg env msg :
  configured cfg = false -> emits no_post (send_telegram cfg env msg).
Proof.
  intros Hc w. destruct (send_telegram_not_configured cfg env msg w Hc)
    as (_ & _ & _ & HT).
  eexists. split; [exact HT|]. repeat constructor.
Qed.

(** Without credentials a round of the loop over listings sends nothing
    to the messaging endpoint. *)
Lemma scan_item_no_post cfg env s sent it :
  configured cfg = false -> emits no_post (scan_item cfg env s sent it).
Proof.
  intros Hc. unfold scan_item. quiet_bind; [quiet_same|]. intros i.
  destruct (id i) as [x|]; [|quiet_same].
  destruct (x =? 0); [quiet_same|].
  quiet_bind; [quiet_same|]. intros seen.
  destruct (decide (x ∈ seen)); [quiet_same|].
  quiet_bind.
  { unfold is_recent. destruct (created_dt i); [|quiet_same].
    quiet_bind; [quiet_same | intros now; quiet_same]. }
  intros recent. destruct (negb recent).
  { quiet_bind; [quiet_same | intros _; quiet_same]. }
  quiet_bind; [apply emits_emit; repeat constructor|]. intros _.
  quiet_bind; [quiet_same|]. intros [[matched qty] unit_price].
  destruct matched.
  - quiet_bind; [quiet_same|]. intros _.
    quiet_bind; [apply send_telegram_no_post, Hc | intros _; quiet_same].
  - quiet_bind; [quiet_same | intros _; quiet_same].
Qed.

(** X19. Without its two credentials the bot never contacts the
    messaging endpoint: in every run of [main], whatever is on sale and
    whatever the network does, no request is posted. *)
Theorem no_credentials_no_post cfg env n w :
  configured cfg = false ->
  exists new,
    trace (snd (main cfg env n w)) = trace w ++ new /\
    Forall (fun e => is_post e = false) new.
Proof.
  intros Hc. revert w. change (emits no_post (main cfg env n)).
  apply emits_main.
  - exact no_post_nil.
  - exact no_post_app.
  - exact no_post_quiet.
  - exact no_post_write.
  - intros s sent it. apply scan_item_no_post, Hc.
Qed.

(** The scenario of the specification, without credentials: the match is
    printed and nothing is posted. *)
Lemma no_credentials_no_post_witness :
  exists new,
    trace (snd (main Scenario.cfg (Scenario.env [Scenario.listing SNone] 0) 1
                  (boot FileAbsent))) = new /\
    Forall (fun e => is_post e = false) new.
Proof.
  destruct (no_credentials_no_post Scenario.cfg
              (Scenario.env [Scenario.listing SNone] 0) 1 (boot FileAbsent) eq_refl)
    as (new & HT & Hno).
  exists new. split; [exact HT | exact Hno].
Defined.

End TelegramFacts.
